(** * Circuit evaluation engine: a shallow embedding and its properties

    The development follows the evaluator of the repository
    ([evaluateCircuit], [detectCycleConnections], [wouldCreateCycle]) and
    the data shapes of [types/circuit.ts].

    Modelling conventions.
    - A JavaScript object used as a dictionary ([Record<string, T>]) is a
      [gmap string T]; node identifiers are assumed not to collide with the
      members of [Object.prototype].
    - A [Set<string>] that is iterated is an insertion-ordered list without
      duplicates; a set that is only queried with [has] is a list queried
      with a membership test.
    - Pin counts and pin indices are natural numbers.
    - Presentational fields of a node (position, label, colours, rotation,
      pin names) play no part in evaluation and are left out.
    - The recursion of the evaluator through MODULE nodes is not bounded in
      the source; the embedding threads a recursion budget and returns
      [None] when it is exhausted.  The [while] loops are given a budget
      that is shown never to run out. *)

From Stdlib Require Import ZArith NArith Ascii String.
From stdpp Require Import gmap strings list fin_maps relations pretty.

(** ** Data model *)

Inductive GateType : Type :=
  | AND | OR | NOT | INPUT | OUTPUT | LED | MODULE | PINBAR | BUTTON
  | UNKNOWN.

Inductive PinBarMode : Type := ModeInput | ModeOutput.

Record CircuitNode : Type := mkNode {
  nid : string;
  ntype : GateType;
  inputCount : nat;
  outputCount : nat;
  inputValue : option bool;
  moduleId : option string;
  pinBarMode : option PinBarMode;
  pinBarValues : option (list bool)
}.

Record Connection : Type := mkConn {
  cid : string;
  fromNodeId : string;
  fromPinIndex : nat;
  toNodeId : string;
  toPinIndex : nat
}.

Record ModuleDefinition : Type := mkModule {
  mid : string;
  mnodes : list CircuitNode;
  mconnections : list Connection;
  inputNodeIds : list string;
  outputNodeIds : list string
}.

(** The evaluation result: node identifier to output bit vector. *)
Abbreviation Outputs := (gmap string (list bool)).

(** ** Lookups *)

(** [nodes.find(n => n.id === nodeId)] *)
Definition find_node (nodes : list CircuitNode) (nodeId : string)
  : option CircuitNode :=
  find (fun n => bool_decide (nid n = nodeId)) nodes.

(** [connections.find(c => c.toNodeId === nodeId && c.toPinIndex === i)] *)
Definition find_conn (conns : list Connection) (nodeId : string) (i : nat)
  : option Connection :=
  find (fun c => bool_decide (toNodeId c = nodeId)
                 && bool_decide (toPinIndex c = i)) conns.

(** [modules.find(m => m.id === node.moduleId)]; an absent [moduleId]
    equals no identifier. *)
Definition find_module (modules : list ModuleDefinition) (mi : option string)
  : option ModuleDefinition :=
  match mi with
  | Some i => find (fun m => bool_decide (mid m = i)) modules
  | None => None
  end.

(** [(readFrom[from] || [])[pin] ?? false] *)
Definition readPin (m : Outputs) (from : string) (pin : nat) : bool :=
  default false (default [] (m !! from) !! pin).

(** [arr.indexOf(x)], [None] standing for [-1]. *)
Fixpoint indexOf (x : string) (l : list string) : option nat :=
  match l with
  | [] => None
  | y :: l' => if bool_decide (y = x) then Some 0
               else S <$> indexOf x l'
  end.

(** ** Graph indexer *)

(** [s.add(x)] on an insertion-ordered set. *)
Definition set_add (x : string) (s : list string) : list string :=
  if bool_decide (x ∈ s) then s else s ++ [x].

Abbreviation Adjacency := (gmap string (list string)).

Definition initEdges (nodes : list CircuitNode) : Adjacency :=
  foldl (fun m n => <[nid n := []]> m) ∅ nodes.

Definition addEdge (st : Adjacency * Adjacency) (c : Connection)
  : Adjacency * Adjacency :=
  match st.1 !! fromNodeId c, st.2 !! toNodeId c with
  | Some o, Some i =>
      (<[fromNodeId c := set_add (toNodeId c) o]> st.1,
       <[toNodeId c := set_add (fromNodeId c) i]> st.2)
  | _, _ => st
  end.

(** The pair [(outEdges, inEdges)]. *)
Definition buildAdjacency (nodes : list CircuitNode) (conns : list Connection)
  : Adjacency * Adjacency :=
  foldl addEdge (initEdges nodes, initEdges nodes) conns.

(** ** Topological sequencer *)

(** [inDegree[node.id] = inEdges[node.id]?.size || 0] *)
Definition initInDegree (nodes : list CircuitNode) (inE : Adjacency)
  : gmap string Z :=
  foldl (fun d n =>
           <[nid n := match inE !! nid n with
                      | Some s => Z.of_nat (length s)
                      | None => 0%Z
                      end]> d) ∅ nodes.

Definition initQueue (nodes : list CircuitNode) (d : gmap string Z)
  : list string :=
  nid <$> filter (fun n => d !! nid n = Some 0%Z) nodes.

(** One turn of the inner [for] loop: [inDegree[next]--] and the push on
    reaching zero.  The key is always present, because edges are recorded
    between nodes only. *)
Definition relax (st : gmap string Z * list string) (next : string)
  : gmap string Z * list string :=
  match st.1 !! next with
  | Some k =>
      (<[next := (k - 1)%Z]> st.1,
       if bool_decide ((k - 1)%Z = 0%Z) then st.2 ++ [next] else st.2)
  | None => st
  end.

(** The [while (queue.length > 0)] loop. *)
Fixpoint kahnLoop (fuel : nat) (outE : Adjacency) (queue sorted : list string)
    (d : gmap string Z) {struct fuel} : option (list string) :=
  match queue with
  | [] => Some sorted
  | i :: queue' =>
      match fuel with
      | O => None
      | S fuel' =>
          let st := foldl relax (d, queue') (default [] (outE !! i)) in
          kahnLoop fuel' outE st.2 (sorted ++ [i]) st.1
      end
  end.

(** The residual loop: the pair [(cycleNodeIds, sorted)]. *)
Definition collectStep (st : list string * list string) (n : CircuitNode)
  : list string * list string :=
  if bool_decide (nid n ∈ st.2) then st
  else (st.1 ++ [nid n], st.2 ++ [nid n]).

Definition collectCycle (nodes : list CircuitNode) (sorted : list string)
  : list string * list string :=
  foldl collectStep ([], sorted) nodes.

(** The Kahn output alone. *)
Definition kahnSorted (nodes : list CircuitNode) (conns : list Connection)
  : option (list string) :=
  let adj := buildAdjacency nodes conns in
  let d := initInDegree nodes adj.2 in
  kahnLoop (S (length nodes + length nodes)) adj.1 (initQueue nodes d) [] d.

(** The pair [(cycleNodeIds, sorted)] as it stands before evaluation. *)
Definition evaluationOrder (nodes : list CircuitNode) (conns : list Connection)
  : option (list string * list string) :=
  collectCycle nodes <$> kahnSorted nodes conns.

(** ** Node semantics *)

(** The input-value vector of a node: one entry per declared input pin,
    read through the first connection that targets the pin, [false] when
    there is none.  A source in the cycle set is always read from the
    frozen snapshot. *)
Definition pinValue (conns : list Connection) (cycleSet : list string)
    (frozen source : Outputs) (nodeId : string) (i : nat) : bool :=
  match find_conn conns nodeId i with
  | Some c =>
      let readFrom :=
        if bool_decide (fromNodeId c ∈ cycleSet) then frozen else source in
      readPin readFrom (fromNodeId c) (fromPinIndex c)
  | None => false
  end.

Definition inputValues (conns : list Connection) (cycleSet : list string)
    (frozen source : Outputs) (node : CircuitNode) : list bool :=
  pinValue conns cycleSet frozen source (nid node) <$> seq 0 (inputCount node).

(** ** Module expander *)

(** Step 1: the flattening loop, with state [(moduleInputValues, inputIdx)]. *)
Definition flattenStep (inputVals : list bool) (nodes : list CircuitNode)
    (st : list bool * nat) (inId : string) : list bool * nat :=
  match find_node nodes inId with
  | None => st
  | Some inNode =>
      match ntype inNode with
      | INPUT => (st.1 ++ [default false (inputVals !! st.2)], S st.2)
      | PINBAR =>
          (st.1 ++ ((fun k => default false (inputVals !! k))
                      <$> seq st.2 (outputCount inNode)),
           st.2 + outputCount inNode)
      | _ => st
      end
  end.

Definition moduleInputValues (m : ModuleDefinition) (inputVals : list bool)
  : list bool :=
  (foldl (flattenStep inputVals (mnodes m)) ([], 0) (inputNodeIds m)).1.

(** One turn of the [actualIdx] loop. *)
Definition widthStep (nodes : list CircuitNode) (a : nat) (k : string) : nat :=
  match find_node nodes k with
  | Some prevNode =>
      match ntype prevNode with
      | PINBAR => a + outputCount prevNode
      | _ => a + 1
      end
  | None => a + 1
  end.

(** The [actualIdx] loop over the terminals that precede position [idx]. *)
Definition actualIdx (m : ModuleDefinition) (idx : nat) : nat :=
  foldl (widthStep (mnodes m)) 0 (take idx (inputNodeIds m)).

(** Step 2: the working copy of one internal node. *)
Definition injectNode (m : ModuleDefinition) (miv : list bool)
    (n : CircuitNode) : CircuitNode :=
  match ntype n with
  | INPUT =>
      match indexOf (nid n) (inputNodeIds m) with
      | Some idx =>
          mkNode (nid n) (ntype n) (inputCount n) (outputCount n)
            (Some (default false (miv !! actualIdx m idx)))
            (moduleId n) (pinBarMode n) (pinBarValues n)
      | None => n
      end
  | PINBAR =>
      match default ModeInput (pinBarMode n) with
      | ModeInput =>
          match indexOf (nid n) (inputNodeIds m) with
          | Some idx =>
              mkNode (nid n) (ntype n) (inputCount n) (outputCount n)
                (inputValue n) (moduleId n) (pinBarMode n)
                (Some ((fun pi => default false (miv !! (actualIdx m idx + pi)))
                         <$> seq 0 (outputCount n)))
          | None => n
          end
      | ModeOutput => n
      end
  | _ => n
  end.

Definition internalNodes (m : ModuleDefinition) (miv : list bool)
  : list CircuitNode :=
  injectNode m miv <$> mnodes m.

(** Step 4: the bits one entry of [outputNodeIds] contributes. *)
Definition outputBits (m : ModuleDefinition) (internalOutputs : Outputs)
    (outId : string) : list bool :=
  match find_node (mnodes m) outId with
  | Some outNode =>
      match ntype outNode, pinBarMode outNode with
      | PINBAR, Some ModeOutput =>
          (fun pi =>
             match find_conn (mconnections m) outId pi with
             | Some c => readPin internalOutputs (fromNodeId c) (fromPinIndex c)
             | None => false
             end) <$> seq 0 (inputCount outNode)
      | _, _ => [readPin internalOutputs outId 0]
      end
  | None => [readPin internalOutputs outId 0]
  end.

Definition moduleResult (m : ModuleDefinition) (internalOutputs : Outputs)
  : list bool :=
  outputNodeIds m ≫= outputBits m internalOutputs.

(** ** The evaluator *)

(** A [for ... of] loop whose body may exhaust the recursion budget. *)
Definition forOf {A B : Type} (body : A -> B -> option A) (l : list B) (a : A)
  : option A :=
  foldl (fun acc x => a' ← acc; body a' x) (Some a) l.

Section Evaluator.

(** The recursive call [evaluateCircuit(internalNodes, moduleDef.connections,
    modules)], which passes no previous outputs. *)
Variable rec : list CircuitNode -> list Connection -> option Outputs.
Variable nodes : list CircuitNode.
Variable conns : list Connection.
Variable modules : list ModuleDefinition.

(** The [switch (node.type)]. *)
Definition gateOutput (node : CircuitNode) (iv : list bool)
  : option (list bool) :=
  match ntype node with
  | INPUT | BUTTON => Some [default false (inputValue node)]
  | AND =>
      Some [bool_decide (2 ≤ length iv)
            && default false (iv !! 0) && default false (iv !! 1)]
  | OR =>
      Some [bool_decide (2 ≤ length iv)
            && (default false (iv !! 0) || default false (iv !! 1))]
  | NOT => Some [negb (default false (iv !! 0))]
  | OUTPUT | LED => Some [default false (iv !! 0)]
  | PINBAR =>
      match default ModeInput (pinBarMode node) with
      | ModeInput =>
          let vals := default [] (pinBarValues node) in
          Some ((fun i => default false (vals !! i))
                  <$> seq 0 (outputCount node))
      | ModeOutput => Some (take (inputCount node) iv)
      end
  | MODULE =>
      match find_module modules (moduleId node) with
      | Some moduleDef =>
          let miv := moduleInputValues moduleDef iv in
          internalOutputs ←
            rec (internalNodes moduleDef miv) (mconnections moduleDef);
          Some (moduleResult moduleDef internalOutputs)
      | None => Some (replicate (outputCount node) false)
      end
  | UNKNOWN => Some [false]
  end.

Variable cycleSet : list string.

(** [evaluateNode(nodeId, isCyclePass)]: the new [outputs]. *)
Definition evaluateNode (frozen outputs : Outputs) (nodeId : string)
    (isCyclePass : bool) : option Outputs :=
  match find_node nodes nodeId with
  | None => Some outputs
  | Some node =>
      let source := if isCyclePass then frozen else outputs in
      v ← gateOutput node (inputValues conns cycleSet frozen source node);
      Some (<[nodeId := v]> outputs)
  end.

(** Pass 1 over [sorted], skipping the cycle set. *)
Definition pass1Step (frozen outputs : Outputs) (nodeId : string)
  : option Outputs :=
  if bool_decide (nodeId ∈ cycleSet) then Some outputs
  else evaluateNode frozen outputs nodeId false.

Definition pass1 (frozen : Outputs) (sorted : list string)
    (outputs : Outputs) : option Outputs :=
  forOf (pass1Step frozen) sorted outputs.

(** The snapshot refresh. *)
Definition refresh (sorted : list string) (outputs frozen : Outputs)
  : Outputs :=
  foldl (fun fr nodeId =>
           if bool_decide (nodeId ∈ cycleSet) then fr
           else match outputs !! nodeId with
                | Some v => <[nodeId := v]> fr
                | None => fr
                end) frozen sorted.

(** Pass 2 over a list of cycle nodes. *)
Definition pass2 (frozen : Outputs) (order : list string)
    (outputs : Outputs) : option Outputs :=
  forOf (fun outputs nodeId => evaluateNode frozen outputs nodeId true)
    order outputs.

End Evaluator.

(** Seeding of the cycle nodes from the previous outputs. *)
Definition seedOutputs (previousOutputs : option Outputs)
    (cycleNodeIds : list string) : Outputs :=
  match previousOutputs with
  | Some prev =>
      foldl (fun o nodeId =>
               match prev !! nodeId with
               | Some v => <[nodeId := v]> o
               | None => o
               end) ∅ cycleNodeIds
  | None => ∅
  end.

(** Seeding, pass 1, snapshot refresh and pass 2, for a given cycle list and
    sequence; pass 2 runs over [order]. *)
Definition evaluatePhases
    (rec : list CircuitNode -> list Connection -> option Outputs)
    (nodes : list CircuitNode) (conns : list Connection)
    (modules : list ModuleDefinition) (previousOutputs : option Outputs)
    (cycleNodeIds sorted order : list string) : option Outputs :=
  let outputs0 := seedOutputs previousOutputs cycleNodeIds in
  let frozen0 := outputs0 in
  outputs1 ←
    pass1 rec nodes conns modules cycleNodeIds frozen0 sorted outputs0;
  let frozen1 := refresh cycleNodeIds sorted outputs1 frozen0 in
  pass2 rec nodes conns modules cycleNodeIds frozen1 order outputs1.

(** The body of [evaluateCircuit], over the recursive call [rec]: pass 2
    runs over [cycleNodeIds]. *)
Definition evaluateCircuitBody
    (rec : list CircuitNode -> list Connection -> option Outputs)
    (nodes : list CircuitNode) (conns : list Connection)
    (modules : list ModuleDefinition) (previousOutputs : option Outputs)
  : option Outputs :=
  ord ← evaluationOrder nodes conns;
  evaluatePhases rec nodes conns modules previousOutputs ord.1 ord.2 ord.1.

Fixpoint evaluateCircuit (fuel : nat) (nodes : list CircuitNode)
    (conns : list Connection) (modules : list ModuleDefinition)
    (previousOutputs : option Outputs) {struct fuel} : option Outputs :=
  match fuel with
  | O => None
  | S fuel' =>
      evaluateCircuitBody
        (fun ns cs => evaluateCircuit fuel' ns cs modules None)
        nodes conns modules previousOutputs
  end.

(** ** Cycle utilities *)

(** *** Enumeration order of [for (const id in inDegree)]

    Own string keys that are array indices come first, in ascending numeric
    order; the other keys follow in the order of their creation. *)

Definition digitValue (a : ascii) : option N :=
  let n := N_of_ascii a in
  if ((48 <=? n) && (n <=? 57))%N then Some (n - 48)%N else None.

Fixpoint parseDigits (acc : N) (s : string) : option N :=
  match s with
  | EmptyString => Some acc
  | String a s' => d ← digitValue a; parseDigits (10 * acc + d)%N s'
  end.

(** The numeric value of a canonical array-index key. *)
Definition arrayIndex (s : string) : option N :=
  match s with
  | EmptyString => None
  | String a s' =>
      if bool_decide (a = "0"%char)
      then (if bool_decide (s' = EmptyString) then Some 0%N else None)
      else v ← parseDigits 0 s;
           if (v <? 2 ^ 32 - 1)%N then Some v else None
  end.

Fixpoint insertIndexKey (k : N * string) (l : list (N * string))
  : list (N * string) :=
  match l with
  | [] => [k]
  | k' :: l' =>
      if (k.1 <=? k'.1)%N then k :: l else k' :: insertIndexKey k l'
  end.

Definition forInKeys (created : list string) : list string :=
  let indexed :=
    omap (fun s => (fun v => (v, s)) <$> arrayIndex s) created in
  (snd <$> foldr insertIndexKey [] indexed)
  ++ filter (fun s => arrayIndex s = None) created.

(** *** [detectCycleConnections] *)

(** State of the two initialisation loops: [(inDegree, adj, created)],
    [created] listing the keys of [inDegree] in creation order. *)
Definition detectInitStep
    (st : gmap string Z * Adjacency * list string) (n : CircuitNode)
  : gmap string Z * Adjacency * list string :=
  (<[nid n := 0%Z]> st.1.1, <[nid n := []]> st.1.2, set_add (nid n) st.2).

Definition detectAddEdge (st : gmap string Z * Adjacency) (c : Connection)
  : gmap string Z * Adjacency :=
  match st.2 !! fromNodeId c, st.1 !! toNodeId c with
  | Some a, Some k =>
      (<[toNodeId c := (k + 1)%Z]> st.1,
       <[fromNodeId c := set_add (toNodeId c) a]> st.2)
  | _, _ => st
  end.

(** The identifiers the loop of [detectCycleConnections] processes.  The
    loop is the one of [kahnLoop], [processed] receiving what [sorted]
    receives there. *)
Definition detectProcessed (nodes : list CircuitNode)
    (conns : list Connection) : option (list string) :=
  let init := foldl detectInitStep (∅, ∅, []) nodes in
  let st := foldl detectAddEdge init.1 conns in
  let queue :=
    filter (fun i => st.1 !! i = Some 0%Z) (forInKeys init.2) in
  kahnLoop (S (length nodes + length nodes)) st.2 queue [] st.1.

Definition detectCycleConnections (nodes : list CircuitNode)
    (conns : list Connection) : option (list string) :=
  processed ← detectProcessed nodes conns;
  let cycleNodes :=
    nid <$> filter (fun n => nid n ∉ processed) nodes in
  Some (cid <$> filter (fun c => fromNodeId c ∈ cycleNodes
                                 ∧ toNodeId c ∈ cycleNodes) conns).

(** *** [wouldCreateCycle] *)

(** [adj[from].push(to)], creating the array on first use. *)
Definition addAdj (adj : Adjacency) (c : Connection) : Adjacency :=
  <[fromNodeId c := default [] (adj !! fromNodeId c) ++ [toNodeId c]]> adj.

(** The breadth-first loop; [None] is the exhausted budget. *)
Fixpoint bfsLoop (fuel : nat) (adj : Adjacency) (fromId : string)
    (q : list string) (visited : gset string) {struct fuel} : option bool :=
  match q with
  | [] => Some false
  | current :: q' =>
      match fuel with
      | O => None
      | S fuel' =>
          if bool_decide (current = fromId) then Some true
          else if bool_decide (current ∈ visited)
               then bfsLoop fuel' adj fromId q' visited
               else bfsLoop fuel' adj fromId
                      (q' ++ default [] (adj !! current))
                      ({[current]} ∪ visited)
      end
  end.

Definition wouldCreateCycle (conns : list Connection)
    (fromNodeId' toNodeId' : string) : option bool :=
  if bool_decide (fromNodeId' = toNodeId') then Some true
  else bfsLoop (S (S (length conns))) (foldl addAdj ∅ conns)
         fromNodeId' [toNodeId'] ∅.

(** [v] is what the [switch] yields for node [i] under some snapshot. *)
Definition written
    (rec : list CircuitNode -> list Connection -> option Outputs)
    (nodes : list CircuitNode) (conns : list Connection)
    (modules : list ModuleDefinition) (cycleSet : list string)
    (i : string) (v : list bool) : Prop :=
  exists n frozen src,
    find_node nodes i = Some n
    /\ gateOutput rec modules n (inputValues conns cycleSet frozen src n)
       = Some v.

(** ** Termination measure of the sequencer loop *)

(** The entries of the in-degree table that are still positive. *)
Definition positives (d : gmap string Z) : gmap string Z :=
  filter (fun kv => (0 < kv.2)%Z) d.

Definition kahnMeasure (queue : list string) (d : gmap string Z) : nat :=
  length queue + size (positives d).

(** The [k]-th of successive calls, each fed the result of the one before;
    call [0] receives no previous outputs. *)
Fixpoint evaluateRepeatedly (fuel : nat) (nodes : list CircuitNode)
    (conns : list Connection) (modules : list ModuleDefinition) (k : nat)
  : option Outputs :=
  match k with
  | O => evaluateCircuit fuel nodes conns modules None
  | S k' =>
      r ← evaluateRepeatedly fuel nodes conns modules k';
      evaluateCircuit fuel nodes conns modules (Some r)
  end.

(** ** Vocabulary of the statements *)

(** The input pins of a node that some connection targets. *)
Definition connectedPins (conns : list Connection) (n : CircuitNode)
  : list nat :=
  filter (fun p => is_Some (find_conn conns (nid n) p)) (seq 0 (inputCount n)).

(** A connection leads from [u] to [v]. *)
Definition edge (conns : list Connection) (u v : string) : Prop :=
  exists c, c ∈ conns /\ fromNodeId c = u /\ toNodeId c = v.

(** [v] can be reached from [u] along connections, forwards. *)
Definition reachable (conns : list Connection) : relation string :=
  rtc (edge conns).

(** No node lies on a closed path of connections. *)
Definition acyclic (conns : list Connection) : Prop :=
  forall x, ~ tc (edge conns) x x.

(** A MODULE node of definition [m1] resolves to definition [m2]. *)
Definition references (modules : list ModuleDefinition)
    (m1 m2 : ModuleDefinition) : Prop :=
  exists n, n ∈ mnodes m1 /\ ntype n = MODULE
            /\ find_module modules (moduleId n) = Some m2.

(** No definition of the library reaches itself through MODULE nodes. *)
Definition noSelfReference (modules : list ModuleDefinition) : Prop :=
  forall m, m ∈ modules -> ~ tc (references modules) m m.

(** What the [switch] yields for a node whose inputs are all read from the
    frozen snapshot. *)
Definition frozenValue
    (rec : list CircuitNode -> list Connection -> option Outputs)
    (modules : list ModuleDefinition) (conns : list Connection)
    (cycleSet : list string) (frozen : Outputs) (n : CircuitNode)
  : option (list bool) :=
  gateOutput rec modules n (inputValues conns cycleSet frozen frozen n).

(** ** Invariants of the graph indexer and of the sequencer *)

(** What [(outEdges, inEdges)] hold once the connections [cs] are recorded,
    [ids] being the node identifiers. *)
Definition adjacencyOf (ids : list string) (cs : list Connection)
    (st : Adjacency * Adjacency) : Prop :=
  (forall u, u ∉ ids -> st.1 !! u = None /\ st.2 !! u = None)
  /\ (forall u, u ∈ ids ->
        exists l, st.1 !! u = Some l /\ NoDup l
                  /\ forall v, v ∈ l <-> v ∈ ids /\ edge cs u v)
  /\ (forall v, v ∈ ids ->
        exists l, st.2 !! v = Some l /\ NoDup l
                  /\ forall u, u ∈ l <-> u ∈ ids /\ edge cs u v).

(** In [s] every element comes after all of its predecessors. *)
Definition dependencyOrdered (preds : string -> list string)
    (s : list string) : Prop :=
  forall j v, s !! j = Some v ->
    forall u, u ∈ preds v -> exists i, i < j /\ s !! i = Some u.

(** The state of the sequencer loop: queue [q], output [s], in-degree table
    [d].  The table counts the predecessors not yet output, and whatever
    is output or queued has all its predecessors output. *)
Definition kahnInv (ids : list string) (preds : string -> list string)
    (q s : list string) (d : gmap string Z) : Prop :=
  NoDup (s ++ q)
  /\ (forall v, v ∈ s ++ q -> v ∈ ids)
  /\ (forall v, v ∈ ids ->
        d !! v = Some (Z.of_nat (length (filter (fun u => u ∉ s) (preds v)))))
  /\ (forall v, v ∈ s ++ q -> forall u, u ∈ preds v -> u ∈ s)
  /\ dependencyOrdered preds s.

(** ** Module expansion as the specification words it *)

(** [width] entries of the external input vector from [offset] on, a
    missing input reading [false]. *)
Definition inputSlice (inputVals : list bool) (offset width : nat)
  : list bool :=
  (fun j => default false (inputVals !! j)) <$> seq offset width.

(** An input terminal: an INPUT node or a PINBAR in input mode. *)
Definition isInputTerminal (t : CircuitNode) : bool :=
  match ntype t with
  | INPUT => true
  | PINBAR =>
      match default ModeInput (pinBarMode t) with
      | ModeInput => true
      | ModeOutput => false
      end
  | _ => false
  end.

(** An output terminal: an OUTPUT node or a PINBAR in output mode. *)
Definition isOutputTerminal (t : CircuitNode) : bool :=
  match ntype t, pinBarMode t with
  | OUTPUT, _ => true
  | PINBAR, Some ModeOutput => true
  | _, _ => false
  end.

(** Step 1: walking [inputNodeIds], an INPUT terminal takes one slot, an
    input-mode PINBAR terminal as many consecutive slots as it has output
    pins.  The result pairs each terminal with its slice. *)
Fixpoint specSlices (nodes : list CircuitNode) (inputVals : list bool)
    (offset : nat) (inIds : list string) : list (string * list bool) :=
  match inIds with
  | [] => []
  | i :: rest =>
      match find_node nodes i with
      | Some t =>
          if isInputTerminal t then
            let width :=
              match ntype t with PINBAR => outputCount t | _ => 1 end in
            (i, inputSlice inputVals offset width)
            :: specSlices nodes inputVals (offset + width) rest
          else specSlices nodes inputVals offset rest
      | None => specSlices nodes inputVals offset rest
      end
  end.

Fixpoint sliceOf (i : string) (slices : list (string * list bool))
  : option (list bool) :=
  match slices with
  | [] => None
  | (k, sl) :: rest => if bool_decide (k = i) then Some sl else sliceOf i rest
  end.

(** Step 2: the working copy, each input terminal holding its slice. *)
Definition specInject (slices : list (string * list bool)) (n : CircuitNode)
  : CircuitNode :=
  if isInputTerminal n then
    match sliceOf (nid n) slices with
    | Some sl =>
        match ntype n with
        | INPUT =>
            mkNode (nid n) (ntype n) (inputCount n) (outputCount n)
              (Some (default false (sl !! 0)))
              (moduleId n) (pinBarMode n) (pinBarValues n)
        | _ =>
            mkNode (nid n) (ntype n) (inputCount n) (outputCount n)
              (inputValue n) (moduleId n) (pinBarMode n) (Some sl)
        end
    | None => n
    end
  else n.

Definition specInternalNodes (m : ModuleDefinition) (inputVals : list bool)
  : list CircuitNode :=
  specInject (specSlices (mnodes m) inputVals 0 (inputNodeIds m))
    <$> mnodes m.

(** Step 4: an OUTPUT terminal contributes its single internal result bit;
    an output-mode PINBAR contributes, for each of its input pins, the value
    of the internal source wired to the pin, or [false]. *)
Definition specOutputBits (m : ModuleDefinition) (internalOutputs : Outputs)
    (outId : string) : list bool :=
  match find_node (mnodes m) outId with
  | Some t =>
      if isOutputTerminal t then
        match ntype t with
        | OUTPUT => [readPin internalOutputs outId 0]
        | _ =>
            (fun pi =>
               match find_conn (mconnections m) outId pi with
               | Some c =>
                   readPin internalOutputs (fromNodeId c) (fromPinIndex c)
               | None => false
               end) <$> seq 0 (inputCount t)
        end
      else []
  | None => []
  end.

(** Steps 1 to 4 over a standalone evaluation [eval] of the working copy. *)
Definition specModule
    (eval : list CircuitNode -> list Connection -> option Outputs)
    (m : ModuleDefinition) (inputVals : list bool) : option (list bool) :=
  internalOutputs ← eval (specInternalNodes m inputVals) (mconnections m);
  Some (outputNodeIds m ≫= specOutputBits m internalOutputs).

(** A definition whose node identifiers are pairwise distinct, whose
    [inputNodeIds] are distinct identifiers of input terminals of it and
    whose [outputNodeIds] are identifiers of output terminals of it. *)
Definition wellFormedModule (m : ModuleDefinition) : Prop :=
  NoDup (nid <$> mnodes m)
  /\ NoDup (inputNodeIds m)
  /\ (forall i, i ∈ inputNodeIds m ->
        exists t, find_node (mnodes m) i = Some t /\ isInputTerminal t = true)
  /\ (forall o, o ∈ outputNodeIds m ->
        exists t, find_node (mnodes m) o = Some t /\ isOutputTerminal t = true).

(** ** Module creation in the side menu *)

#[global] Instance GateType_eq_dec : EqDecision GateType.
Proof. solve_decision. Defined.

#[global] Instance PinBarMode_eq_dec : EqDecision PinBarMode.
Proof. solve_decision. Defined.

(** [n.type === 'INPUT' ||
     (n.type === 'PINBAR' && (n.pinBarMode || 'input') === 'input')] *)
Definition feedsModule (n : CircuitNode) : bool :=
  bool_decide (ntype n = INPUT)
  || (bool_decide (ntype n = PINBAR)
      && bool_decide (default ModeInput (pinBarMode n) = ModeInput)).

(** [n.type === 'OUTPUT' ||
     (n.type === 'PINBAR' && n.pinBarMode === 'output')] *)
Definition drainsModule (n : CircuitNode) : bool :=
  bool_decide (ntype n = OUTPUT)
  || (bool_decide (ntype n = PINBAR)
      && bool_decide (pinBarMode n = Some ModeOutput)).

(** [getIONodes]: the pair [(inputNodes, outputNodes)]. *)
Definition getIONodes (nodes : list CircuitNode)
  : list CircuitNode * list CircuitNode :=
  (filter (fun n => feedsModule n = true) nodes,
   filter (fun n => drainsModule n = true) nodes).

(** [calculateIOCounts]: the pair [(inputCount, outputCount)]. *)
Definition calculateIOCounts (inputNodes outputNodes : list CircuitNode)
  : nat * nat :=
  (foldl (fun a n =>
            match ntype n with
            | INPUT => a + 1
            | PINBAR => a + outputCount n
            | _ => a
            end) 0 inputNodes,
   foldl (fun a n =>
            match ntype n with
            | OUTPUT => a + 1
            | PINBAR => a + inputCount n
            | _ => a
            end) 0 outputNodes).

(** [createModule], over what its effects deliver: [uuid] is the result of
    [crypto.randomUUID()], [name] the value of [name?.trim()] ([None] for
    a dismissed prompt).  The result is the module handed to the
    [CREATE_MODULE] action, [None] when the function returns early. *)
Definition createModule (uuid : string) (name : option string)
    (nodes : list CircuitNode) (conns : list Connection)
  : option ModuleDefinition :=
  let io := getIONodes nodes in
  if bool_decide (length io.1 = 0) || bool_decide (length io.2 = 0)
  then None
  else match name with
       | None => None
       | Some s =>
           if bool_decide (s = EmptyString) then None
           else Some (mkModule uuid nodes conns (nid <$> io.1) (nid <$> io.2))
       end.

(** ** Node geometry *)

Definition NODE_WIDTH : nat := 120.
Definition PINBAR_THICKNESS : nat := 30.

(** [getNodeDimensions]: the pair [(width, height)].  [rotation] is the
    node's optional [rotation] field. *)
Definition getNodeDimensions (node : CircuitNode) (rotation : option Z)
  : nat * nat :=
  let quarter :=
    bool_decide (rotation = Some 90%Z) || bool_decide (rotation = Some 270%Z) in
  match ntype node with
  | PINBAR =>
      let count := Nat.max (Nat.max (inputCount node) (outputCount node)) 1 in
      let barLength := count * 28 + 12 in
      if quarter then (barLength, PINBAR_THICKNESS)
      else (PINBAR_THICKNESS, barLength)
  | INPUT | OUTPUT => (PINBAR_THICKNESS, 40)
  | _ =>
      let maxPins :=
        Nat.max (Nat.max (inputCount node) (outputCount node)) 1 in
      let h := Nat.max 60 (maxPins * 30 + 10) in
      if bool_decide (ntype node = MODULE) && quarter then (h, NODE_WIDTH)
      else (NODE_WIDTH, h)
  end.

Definition getNodeHeight (node : CircuitNode) (rotation : option Z) : nat :=
  (getNodeDimensions node rotation).2.

Definition getNodeWidth (node : CircuitNode) (rotation : option Z) : nat :=
  (getNodeDimensions node rotation).1.

(** ** The graph between nodes *)

(** A connection leads from node [u] to node [v]; connections with an
    endpoint outside the node list do not count. *)
Definition nodeEdge (nodes : list CircuitNode) (conns : list Connection)
    (u v : string) : Prop :=
  u ∈ nid <$> nodes /\ v ∈ nid <$> nodes /\ edge conns u v.

(** ** Invariant of the loop of [detectCycleConnections] *)

(** The number of connections that lead from a node into [v]. *)
Definition wiresInto (ids : list string) (conns : list Connection)
    (v : string) : nat :=
  length (filter (fun c => fromNodeId c ∈ ids /\ toNodeId c = v) conns).

(** Queue [q], processed [s], in-degree table [d]: the table holds the
    number of wires into a node less the number of its predecessors
    already processed, and whatever is processed or queued has all its
    predecessors processed. *)
Definition detectInv (ids : list string) (conns : list Connection)
    (preds : string -> list string)
    (q s : list string) (d : gmap string Z) : Prop :=
  NoDup (s ++ q)
  /\ (forall v, v ∈ s ++ q -> v ∈ ids)
  /\ (forall v, v ∈ ids ->
        d !! v = Some (Z.of_nat (wiresInto ids conns v)
                       - Z.of_nat (length (filter (fun u => u ∈ s) (preds v))))%Z)
  /\ (forall v, v ∈ s ++ q -> forall u, u ∈ preds v -> u ∈ s)
  /\ dependencyOrdered preds s.

(** No two connections between nodes share source and destination. *)
Definition noParallelWires (nodes : list CircuitNode)
    (conns : list Connection) : Prop :=
  NoDup ((fun c => (fromNodeId c, toNodeId c))
           <$> filter (fun c => fromNodeId c ∈ nid <$> nodes
                                /\ toNodeId c ∈ nid <$> nodes) conns).

(** A node on a closed path of connections between nodes, or downstream of
    one. *)
Definition inFeedback (nodes : list CircuitNode) (conns : list Connection)
    (v : string) : Prop :=
  exists x, tc (nodeEdge nodes conns) x x /\ rtc (nodeEdge nodes conns) x v.

(** ** Nodes the evaluator cannot tell apart *)

(** The same identifier, kind, pin counts, module and bar mode, the same
    held value once [?? false] is applied, and the same held vector on the
    output pins once [?? false] is applied. *)
Definition sameBehaviour (n n' : CircuitNode) : Prop :=
  nid n = nid n' /\ ntype n = ntype n'
  /\ inputCount n = inputCount n' /\ outputCount n = outputCount n'
  /\ moduleId n = moduleId n' /\ pinBarMode n = pinBarMode n'
  /\ default false (inputValue n) = default false (inputValue n')
  /\ (forall k, k < outputCount n ->
        default false (default [] (pinBarValues n) !! k)
        = default false (default [] (pinBarValues n') !! k)).

(** ** Pin names of a module *)

Section PinNames.

(** The fields [pinNames] and [label] of a node, which the node record
    above leaves out. *)
Variable pinNames : CircuitNode -> option (gmap string string).
Variable label : CircuitNode -> string.

(** [a || b] on strings: [undefined] and the empty string are falsy. *)
Definition orElse (a : option string) (b : string) : string :=
  match a with
  | Some s => if bool_decide (s = EmptyString) then b else s
  | None => b
  end.

(** [n.pinNames?.[`${side}-${i}`]] *)
Definition pinName (n : CircuitNode) (side : string) (i : nat)
  : option string :=
  names ← pinNames n; names !! (side +:+ "-" +:+ pretty i)%string.

Definition getInputPinNames (inputNodes : list CircuitNode) : list string :=
  foldl (fun names n =>
           match ntype n with
           | INPUT =>
               names ++ [orElse (pinName n "output" 0)
                           (orElse (Some (label n)) "Input")]
           | PINBAR =>
               names ++ ((fun i => orElse (pinName n "output" i)
                                     ("Bar " +:+ pretty i)%string)
                           <$> seq 0 (outputCount n))
           | _ => names
           end) [] inputNodes.

Definition getOutputPinNames (outputNodes : list CircuitNode)
  : list string :=
  foldl (fun names n =>
           match ntype n with
           | OUTPUT =>
               names ++ [orElse (pinName n "input" 0)
                           (orElse (Some (label n)) "Output")]
           | PINBAR =>
               names ++ ((fun i => orElse (pinName n "input" i)
                                     ("Bar " +:+ pretty i)%string)
                           <$> seq 0 (inputCount n))
           | _ => names
           end) [] outputNodes.

End PinNames.

(** ** Terminal lists of a module *)

(** The terminal lists name terminals of the definition: every entry of
    [inputNodeIds] is found among its nodes as an INPUT or input-mode
    PINBAR node, every entry of [outputNodeIds] as an OUTPUT or output-mode
    PINBAR node. *)
Definition listsTerminals (m : ModuleDefinition) : Prop :=
  (forall i, i ∈ inputNodeIds m ->
     exists t, find_node (mnodes m) i = Some t /\ isInputTerminal t = true)
  /\ (forall o, o ∈ outputNodeIds m ->
        exists t, find_node (mnodes m) o = Some t /\ isOutputTerminal t = true).

(** * Properties *)

Local Open Scope string_scope.
Local Open Scope nat_scope.
Local Open Scope list_scope.
Local Open Scope stdpp_scope.

(** * Loops *)

Lemma forOf_nil {A B} (body : A -> B -> option A) a : forOf body [] a = Some a.
Proof. reflexivity. Qed.

Lemma forOf_none {A B} (body : A -> B -> option A) l :
  foldl (fun acc x => a' ← acc; body a' x) None l = None.
Proof. induction l as [|x l IH]; simpl; auto. Qed.

Lemma forOf_cons {A B} (body : A -> B -> option A) x l a :
  forOf body (x :: l) a = body a x ≫= forOf body l.
Proof.
  unfold forOf; simpl.
  destruct (body a x) as [a'|]; simpl; auto using forOf_none.
Qed.

Lemma forOf_singleton {A B} (body : A -> B -> option A) x a :
  forOf body [x] a = body a x.
Proof. unfold forOf; simpl. by destruct (body a x). Qed.

Lemma forOf_app {A B} (body : A -> B -> option A) l1 l2 a :
  forOf body (l1 ++ l2) a = forOf body l1 a ≫= forOf body l2.
Proof.
  revert a; induction l1 as [|x l1 IH]; intros a; simpl; [done|].
  rewrite !forOf_cons. destruct (body a x) as [a'|]; simpl; auto.
Qed.

(** An invariant of the loop body is an invariant of the loop. *)
Lemma forOf_invariant {A B} (body : A -> B -> option A) (I : A -> Prop) l :
  (forall a x a', x ∈ l -> I a -> body a x = Some a' -> I a') ->
  forall a a', I a -> forOf body l a = Some a' -> I a'.
Proof.
  induction l as [|x l IH]; intros Hstep a a' Ha.
  - rewrite forOf_nil; congruence.
  - rewrite forOf_cons. destruct (body a x) as [a1|] eqn:E; simpl; [|done].
    apply IH; [|eapply Hstep; eauto; left].
    intros ? ? ? ?; apply Hstep; by right.
Qed.

(** A loop whose body always succeeds succeeds. *)
Lemma forOf_total {A B} (body : A -> B -> option A) l :
  (forall a x, x ∈ l -> is_Some (body a x)) ->
  forall a, is_Some (forOf body l a).
Proof.
  induction l as [|x l IH]; intros Hb a.
  - rewrite forOf_nil; eauto.
  - rewrite forOf_cons. destruct (Hb a x) as [a1 ->]; [left|]. simpl.
    apply IH. intros; apply Hb; by right.
Qed.

(** * Termination of the sequencer loop *)

Lemma relax_measure d q x :
  kahnMeasure (relax (d, q) x).2 (relax (d, q) x).1 ≤ kahnMeasure q d.
Proof.
  unfold relax, kahnMeasure, positives; simpl.
  destruct (d !! x) as [k|] eqn:Hk; simpl; [|lia].
  destruct (decide (k - 1 = 0)%Z) as [Hz|Hz].
  - rewrite bool_decide_eq_true_2 by done.
    rewrite map_filter_insert_False by (simpl; lia).
    rewrite length_app; simpl.
    assert (filter (fun kv : string * Z => (0 < kv.2)%Z) d !! x = Some k) as Hx.
    { apply map_lookup_filter_Some; split; [done|simpl; lia]. }
    assert (is_Some (filter (fun kv : string * Z => (0 < kv.2)%Z) d !! x)) as Hs
      by eauto.
    pose proof (map_size_delete_Some x _ Hs).
    pose proof (map_size_ne_0_lookup_2 _ _ Hs). rewrite map_filter_delete. lia.
  - rewrite bool_decide_eq_false_2 by done.
    destruct (decide (0 < k - 1)%Z) as [Hp|Hp].
    + rewrite map_filter_insert_True by done.
      rewrite map_size_insert_Some; [lia|].
      exists k. apply map_lookup_filter_Some; split; [done|simpl; lia].
    + rewrite map_filter_insert_False by done.
      rewrite map_filter_delete, delete_id; [lia|].
      apply map_lookup_filter_None; right. intros y Hy; simpl.
      rewrite Hk in Hy; injection Hy as <-. lia.
Qed.

Lemma relax_fold_measure l d q :
  kahnMeasure (foldl relax (d, q) l).2 (foldl relax (d, q) l).1
  ≤ kahnMeasure q d.
Proof.
  revert d q; induction l as [|x l IH]; intros d q; simpl; [done|].
  destruct (relax (d, q) x) as [d1 q1] eqn:E.
  etrans; [apply IH|]. pose proof (relax_measure d q x) as H.
  rewrite E in H. exact H.
Qed.

Lemma kahnLoop_total fuel outE q sorted d :
  kahnMeasure q d < fuel -> is_Some (kahnLoop fuel outE q sorted d).
Proof.
  revert q sorted d; induction fuel as [|fuel IH]; intros q sorted d Hm; [lia|].
  destruct q as [|i q]; simpl; [eauto|].
  apply IH.
  pose proof (relax_fold_measure (default [] (outE !! i)) d q) as H.
  unfold kahnMeasure in *; simpl in *. lia.
Qed.

Lemma initInDegree_size nodes inE :
  size (initInDegree nodes inE) ≤ length nodes.
Proof.
  unfold initInDegree.
  cut (forall d0 : gmap string Z,
          size (foldl (fun d n => <[nid n := match inE !! nid n with
                      | Some s => Z.of_nat (length s)
                      | None => 0%Z
                      end]> d) d0 nodes) ≤ size d0 + length nodes).
  { intros H. specialize (H ∅). rewrite map_size_empty in H. done. }
  induction nodes as [|n nodes IH]; intros d0; simpl; [lia|].
  etrans; [apply IH|].
  pose proof (map_size_insert (nid n) (match inE !! nid n with
                      | Some s => Z.of_nat (length s)
                      | None => 0%Z
                      end) d0) as H.
  destruct (d0 !! nid n); simpl in *; unfold id in *; lia.
Qed.

Lemma kahnSorted_total nodes conns : is_Some (kahnSorted nodes conns).
Proof.
  unfold kahnSorted. apply kahnLoop_total. unfold kahnMeasure, initQueue.
  rewrite length_fmap.
  set (d := initInDegree nodes (buildAdjacency nodes conns).2).
  pose proof (length_filter (fun n => d !! nid n = Some 0%Z) nodes).
  pose proof (map_subseteq_size _ _
                (map_filter_subseteq (fun kv : string * Z => (0 < kv.2)%Z) d)).
  pose proof (initInDegree_size nodes (buildAdjacency nodes conns).2).
  unfold positives. fold d in H1. lia.
Qed.

Lemma evaluationOrder_total nodes conns : is_Some (evaluationOrder nodes conns).
Proof.
  unfold evaluationOrder. destruct (kahnSorted_total nodes conns) as [s ->].
  simpl; eauto.
Qed.

(** * The residual loop *)

Lemma collectCycle_gen nodes : forall c s,
  exists extra,
    foldl collectStep (c, s) nodes = (c ++ extra, s ++ extra)
    /\ NoDup extra
    /\ forall x, x ∈ extra <-> x ∈ (nid <$> nodes) /\ x ∉ s.
Proof.
  induction nodes as [|n nodes IH]; intros c s; simpl.
  - exists []. rewrite !app_nil_r. split; [done|]. split; [constructor|].
    intros x. rewrite elem_of_nil. set_solver.
  - unfold collectStep at 2; simpl. case_bool_decide as Hn.
    + destruct (IH c s) as (extra & -> & Hnd & Hx). exists extra.
      split; [done|]. split; [done|]. intros x. rewrite Hx. set_solver.
    + destruct (IH (c ++ [nid n]) (s ++ [nid n])) as (extra & -> & Hnd & Hx).
      exists (nid n :: extra). rewrite <- !app_assoc. simpl.
      split; [done|]. split.
      * constructor; [|done]. rewrite Hx. set_solver.
      * intros x. rewrite elem_of_cons, Hx. 
        destruct (decide (x = nid n)) as [->|]; set_solver.
Qed.

Lemma collectCycle_spec nodes s :
  exists cyc,
    collectCycle nodes s = (cyc, s ++ cyc)
    /\ NoDup cyc
    /\ forall x, x ∈ cyc <-> x ∈ (nid <$> nodes) /\ x ∉ s.
Proof. apply (collectCycle_gen nodes [] s). Qed.

Lemma find_node_Some nodes i n :
  find_node nodes i = Some n -> n ∈ nodes /\ nid n = i.
Proof.
  unfold find_node. intros H. apply find_some in H as [H1 H2].
  apply bool_decide_eq_true in H2. by rewrite list_elem_of_In.
Qed.

Lemma find_node_is_Some nodes i :
  i ∈ (nid <$> nodes) -> is_Some (find_node nodes i).
Proof.
  intros (n & -> & Hn)%list_elem_of_fmap.
  destruct (find_node nodes (nid n)) eqn:E; [eauto|].
  unfold find_node in E. apply list_elem_of_In in Hn.
  pose proof (find_none _ _ E _ Hn) as H. simpl in H.
  by apply bool_decide_eq_false in H.
Qed.

Section Passes.
Variable rec : list CircuitNode -> list Connection -> option Outputs.
Variable nodes : list CircuitNode.
Variable conns : list Connection.
Variable modules : list ModuleDefinition.
Variable cyc : list string.

Lemma evaluateNode_inv frozen o i b o' :
  evaluateNode rec nodes conns modules cyc frozen o i b = Some o' ->
  (find_node nodes i = None /\ o' = o)
  \/ exists v, written rec nodes conns modules cyc i v
               /\ o' = <[i := v]> o.
Proof.
  unfold evaluateNode. destruct (find_node nodes i) as [n|] eqn:E.
  - destruct (gateOutput _ _ _ _) as [v|] eqn:G; simpl; [|done].
    intros [= <-]. right. exists v. split; [|done].
    by exists n, frozen, (if b then frozen else o).
  - intros [= <-]. by left.
Qed.

Lemma pass1Step_inv frozen o i o' :
  pass1Step rec nodes conns modules cyc frozen o i = Some o' ->
  o' = o
  \/ ((i ∉ cyc)
      /\ exists v, written rec nodes conns modules cyc i v
                   /\ o' = <[i := v]> o).
Proof.
  unfold pass1Step. case_bool_decide as Hc.
  - intros [= <-]. by left.
  - intros H. apply evaluateNode_inv in H as [[_ ->]|H]; [by left|]. by right.
Qed.

Lemma pass1_lookup frozen sorted : forall o o' i,
  pass1 rec nodes conns modules cyc frozen sorted o = Some o' ->
  o' !! i = o !! i
  \/ (i ∈ sorted /\ (i ∉ cyc)
      /\ exists v, written rec nodes conns modules cyc i v
                   /\ o' !! i = Some v).
Proof.
  unfold pass1. induction sorted as [|x l IH] using rev_ind; intros o o' i.
  - rewrite forOf_nil. intros [= <-]. by left.
  - rewrite forOf_app.
    destruct (forOf _ l o) as [o1|] eqn:E1; simpl; [|done].
    rewrite forOf_cons.
    destruct (pass1Step _ _ _ _ _ _ o1 x) as [o2|] eqn:E2; simpl; [|done].
    rewrite forOf_nil. intros [= <-].
    apply pass1Step_inv in E2 as [->|(Hx & v & Hv & ->)].
    + destruct (IH _ _ i E1) as [?|(? & ? & ?)]; [by left|right].
      split; [set_solver|done].
    + destruct (decide (x = i)) as [->|Hne].
      * right. split; [set_solver|]. split; [done|].
        exists v. by rewrite lookup_insert_eq.
      * rewrite lookup_insert_ne by done.
        destruct (IH _ _ i E1) as [?|(? & ? & ?)]; [by left|right].
        split; [set_solver|done].
Qed.

Lemma pass1_written frozen sorted : forall o o' i,
  pass1 rec nodes conns modules cyc frozen sorted o = Some o' ->
  i ∈ sorted -> i ∉ cyc -> is_Some (find_node nodes i) ->
  exists v, written rec nodes conns modules cyc i v /\ o' !! i = Some v.
Proof.
  unfold pass1. induction sorted as [|x l IH] using rev_ind;
    intros o o' i Hp Hi Hc Hn.
  - by apply elem_of_nil in Hi.
  - rewrite forOf_app in Hp.
    destruct (forOf _ l o) as [o1|] eqn:E1; simpl in Hp; [|done].
    rewrite forOf_cons in Hp.
    destruct (pass1Step _ _ _ _ _ _ o1 x) as [o2|] eqn:E2; simpl in Hp; [|done].
    rewrite forOf_nil in Hp. injection Hp as <-.
    destruct (decide (x = i)) as [->|Hne].
    + unfold pass1Step in E2. rewrite bool_decide_eq_false_2 in E2 by done.
      apply evaluateNode_inv in E2 as [[E _]|(v & Hv & ->)].
      * rewrite E in Hn. by destruct Hn.
      * exists v. by rewrite lookup_insert_eq.
    + assert (i ∈ l) as Hl by set_solver.
      destruct (IH _ _ i E1 Hl Hc Hn) as (v & Hv & Hlk).
      apply pass1Step_inv in E2 as [->|(Hx & v' & Hv' & ->)]; [eauto|].
      exists v. by rewrite lookup_insert_ne.
Qed.

Lemma pass2_lookup frozen order : forall o o' i,
  pass2 rec nodes conns modules cyc frozen order o = Some o' ->
  (i ∉ order -> o' !! i = o !! i)
  /\ (i ∈ order -> is_Some (find_node nodes i) ->
      exists v, written rec nodes conns modules cyc i v /\ o' !! i = Some v).
Proof.
  unfold pass2. induction order as [|x l IH] using rev_ind; intros o o' i Hp.
  - rewrite forOf_nil in Hp. injection Hp as <-.
    split; [done|]. by intros ?%elem_of_nil.
  - rewrite forOf_app in Hp.
    destruct (forOf _ l o) as [o1|] eqn:E1; simpl in Hp; [|done].
    rewrite forOf_cons in Hp.
    destruct (evaluateNode _ _ _ _ _ _ o1 x true) as [o2|] eqn:E2;
      simpl in Hp; [|done].
    rewrite forOf_nil in Hp. injection Hp as <-.
    destruct (IH _ _ i E1) as [IH1 IH2].
    apply evaluateNode_inv in E2 as [[E ->]|(v & Hv & ->)].
    + split; [intros; apply IH1; set_solver|].
      intros Hi Hn. apply IH2; [|done].
      apply elem_of_app in Hi as [?|Hi]; [done|].
      apply list_elem_of_singleton in Hi as ->. rewrite E in Hn. by destruct Hn.
    + destruct (decide (x = i)) as [->|Hne].
      * split; [set_solver|]. intros _ _. exists v. by rewrite lookup_insert_eq.
      * rewrite lookup_insert_ne by done. split; [intros; apply IH1; set_solver|].
        intros Hi Hn. apply IH2; [set_solver|done].
Qed.

End Passes.

(** Every node of the circuit receives what its [switch] yields. *)
Lemma evaluateCircuitBody_lookup rec nodes conns modules prev r i n :
  evaluateCircuitBody rec nodes conns modules prev = Some r ->
  find_node nodes i = Some n ->
  exists cyc frozen src v,
    gateOutput rec modules n (inputValues conns cyc frozen src n) = Some v
    /\ r !! i = Some v.
Proof.
  unfold evaluateCircuitBody, evaluationOrder. intros Hb Hn.
  destruct (kahnSorted nodes conns) as [s0|]; simpl in Hb; [|done].
  destruct (collectCycle_spec nodes s0) as (cyc & Hc & Hnd & Hcyc).
  rewrite Hc in Hb. unfold evaluatePhases in Hb. simpl in Hb.
  destruct (pass1 _ _ _ _ _ _ _ _) as [o1|] eqn:E1; simpl in Hb; [|done].
  assert (i ∈ (nid <$> nodes)) as Hi.
  { apply find_node_Some in Hn as [Hn <-]. by apply list_elem_of_fmap_2. }
  assert (forall v, written rec nodes conns modules cyc i v ->
            exists cyc frozen src v0,
              gateOutput rec modules n (inputValues conns cyc frozen src n) = Some v0
              /\ Some v = Some v0) as Hw.
  { intros v (n' & fr & src & Hn' & Hg). rewrite Hn in Hn'. injection Hn' as <-.
    by exists cyc, fr, src, v. }
  destruct (pass2_lookup _ _ _ _ _ _ _ _ _ i Hb) as [H2a H2b].
  destruct (decide (i ∈ cyc)) as [Hic|Hic].
  - destruct H2b as (v & Hv & ->); [done|by rewrite Hn|]. by apply Hw.
  - rewrite H2a by done.
    destruct (pass1_written _ _ _ _ _ _ _ _ _ i E1) as (v & Hv & ->);
      [|done|by rewrite Hn|by apply Hw].
    apply elem_of_app. left.
    destruct (decide (i ∈ s0)); [done|]. exfalso. apply Hic, Hcyc. done.
Qed.

(** The evaluator succeeds as soon as the recursive calls it makes do. *)
Lemma gateOutput_total rec modules n iv :
  (forall m, ntype n = MODULE -> find_module modules (moduleId n) = Some m ->
     is_Some (rec (internalNodes m (moduleInputValues m iv)) (mconnections m))) ->
  is_Some (gateOutput rec modules n iv).
Proof.
  intros Hrec. unfold gateOutput.
  destruct (ntype n) eqn:Ht; eauto.
  - destruct (find_module modules (moduleId n)) as [m|] eqn:Hm; eauto.
    destruct (Hrec m eq_refl eq_refl) as [r ->]. simpl. eauto.
  - destruct (default ModeInput (pinBarMode n)); eauto.
Qed.

Lemma evaluateCircuitBody_total rec nodes conns modules prev :
  (forall n m iv, n ∈ nodes -> ntype n = MODULE ->
     find_module modules (moduleId n) = Some m ->
     is_Some (rec (internalNodes m (moduleInputValues m iv)) (mconnections m))) ->
  is_Some (evaluateCircuitBody rec nodes conns modules prev).
Proof.
  intros Hrec. unfold evaluateCircuitBody.
  destruct (evaluationOrder_total nodes conns) as [ord ->]. simpl.
  unfold evaluatePhases.
  assert (forall fr o i b,
            is_Some (evaluateNode rec nodes conns modules ord.1 fr o i b)) as He.
  { intros fr o i b. unfold evaluateNode.
    destruct (find_node nodes i) as [n|] eqn:E; [|eauto].
    apply find_node_Some in E as [Hn _].
    destruct (gateOutput_total rec modules n
                (inputValues conns ord.1 fr (if b then fr else o) n)) as [v ->];
      [intros m ? ?; by apply (Hrec n)|]. simpl; eauto. }
  destruct (forOf_total (pass1Step rec nodes conns modules ord.1
                           (seedOutputs prev ord.1)) ord.2) with
    (a := seedOutputs prev ord.1) as [o1 E1].
  { intros a x _. unfold pass1Step. case_bool_decide; eauto. }
  unfold pass1. rewrite E1. simpl.
  apply forOf_total. intros; apply He.
Qed.

Lemma evaluateCircuit_body fuel nodes conns modules prev r :
  evaluateCircuit fuel nodes conns modules prev = Some r ->
  exists rec, evaluateCircuitBody rec nodes conns modules prev = Some r.
Proof. destruct fuel as [|fuel]; simpl; [done|]. eauto. Qed.

Lemma evaluateCircuit_lookup fuel nodes conns modules prev r i n :
  evaluateCircuit fuel nodes conns modules prev = Some r ->
  find_node nodes i = Some n ->
  exists rec cyc frozen src v,
    gateOutput rec modules n (inputValues conns cyc frozen src n) = Some v
    /\ r !! i = Some v.
Proof.
  intros [rec Hb]%evaluateCircuit_body Hn. exists rec.
  eapply evaluateCircuitBody_lookup; eauto.
Qed.

(** * Reading a pin *)

Lemma find_conn_first conns nodeId i l1 c l2 :
  conns = l1 ++ c :: l2 ->
  toNodeId c = nodeId -> toPinIndex c = i ->
  (forall c', c' ∈ l1 -> ~ (toNodeId c' = nodeId /\ toPinIndex c' = i)) ->
  find_conn conns nodeId i = Some c.
Proof.
  intros -> Hn Hp. unfold find_conn.
  induction l1 as [|c' l1 IH]; intros Hl1; simpl.
  - by rewrite !bool_decide_eq_true_2.
  - destruct (bool_decide (toNodeId c' = nodeId)
              && bool_decide (toPinIndex c' = i)) eqn:E.
    + apply andb_true_iff in E as [E1%bool_decide_eq_true E2%bool_decide_eq_true].
      destruct (Hl1 c'); [left|done].
    + apply IH. intros c'' Hc''. apply Hl1. by right.
Qed.

Lemma find_conn_None conns nodeId i :
  (forall c, c ∈ conns -> toNodeId c <> nodeId) ->
  find_conn conns nodeId i = None.
Proof.
  intros H. unfold find_conn. induction conns as [|c conns IH]; simpl; [done|].
  rewrite (bool_decide_eq_false_2 (toNodeId c = nodeId)) by (apply H; left).
  simpl. apply IH. intros; apply H; by right.
Qed.

Lemma inputValues_lookup conns cyc frozen src n i :
  i < inputCount n ->
  inputValues conns cyc frozen src n !! i
  = Some (pinValue conns cyc frozen src (nid n) i).
Proof.
  intros Hi. unfold inputValues. rewrite list_lookup_fmap.
  rewrite lookup_seq_lt by done. done.
Qed.

Lemma inputValues_length conns cyc frozen src n :
  length (inputValues conns cyc frozen src n) = inputCount n.
Proof. unfold inputValues. by rewrite length_fmap, length_seq. Qed.

Lemma inputValues_unconnected conns cyc frozen src n i :
  find_conn conns (nid n) i = None ->
  default false (inputValues conns cyc frozen src n !! i) = false.
Proof.
  intros H. destruct (decide (i < inputCount n)) as [Hi|Hi].
  - rewrite inputValues_lookup by done. unfold pinValue. by rewrite H.
  - rewrite lookup_ge_None_2; [done|]. rewrite inputValues_length. lia.
Qed.

(** C10: when several connections target one input pin, the value read
    for the pin is the one delivered by the earliest of them in the
    connection list. *)
Theorem first_connection_wins conns cyc frozen src n i l1 c l2 :
  i < inputCount n ->
  conns = l1 ++ c :: l2 ->
  toNodeId c = nid n -> toPinIndex c = i ->
  (forall c', c' ∈ l1 -> ~ (toNodeId c' = nid n /\ toPinIndex c' = i)) ->
  inputValues conns cyc frozen src n !! i
  = Some (readPin (if bool_decide (fromNodeId c ∈ cyc) then frozen else src)
            (fromNodeId c) (fromPinIndex c)).
Proof.
  intros Hi Hc Hn Hp Hl1. rewrite inputValues_lookup by done.
  unfold pinValue. by rewrite (find_conn_first conns (nid n) i l1 c l2).
Qed.

Lemma first_connection_wins_witness :
  let c1 := mkConn "w1" "a" 0 "g" 0 in
  let c2 := mkConn "w2" "b" 0 "g" 0 in
  let n := mkNode "g" OUTPUT 1 0 None None None None in
  let src : Outputs := <["a" := [true]]> (<["b" := [false]]> ∅) in
  inputValues [c1; c2] [] ∅ src n !! 0
  = Some (readPin (if bool_decide (fromNodeId c1 ∈ @nil string) then ∅ else src)
            (fromNodeId c1) (fromPinIndex c1)).
Proof.
  intros c1 c2 n src.
  apply (first_connection_wins [c1; c2] [] ∅ src n 0 [] c1 [c2]).
  - simpl. lia.
  - reflexivity.
  - reflexivity.
  - reflexivity.
  - intros c' H. by apply elem_of_nil in H.
Defined.

(** * Gates without enough wiring *)

Lemma connectedPins_two conns n :
  length (connectedPins conns n) < 2 -> 2 ≤ inputCount n ->
  find_conn conns (nid n) 0 = None \/ find_conn conns (nid n) 1 = None.
Proof.
  unfold connectedPins. intros Hl Hc.
  destruct (inputCount n) as [|[|k]]; [lia|lia|]. simpl in Hl.
  rewrite !filter_cons in Hl.
  destruct (find_conn conns (nid n) 0) as [c0|]; [|by left].
  destruct (find_conn conns (nid n) 1) as [c1|]; [|by right].
  destruct (decide (is_Some (Some c0))) as [|[]]; [|eauto].
  destruct (decide (is_Some (Some c1))) as [|[]]; [|eauto].
  simpl in Hl. lia.
Qed.

Lemma connectedPins_none conns n i :
  connectedPins conns n = [] -> i < inputCount n ->
  find_conn conns (nid n) i = None.
Proof.
  unfold connectedPins. intros Hl Hi.
  destruct (find_conn conns (nid n) i) as [c|] eqn:E; [|done].
  assert (i ∈ filter (fun p => is_Some (find_conn conns (nid n) p))
                (seq 0 (inputCount n))) as Hin.
  { apply list_elem_of_filter. split; [by rewrite E|].
    apply elem_of_seq. lia. }
  rewrite Hl in Hin. by apply elem_of_nil in Hin.
Qed.

Lemma and_underwired rec modules conns cyc frozen src n :
  ntype n = AND -> length (connectedPins conns n) < 2 ->
  gateOutput rec modules n (inputValues conns cyc frozen src n) = Some [false].
Proof.
  intros Ht Hl. unfold gateOutput. rewrite Ht, inputValues_length.
  case_bool_decide as Hc; [|done]. simpl.
  destruct (connectedPins_two conns n Hl Hc) as [H|H];
    rewrite (inputValues_unconnected _ _ _ _ _ _ H); [done|].
  by rewrite andb_false_r.
Qed.

Lemma or_unwired rec modules conns cyc frozen src n :
  ntype n = OR -> connectedPins conns n = [] ->
  gateOutput rec modules n (inputValues conns cyc frozen src n) = Some [false].
Proof.
  intros Ht Hl. unfold gateOutput. rewrite Ht, inputValues_length.
  case_bool_decide as Hc; [|done]. simpl.
  rewrite !inputValues_unconnected; [done| |];
    apply connectedPins_none; auto; lia.
Qed.

Lemma gate_arity rec modules n iv :
  ntype n = AND \/ ntype n = OR -> length iv < 2 ->
  gateOutput rec modules n iv = Some [false].
Proof.
  intros Ht Hl. unfold gateOutput.
  destruct Ht as [-> | ->]; by rewrite bool_decide_eq_false_2 by lia.
Qed.

(** C4, as amended: an AND node with fewer than two of its input pins
    connected, an OR node with none of its input pins connected, and an
    AND or OR node that declares fewer than two input pins, is assigned the
    output [false], whatever the connected pins carry. *)
Theorem underwired_gate_false fuel nodes conns modules prev r i n :
  evaluateCircuit fuel nodes conns modules prev = Some r ->
  find_node nodes i = Some n ->
  (ntype n = AND /\ length (connectedPins conns n) < 2)
  \/ (ntype n = OR /\ connectedPins conns n = [])
  \/ ((ntype n = AND \/ ntype n = OR) /\ inputCount n < 2) ->
  r !! i = Some [false].
Proof.
  intros He Hn Hcase.
  destruct (evaluateCircuit_lookup _ _ _ _ _ _ _ _ He Hn)
    as (rec & cyc & fr & src & v & Hg & ->).
  destruct Hcase as [[Ht Hl]|[[Ht Hl]|[Ht Hl]]].
  - rewrite and_underwired in Hg by done. congruence.
  - rewrite or_unwired in Hg by done. congruence.
  - rewrite gate_arity in Hg by (by rewrite ?inputValues_length). congruence.
Qed.

Lemma underwired_gate_false_witness :
  exists r,
    evaluateCircuit 1
      [mkNode "a" INPUT 0 1 (Some true) None None None;
       mkNode "g" AND 2 1 None None None None]
      [mkConn "w" "a" 0 "g" 0] [] None = Some r
    /\ r !! "g" = Some [false].
Proof.
  eexists. split; [reflexivity|].
  apply (underwired_gate_false 1
           [mkNode "a" INPUT 0 1 (Some true) None None None;
            mkNode "g" AND 2 1 None None None None]
           [mkConn "w" "a" 0 "g" 0] [] None _ "g"
           (mkNode "g" AND 2 1 None None None None));
    [reflexivity|reflexivity|].
  left. split; [reflexivity|]. vm_compute. lia.
Defined.

(** C4 as stated fails: an OR node with one connected pin that carries
    [true] is assigned [true]. *)
Lemma or_one_pin_true :
  let nodes := [mkNode "a" INPUT 0 1 (Some true) None None None;
                mkNode "g" OR 2 1 None None None None] in
  let conns := [mkConn "w" "a" 0 "g" 0] in
  find_node nodes "g" = Some (mkNode "g" OR 2 1 None None None None)
  /\ length (connectedPins conns (mkNode "g" OR 2 1 None None None None)) < 2
  /\ (evaluateCircuit 1 nodes conns [] None ≫= (.!! "g")) = Some [true].
Proof. vm_compute. split; [done|]. split; [lia|done]. Qed.

(** * Gates without wiring *)

Lemma unwired_pin conns cyc frozen src n k :
  (forall c, c ∈ conns -> toNodeId c <> nid n) ->
  default false (inputValues conns cyc frozen src n !! k) = false.
Proof. intros H. by apply inputValues_unconnected, find_conn_None. Qed.

(** C5, as amended: a node with no incoming connection is assigned [false]
    when it is an AND, OR, OUTPUT or LED node, and [true] when it is a NOT
    node. *)
Theorem unwired_gate_default fuel nodes conns modules prev r i n :
  evaluateCircuit fuel nodes conns modules prev = Some r ->
  find_node nodes i = Some n ->
  (forall c, c ∈ conns -> toNodeId c <> i) ->
  (ntype n ∈ [AND; OR; OUTPUT; LED] -> r !! i = Some [false])
  /\ (ntype n = NOT -> r !! i = Some [true]).
Proof.
  intros He Hn Hc.
  destruct (evaluateCircuit_lookup _ _ _ _ _ _ _ _ He Hn)
    as (rec & cyc & fr & src & v & Hg & ->).
  apply find_node_Some in Hn as [_ <-].
  unfold gateOutput in Hg.
  split; intros Ht.
  - repeat (apply elem_of_cons in Ht as [Ht|Ht]); [| | | |by apply elem_of_nil in Ht];
      rewrite Ht in Hg; rewrite ?unwired_pin in Hg by done;
      rewrite ?andb_false_r in Hg; simpl in Hg; congruence.
  - rewrite Ht, unwired_pin in Hg by done. simpl in Hg. congruence.
Qed.

Lemma unwired_gate_default_witness :
  exists r,
    evaluateCircuit 1
      [mkNode "g" AND 2 1 None None None None;
       mkNode "n" NOT 1 1 None None None None] [] [] None = Some r
    /\ r !! "g" = Some [false] /\ r !! "n" = Some [true].
Proof.
  eexists. split; [reflexivity|]. split.
  - apply (unwired_gate_default 1
             [mkNode "g" AND 2 1 None None None None;
              mkNode "n" NOT 1 1 None None None None] [] [] None _ "g"
             (mkNode "g" AND 2 1 None None None None));
      [reflexivity|reflexivity| |simpl; left].
    intros c Hc. by apply elem_of_nil in Hc.
  - apply (unwired_gate_default 1
             [mkNode "g" AND 2 1 None None None None;
              mkNode "n" NOT 1 1 None None None None] [] [] None _ "n"
             (mkNode "n" NOT 1 1 None None None None));
      [reflexivity|reflexivity| |reflexivity].
    intros c Hc. by apply elem_of_nil in Hc.
Defined.

(** C5 as stated fails: a NOT node without connections is assigned
    [true]. *)
Lemma not_alone_true :
  let nodes := [mkNode "n" NOT 1 1 None None None None] in
  find_node nodes "n" = Some (mkNode "n" NOT 1 1 None None None None)
  /\ (evaluateCircuit 1 nodes [] [] None ≫= (.!! "n")) = Some [true].
Proof. vm_compute. done. Qed.

(** * Order of the cycle pass *)

Section CyclePass.
Variable rec : list CircuitNode -> list Connection -> option Outputs.
Variable nodes : list CircuitNode.
Variable conns : list Connection.
Variable modules : list ModuleDefinition.
Variable cyc : list string.

Lemma evaluateNode_cycle frozen o i :
  evaluateNode rec nodes conns modules cyc frozen o i true
  = match find_node nodes i with
    | None => Some o
    | Some n =>
        v ← frozenValue rec modules conns cyc frozen n; Some (<[i := v]> o)
    end.
Proof. reflexivity. Qed.

Lemma evaluateNode_cycle_swap frozen o i j :
  evaluateNode rec nodes conns modules cyc frozen o i true
    ≫= (fun o' => evaluateNode rec nodes conns modules cyc frozen o' j true)
  = evaluateNode rec nodes conns modules cyc frozen o j true
    ≫= (fun o' => evaluateNode rec nodes conns modules cyc frozen o' i true).
Proof.
  destruct (decide (i = j)) as [->|Hne]; [done|].
  unfold evaluateNode.
  destruct (find_node nodes i) as [n|], (find_node nodes j) as [n'|];
    simpl; try done.
  - destruct (gateOutput rec modules n
                (inputValues conns cyc frozen frozen n)) as [v|],
      (gateOutput rec modules n'
         (inputValues conns cyc frozen frozen n')) as [v'|];
      simpl; try done.
    by rewrite insert_insert_ne.
  - by destruct (gateOutput rec modules n
                   (inputValues conns cyc frozen frozen n)).
  - by destruct (gateOutput rec modules n'
                   (inputValues conns cyc frozen frozen n')).
Qed.

Lemma pass2_Permutation frozen order1 order2 :
  order1 ≡ₚ order2 ->
  forall o, pass2 rec nodes conns modules cyc frozen order1 o
            = pass2 rec nodes conns modules cyc frozen order2 o.
Proof.
  unfold pass2. induction 1 as [|x l1 l2 _ IH|x y l|l1 l2 l3 _ IH1 _ IH2];
    intros o.
  - done.
  - rewrite !forOf_cons. destruct (evaluateNode _ _ _ _ _ _ o x true); simpl; auto.
  - rewrite !forOf_cons.
    pose proof (evaluateNode_cycle_swap frozen o y x) as Hs.
    destruct (evaluateNode _ _ _ _ _ _ o y true) as [o1|],
      (evaluateNode _ _ _ _ _ _ o x true) as [o2|]; simpl in *;
      rewrite ?forOf_cons.
    + by rewrite Hs.
    + by rewrite Hs.
    + by rewrite <- Hs.
    + done.
  - by rewrite IH1, IH2.
Qed.
End CyclePass.

(** C2: in pass 2 a node's output is computed from the frozen snapshot and
    the node's own data only, not from the outputs written so far; hence
    running pass 2 over any rearrangement of the cycle nodes gives the same
    result map, which for the cycle list of the circuit is the result of the
    evaluator. *)
Theorem cycle_pass_order_independent rec nodes conns modules prev
    cyc sorted order :
  order ≡ₚ cyc ->
  (forall frozen o i,
      evaluateNode rec nodes conns modules cyc frozen o i true
      = match find_node nodes i with
        | None => Some o
        | Some n =>
            v ← frozenValue rec modules conns cyc frozen n;
            Some (<[i := v]> o)
        end)
  /\ evaluatePhases rec nodes conns modules prev cyc sorted order
     = evaluatePhases rec nodes conns modules prev cyc sorted cyc
  /\ (evaluationOrder nodes conns = Some (cyc, sorted) ->
      evaluatePhases rec nodes conns modules prev cyc sorted order
      = evaluateCircuitBody rec nodes conns modules prev).
Proof.
  intros Hp. split; [intros; apply evaluateNode_cycle|].
  assert (evaluatePhases rec nodes conns modules prev cyc sorted order
          = evaluatePhases rec nodes conns modules prev cyc sorted cyc) as He.
  { unfold evaluatePhases.
    destruct (pass1 _ _ _ _ _ _ _ _) as [o1|]; simpl; [|done].
    by apply pass2_Permutation. }
  split; [exact He|].
  intros Hord. unfold evaluateCircuitBody. rewrite Hord. simpl. exact He.
Qed.

Lemma cycle_pass_order_independent_witness :
  let nodes := [mkNode "a" NOT 1 1 None None None None;
                mkNode "b" NOT 1 1 None None None None] in
  let conns := [mkConn "w1" "a" 0 "b" 0; mkConn "w2" "b" 0 "a" 0] in
  let rec := fun _ _ => @None Outputs in
  evaluationOrder nodes conns = Some (["a"; "b"], ["a"; "b"])
  /\ evaluatePhases rec nodes conns [] None ["a"; "b"] ["a"; "b"] ["b"; "a"]
     = evaluateCircuitBody rec nodes conns [] None.
Proof.
  intros nodes conns rec. split; [reflexivity|].
  apply (cycle_pass_order_independent rec nodes conns [] None
           ["a"; "b"] ["a"; "b"] ["b"; "a"]); [apply perm_swap|reflexivity].
Defined.

(** * A ranking excludes closed paths *)

Lemma tc_rank conns (rank : string -> nat) :
  (forall u v, edge conns u v -> rank u < rank v) ->
  forall x y, tc (edge conns) x y -> rank x < rank y.
Proof.
  intros Hr x y H. induction H as [x y H|x y z H _ IH].
  - by apply Hr.
  - specialize (Hr _ _ H). lia.
Qed.

Lemma ranked_acyclic conns (rank : string -> nat) :
  (forall u v, edge conns u v -> rank u < rank v) -> acyclic conns.
Proof. intros Hr x Hx. apply (tc_rank conns rank Hr) in Hx. lia. Qed.

(** C8, the code at the failing input: one source wired to both pins of an
    AND gate that feeds an OUTPUT.  The circuit has no closed path and the
    sequencer of [evaluateCircuit] finds no cycle node, yet
    [detectCycleConnections] reports the wire from the gate to the
    terminal. *)
Theorem detectCycleConnections_parallel_wires :
  let nodes := [mkNode "a" INPUT 0 1 (Some true) None None None;
                mkNode "g" AND 2 1 None None None None;
                mkNode "o" OUTPUT 1 0 None None None None] in
  let conns := [mkConn "c1" "a" 0 "g" 0; mkConn "c2" "a" 0 "g" 1;
                mkConn "c3" "g" 0 "o" 0] in
  acyclic conns
  /\ evaluationOrder nodes conns = Some ([], ["a"; "g"; "o"])
  /\ detectCycleConnections nodes conns = Some ["c3"].
Proof.
  intros nodes conns. split; [|split; vm_compute; reflexivity].
  apply (ranked_acyclic conns
           (fun s => if bool_decide (s = "a") then 0
                     else if bool_decide (s = "g") then 1 else 2)).
  intros u v (c & Hc & <- & <-).
  repeat (apply elem_of_cons in Hc as [->|Hc]); [| | |by apply elem_of_nil in Hc];
    vm_compute; lia.
Qed.

(** * The NOT gate wired to itself *)

Section NotLoop.
Variable n : CircuitNode.
Variable w : string.
Hypothesis Htype : ntype n = NOT.
Hypothesis Hpins : 1 ≤ inputCount n.

Let nodes := [n].
Let conns := [mkConn w (nid n) 0 (nid n) 0].

Lemma not_loop_order :
  evaluationOrder nodes conns = Some ([nid n], [nid n]).
Proof.
  unfold evaluationOrder, kahnSorted, buildAdjacency, nodes, conns. simpl.
  unfold addEdge, initEdges. simpl. rewrite !lookup_insert_eq. simpl.
  unfold initInDegree. simpl. rewrite lookup_insert_eq.
  unfold initQueue. rewrite filter_cons. simpl.
  rewrite lookup_insert_eq. unfold set_add. simpl.
  unfold collectCycle, collectStep. simpl.
  done.
Qed.

Lemma not_loop_pass1 rec modules frozen o :
  pass1 rec nodes conns modules [nid n] frozen [nid n] o = Some o.
Proof.
  unfold pass1. rewrite forOf_singleton.
  unfold pass1Step. by rewrite bool_decide_eq_true_2 by (left).
Qed.

Lemma not_loop_refresh o frozen :
  refresh [nid n] [nid n] o frozen = frozen.
Proof. unfold refresh. simpl. by rewrite bool_decide_eq_true_2 by (left). Qed.

Lemma not_loop_pass2 rec modules frozen o :
  pass2 rec nodes conns modules [nid n] frozen [nid n] o
  = Some (<[nid n := [negb (readPin frozen (nid n) 0)]]> o).
Proof.
  unfold pass2. rewrite forOf_singleton.
  unfold evaluateNode, nodes, find_node. simpl.
  rewrite bool_decide_eq_true_2 by done.
  unfold gateOutput, inputValues. rewrite Htype.
  destruct (inputCount n) as [|k]; [lia|]. simpl.
  unfold pinValue, conns, find_conn. simpl.
  rewrite !bool_decide_eq_true_2 by done. simpl.
  by rewrite bool_decide_eq_true_2 by (left).
Qed.

Lemma not_loop_phases rec modules prev :
  evaluatePhases rec nodes conns modules prev [nid n] [nid n] [nid n]
  = Some {[nid n :=
             [negb (readPin (seedOutputs prev [nid n]) (nid n) 0)]]}.
Proof.
  unfold evaluatePhases. rewrite not_loop_pass1. cbn [mbind option_bind].
  rewrite not_loop_refresh, not_loop_pass2.
  f_equal. apply map_eq. intros k.
  destruct (decide (k = nid n)) as [->|Hk].
  - by rewrite lookup_insert_eq, lookup_singleton_eq.
  - rewrite lookup_insert_ne, lookup_singleton_ne by done.
    destruct prev as [p|]; simpl; [|done].
    destruct (p !! nid n); [|done]. by rewrite lookup_insert_ne.
Qed.

Lemma not_loop_call fuel modules prev :
  evaluateCircuit (S fuel) nodes conns modules prev
  = Some {[nid n :=
             [negb (readPin (seedOutputs prev [nid n]) (nid n) 0)]]}.
Proof.
  simpl. unfold evaluateCircuitBody. rewrite not_loop_order. simpl.
  apply not_loop_phases.
Qed.

Lemma not_loop_repeat fuel modules k :
  evaluateRepeatedly (S fuel) nodes conns modules k
  = Some {[nid n := [Nat.even k]]}.
Proof.
  induction k as [|k IH].
  - unfold evaluateRepeatedly. rewrite not_loop_call. done.
  - change (evaluateRepeatedly (S fuel) nodes conns modules (S k))
      with (evaluateRepeatedly (S fuel) nodes conns modules k
              ≫= fun r => evaluateCircuit (S fuel) nodes conns modules (Some r)).
    rewrite IH. cbn [mbind option_bind].
    rewrite not_loop_call. do 3 f_equal.
    unfold seedOutputs. simpl. rewrite lookup_singleton_eq.
    unfold readPin. rewrite lookup_insert_eq. simpl.
    rewrite Nat.negb_even. symmetry. apply Nat.even_succ.
Qed.
End NotLoop.

(** C1: for a single NOT node whose output pin 0 is wired to its own input
    pin 0, the node is the cycle set, every call returns, and the [k]-th
    of successive calls, each fed the result of the one before, returns
    [true] for even [k] (the first call included) and [false] for odd
    [k]. *)
Theorem not_self_loop_oscillates (n : CircuitNode) (w : string) fuel modules :
  ntype n = NOT -> 1 ≤ inputCount n ->
  let nodes := [n] in
  let conns := [mkConn w (nid n) 0 (nid n) 0] in
  evaluationOrder nodes conns = Some ([nid n], [nid n])
  /\ evaluateCircuit (S fuel) nodes conns modules None
     = Some {[nid n := [true]]}
  /\ forall k, evaluateRepeatedly (S fuel) nodes conns modules k
               = Some {[nid n := [Nat.even k]]}.
Proof.
  intros Ht Hp nodes conns. split; [by apply not_loop_order|].
  split; [|intros k; by apply not_loop_repeat].
  unfold nodes, conns. rewrite not_loop_call by done. done.
Qed.

Lemma not_self_loop_oscillates_witness :
  let n := mkNode "a" NOT 1 1 None None None None in
  evaluationOrder [n] [mkConn "w" "a" 0 "a" 0] = Some (["a"], ["a"])
  /\ evaluateCircuit 1 [n] [mkConn "w" "a" 0 "a" 0] [] None
     = Some {["a" := [true]]}
  /\ forall k, evaluateRepeatedly 1 [n] [mkConn "w" "a" 0 "a" 0] [] k
               = Some {["a" := [Nat.even k]]}.
Proof.
  intros n.
  apply (not_self_loop_oscillates n "w" 0 []); [reflexivity|simpl; lia].
Defined.

(** * The forward adjacency of [wouldCreateCycle] *)

Lemma addAdj_fold conns : forall adj u,
  default [] (foldl addAdj adj conns !! u)
  = default [] (adj !! u)
    ++ (toNodeId <$> filter (fun c => fromNodeId c = u) conns).
Proof.
  induction conns as [|c conns IH]; intros adj u; simpl.
  - by rewrite app_nil_r.
  - rewrite IH. unfold addAdj at 1. rewrite filter_cons.
    destruct (decide (fromNodeId c = u)) as [<-|Hne].
    + rewrite lookup_insert_eq. simpl. by rewrite <- app_assoc.
    + by rewrite lookup_insert_ne.
Qed.

Lemma adj_successors conns u :
  default [] (foldl addAdj ∅ conns !! u)
  = toNodeId <$> filter (fun c => fromNodeId c = u) conns.
Proof. rewrite addAdj_fold. by rewrite lookup_empty. Qed.

Lemma elem_of_successors conns u v :
  v ∈ default [] (foldl addAdj ∅ conns !! u) <-> edge conns u v.
Proof.
  rewrite adj_successors, list_elem_of_fmap. unfold edge. split.
  - intros (c & -> & Hc). apply list_elem_of_filter in Hc as [? ?]. eauto.
  - intros (c & Hc & Hu & Hv). exists c. split; [done|].
    apply list_elem_of_filter. done.
Qed.

(** * The breadth-first loop *)

Section Bfs.
Variable conns : list Connection.
Variable fromId toId : string.

Let adj := foldl addAdj ∅ conns.

(** The budget the loop still needs. *)
Let need (q : list string) (visited : gset string) : nat :=
  length q + length (filter (fun c => fromNodeId c ∉ visited) conns).

Lemma need_visit (l : list Connection) u (visited : gset string) :
  u ∉ visited ->
  length (filter (fun c => fromNodeId c ∉ {[u]} ∪ visited) l)
  + length (filter (fun c => fromNodeId c = u) l)
  = length (filter (fun c => fromNodeId c ∉ visited) l).
Proof.
  intros Hu. induction l as [|c l IH]; [done|].
  rewrite !filter_cons.
  destruct (decide (fromNodeId c = u)) as [->|Hne].
  - rewrite decide_False by set_solver. rewrite decide_True by done.
    simpl. lia.
  - destruct (decide (fromNodeId c ∈ visited)) as [Hv|Hv].
    + rewrite decide_False by set_solver. rewrite decide_False by set_solver.
      done.
    + rewrite decide_True by set_solver. rewrite decide_True by set_solver.
      simpl. lia.
Qed.

Lemma bfsLoop_total fuel : forall q visited,
  need q visited < fuel -> is_Some (bfsLoop fuel adj fromId q visited).
Proof.
  induction fuel as [|fuel IH]; intros q visited Hn; [lia|].
  destruct q as [|current q]; simpl; [eauto|].
  case_bool_decide; [eauto|].
  case_bool_decide as Hv.
  - apply IH. unfold need in *. simpl in Hn. lia.
  - apply IH. unfold need in *. simpl in Hn.
    rewrite length_app. unfold adj. rewrite adj_successors, length_fmap.
    pose proof (need_visit conns current visited Hv). lia.
Qed.

(** A set closed under the connections holds whatever its members
    reach. *)
Lemma closed_reachable (visited : gset string) :
  (forall x y, x ∈ visited -> edge conns x y -> y ∈ visited) ->
  forall x y, reachable conns x y -> x ∈ visited -> y ∈ visited.
Proof.
  intros Hclosed x y Hr. induction Hr as [|x y z Hxy _ IH]; [done|].
  intros Hx. apply IH. by apply (Hclosed x).
Qed.

Lemma bfs_exhausted (visited : gset string) :
  fromId ∉ visited ->
  (forall x y, x ∈ visited -> edge conns x y -> y ∈ visited \/ y ∈ @nil string) ->
  toId ∈ visited \/ toId ∈ @nil string ->
  ~ reachable conns toId fromId.
Proof.
  intros Hf Hclosed Hto Hr. apply Hf.
  apply (closed_reachable visited) with (x := toId); [|done|].
  - intros x y Hx Hxy. destruct (Hclosed x y Hx Hxy) as [?|He]; [done|].
    by apply elem_of_nil in He.
  - destruct Hto as [?|He]; [done|]. by apply elem_of_nil in He.
Qed.

(** The loop answers [true] exactly when [fromId] can be reached. *)
Lemma bfsLoop_correct fuel : forall q visited b,
  (forall x, x ∈ q -> reachable conns toId x) ->
  fromId ∉ visited ->
  (forall x y, x ∈ visited -> edge conns x y -> y ∈ visited \/ y ∈ q) ->
  toId ∈ visited \/ toId ∈ q ->
  bfsLoop fuel adj fromId q visited = Some b ->
  b = true <-> reachable conns toId fromId.
Proof.
  induction fuel as [|fuel IH]; intros q visited b Hq Hf Hclosed Hto.
  - destruct q; simpl; [|done]. intros [= <-].
    split; [done|]. intros Hr. by destruct (bfs_exhausted visited).
  - destruct q as [|current q]; simpl.
    + intros [= <-]. split; [done|]. intros Hr.
      by destruct (bfs_exhausted visited).
    + case_bool_decide as Hc.
      * intros [= <-]. split; [|done]. intros _. subst current.
        apply Hq. left.
      * case_bool_decide as Hv.
        -- apply IH; [| done | |].
           ++ intros x Hx. apply Hq. by right.
           ++ intros x y Hx Hxy.
              destruct (Hclosed x y Hx Hxy) as [?|He]; [by left|].
              apply elem_of_cons in He as [->|?]; [by left|by right].
           ++ destruct Hto as [?|He]; [by left|].
              apply elem_of_cons in He as [->|?]; [by left|by right].
        -- apply IH.
           ++ intros x Hx. apply elem_of_app in Hx as [Hx|Hx].
              ** apply Hq. by right.
              ** apply elem_of_successors in Hx.
                 eapply rtc_r; [|exact Hx]. apply Hq. left.
           ++ set_solver.
           ++ intros x y Hx Hxy.
              apply elem_of_union in Hx as [Hx|Hx].
              ** apply elem_of_singleton in Hx as ->. right.
                 apply elem_of_app. right. by apply elem_of_successors.
              ** destruct (Hclosed x y Hx Hxy) as [?|He]; [left; set_solver|].
                 apply elem_of_cons in He as [->|?]; [left; set_solver|].
                 right. apply elem_of_app. by left.
           ++ destruct Hto as [?|He]; [left; set_solver|].
              apply elem_of_cons in He as [->|?]; [left; set_solver|].
              right. apply elem_of_app. by left.
Qed.
End Bfs.

Lemma wouldCreateCycle_spec conns fromId toId :
  exists b, wouldCreateCycle conns fromId toId = Some b
            /\ (b = true <-> fromId = toId \/ reachable conns toId fromId).
Proof.
  unfold wouldCreateCycle. case_bool_decide as He.
  - exists true. split; [done|]. split; [by left|done].
  - destruct (bfsLoop_total conns fromId (S (S (length conns))) [toId] ∅)
      as [b Hb].
    { simpl. unfold lt. do 2 apply le_n_S. apply length_filter. }
    exists b. split; [done|].
    assert (b = true <-> reachable conns toId fromId) as Hc.
    { apply (bfsLoop_correct conns fromId toId (S (S (length conns)))
               [toId] ∅ b).
      - intros x Hx. apply list_elem_of_singleton in Hx as ->. apply rtc_refl.
      - apply not_elem_of_empty.
      - intros x y Hx. by apply not_elem_of_empty in Hx.
      - right. left.
      - exact Hb. }
    rewrite Hc. split; [by right|]. intros [?|?]; done.
Qed.

(** C7: [wouldCreateCycle] returns, and it returns [true] exactly when the
    two identifiers coincide or [fromNodeId] can be reached from [toNodeId]
    along the existing connections; so it returns [false] for every
    candidate wire whose addition leaves the connections free of closed
    paths. *)
Theorem wouldCreateCycle_reachability conns fromId toId :
  exists b,
    wouldCreateCycle conns fromId toId = Some b
    /\ (b = true <-> fromId = toId \/ reachable conns toId fromId)
    /\ (forall c, fromNodeId c = fromId -> toNodeId c = toId ->
                  acyclic (c :: conns) -> b = false).
Proof.
  destruct (wouldCreateCycle_spec conns fromId toId) as (b & Hb & Hiff).
  exists b. split; [done|]. split; [done|].
  intros c Hf Ht Hac. destruct b; [|done]. exfalso.
  assert (edge (c :: conns) fromId toId) as Hnew.
  { exists c. split; [left|done]. }
  destruct (proj1 Hiff eq_refl) as [->|Hr].
  - apply (Hac toId). by apply tc_once.
  - apply (Hac fromId). eapply tc_rtc_r; [by apply tc_once|].
    eapply rtc_subrel; [|exact Hr].
    intros x y (c' & Hc' & ? & ?). exists c'. split; [by right|done].
Qed.

(** * Lists *)

Lemma filter_ext_elem {A} (P1 P2 : A -> Prop)
    `{!forall x, Decision (P1 x), !forall x, Decision (P2 x)} (l : list A) :
  (forall x, x ∈ l -> P1 x <-> P2 x) -> filter P1 l = filter P2 l.
Proof.
  induction l as [|a l IH]; intros Hext; [done|].
  rewrite !filter_cons.
  rewrite IH by (intros; apply Hext; by right).
  assert (P1 a <-> P2 a) as Ha by (apply Hext; left).
  destruct (decide (P1 a)) as [H1|H1], (decide (P2 a)) as [H2|H2];
    tauto || done.
Qed.

Lemma filter_none {A} (P : A -> Prop) `{!forall x, Decision (P x)}
    (l : list A) :
  (forall x, x ∈ l -> ~ P x) -> filter P l = [].
Proof.
  induction l as [|a l IH]; intros Hl; [done|].
  rewrite filter_cons_False by (apply Hl; left).
  apply IH. intros; apply Hl; by right.
Qed.

Lemma NoDup_fmap_filter {A B} (f : A -> B) (P : A -> Prop)
    `{!forall x, Decision (P x)} (l : list A) :
  NoDup (f <$> l) -> NoDup (f <$> filter P l).
Proof.
  intros Hnd. eapply sublist_NoDup; [exact Hnd|].
  apply fmap_sublist, sublist_filter.
Qed.

Lemma set_add_elem x y s : y ∈ set_add x s <-> y = x \/ y ∈ s.
Proof.
  unfold set_add. case_bool_decide as H.
  - split; [by right|]. intros [->|?]; done.
  - rewrite elem_of_app, list_elem_of_singleton. tauto.
Qed.

Lemma set_add_NoDup x s : NoDup s -> NoDup (set_add x s).
Proof.
  unfold set_add. case_bool_decide as H; [done|]. intros Hs.
  apply NoDup_app. split; [done|]. split; [|apply NoDup_singleton].
  intros y Hy ->%list_elem_of_singleton. done.
Qed.

(** Removing one more element from the candidates. *)
Lemma filter_out_one (s l : list string) u :
  NoDup l -> u ∈ l -> u ∉ s ->
  S (length (filter (fun w => w ∉ s ++ [u]) l))
  = length (filter (fun w => w ∉ s) l).
Proof.
  intros Hl Hu Hs. induction l as [|a l IH]; [by apply elem_of_nil in Hu|].
  apply NoDup_cons in Hl as [Ha Hl]. rewrite !filter_cons.
  apply elem_of_cons in Hu as [<- |Hu].
  - rewrite decide_False by (rewrite elem_of_app; set_solver).
    rewrite decide_True by done. simpl. f_equal. f_equal.
    apply filter_ext_elem. intros x Hx. rewrite elem_of_app.
    rewrite list_elem_of_singleton. split; [tauto|].
    intros ? [?| ->]; done.
  - assert (a <> u) as Hne by (intros ->; done).
    destruct (decide (a ∈ s)) as [Has|Has].
    + rewrite decide_False by (rewrite elem_of_app; tauto).
      rewrite decide_False by tauto. by apply IH.
    + rewrite decide_True
        by (rewrite elem_of_app, list_elem_of_singleton; tauto).
      rewrite decide_True by done. simpl. f_equal. by apply IH.
Qed.

Lemma filter_out_absent (s l : list string) u :
  u ∉ l ->
  filter (fun w => w ∉ s ++ [u]) l = filter (fun w => w ∉ s) l.
Proof.
  intros Hu. apply filter_ext_elem. intros x Hx.
  rewrite elem_of_app, list_elem_of_singleton. split; [tauto|].
  intros ? [?| ->]; done.
Qed.

(** * The adjacency maps *)

Section Adjacency.
Variable nodes : list CircuitNode.

Let ids := nid <$> nodes.

Lemma initEdges_fold (ns : list CircuitNode) : forall (m : Adjacency) u,
  foldl (fun m n => <[nid n := []]> m) m ns !! u
  = if decide (u ∈ nid <$> ns) then Some [] else m !! u.
Proof.
  induction ns as [|n ns IH]; intros m u; [done|].
  cbn [foldl fmap list_fmap].
  - rewrite IH. destruct (decide (u ∈ nid <$> ns)) as [Hu|Hu].
    + rewrite decide_True by (by right). done.
    + destruct (decide (u = nid n)) as [->|Hne].
      * rewrite decide_True by left. by rewrite lookup_insert_eq.
      * rewrite decide_False by (rewrite elem_of_cons; tauto).
        by rewrite lookup_insert_ne.
Qed.

Lemma initEdges_lookup u :
  initEdges nodes !! u = if decide (u ∈ ids) then Some [] else None.
Proof. unfold initEdges. rewrite initEdges_fold. by rewrite lookup_empty. Qed.

Lemma edge_snoc cs c u v :
  edge (cs ++ [c]) u v <-> edge cs u v \/ (fromNodeId c = u /\ toNodeId c = v).
Proof.
  unfold edge. split.
  - intros (c' & Hc' & Hu & Hv). apply elem_of_app in Hc' as [?|Hc'].
    + left. eauto.
    + apply list_elem_of_singleton in Hc' as ->. by right.
  - intros [(c' & Hc' & Hu & Hv)|[Hu Hv]].
    + exists c'. rewrite elem_of_app. eauto.
    + exists c. rewrite elem_of_app, list_elem_of_singleton. eauto.
Qed.

Lemma addEdge_adjacencyOf cs st c :
  adjacencyOf ids cs st -> adjacencyOf ids (cs ++ [c]) (addEdge st c).
Proof.
  intros (Hout & Ho & Hi). unfold addEdge.
  destruct (decide (fromNodeId c ∈ ids)) as [Hf|Hf];
    [destruct (decide (toNodeId c ∈ ids)) as [Ht|Ht]|].
  - destruct (Ho _ Hf) as (lo & Elo & Ndo & Hlo).
    destruct (Hi _ Ht) as (li & Eli & Ndi & Hli).
    rewrite Elo, Eli. split; [|split]; simpl.
    + intros u Hu. rewrite !lookup_insert_ne by (intros <-; done).
      by apply Hout.
    + intros u Hu. destruct (decide (u = fromNodeId c)) as [->|Hne].
      * rewrite lookup_insert_eq. eexists. split; [done|].
        split; [by apply set_add_NoDup|]. intros v.
        rewrite set_add_elem, Hlo, edge_snoc. split.
        -- intros [->|[? ?]]; [split; [done|by right]|split; [done|by left]].
        -- intros [Hv [He|[_ <-]]]; [right|left]; done.
      * rewrite lookup_insert_ne by done.
        destruct (Ho _ Hu) as (l & El & Nd & Hl). exists l.
        split; [done|]. split; [done|]. intros v. rewrite Hl, edge_snoc.
        split; [intros [? ?]; split; [done|by left]|].
        intros [Hv [He|[E _]]]; [done|]. by destruct Hne.
    + intros v Hv. destruct (decide (v = toNodeId c)) as [->|Hne].
      * rewrite lookup_insert_eq. eexists. split; [done|].
        split; [by apply set_add_NoDup|]. intros u.
        rewrite set_add_elem, Hli, edge_snoc. split.
        -- intros [->|[? ?]]; [split; [done|by right]|split; [done|by left]].
        -- intros [Hu [He|[<- _]]]; [right|left]; done.
      * rewrite lookup_insert_ne by done.
        destruct (Hi _ Hv) as (l & El & Nd & Hl). exists l.
        split; [done|]. split; [done|]. intros u. rewrite Hl, edge_snoc.
        split; [intros [? ?]; split; [done|by left]|].
        intros [Hu [He|[_ E]]]; [done|]. by destruct Hne.
  - destruct (Hout _ Ht) as [_ E]. rewrite E.
    assert (adjacencyOf ids (cs ++ [c]) st) as H; [|by destruct (st.1 !! _)].
    split; [done|]. split.
    + intros u Hu. destruct (Ho _ Hu) as (l & El & Nd & Hl). exists l.
      split; [done|]. split; [done|]. intros v. rewrite Hl, edge_snoc.
      split; [intros [? ?]; split; [done|by left]|].
      intros [Hv [He|[_ <-]]]; done.
    + intros v Hv. destruct (Hi _ Hv) as (l & El & Nd & Hl). exists l.
      split; [done|]. split; [done|]. intros u. rewrite Hl, edge_snoc.
      split; [intros [? ?]; split; [done|by left]|].
      intros [Hu [He|[_ <-]]]; done.
  - destruct (Hout _ Hf) as [E _]. rewrite E.
    split; [done|]. split.
    + intros u Hu. destruct (Ho _ Hu) as (l & El & Nd & Hl). exists l.
      split; [done|]. split; [done|]. intros v. rewrite Hl, edge_snoc.
      split; [intros [? ?]; split; [done|by left]|].
      intros [Hv [He|[<- _]]]; done.
    + intros v Hv. destruct (Hi _ Hv) as (l & El & Nd & Hl). exists l.
      split; [done|]. split; [done|]. intros u. rewrite Hl, edge_snoc.
      split; [intros [? ?]; split; [done|by left]|].
      intros [Hu [He|[<- _]]]; done.
Qed.

Lemma buildAdjacency_adjacencyOf conns :
  adjacencyOf ids conns (buildAdjacency nodes conns).
Proof.
  unfold buildAdjacency.
  induction conns as [|c cs IH] using rev_ind.
  - simpl. split; [|split]; simpl.
    + intros u Hu. rewrite initEdges_lookup, decide_False by done. done.
    + intros u Hu. rewrite initEdges_lookup, decide_True by done.
      exists []. split; [done|]. split; [constructor|].
      intros v. split; [by intros ?%elem_of_nil|].
      intros [_ (c & Hc & _)]. by apply elem_of_nil in Hc.
    + intros u Hu. rewrite initEdges_lookup, decide_True by done.
      exists []. split; [done|]. split; [constructor|].
      intros v. split; [by intros ?%elem_of_nil|].
      intros [_ (c & Hc & _)]. by apply elem_of_nil in Hc.
  - rewrite foldl_app. simpl. by apply addEdge_adjacencyOf.
Qed.

Lemma initInDegree_fold (inE : Adjacency) (ns : list CircuitNode) :
  forall (d : gmap string Z) v,
    foldl (fun d n =>
             <[nid n := match inE !! nid n with
                        | Some s => Z.of_nat (length s)
                        | None => 0%Z
                        end]> d) d ns !! v
    = if decide (v ∈ nid <$> ns)
      then Some (Z.of_nat (length (default [] (inE !! v))))
      else d !! v.
Proof.
  induction ns as [|n ns IH]; intros d v; [done|].
  cbn [foldl fmap list_fmap].
  - rewrite IH. destruct (decide (v ∈ nid <$> ns)) as [Hv|Hv].
    + rewrite decide_True by (by right). done.
    + destruct (decide (v = nid n)) as [->|Hne].
      * rewrite decide_True by left. rewrite lookup_insert_eq.
        by destruct (inE !! nid n).
      * rewrite decide_False by (rewrite elem_of_cons; tauto).
        by rewrite lookup_insert_ne.
Qed.

Lemma initInDegree_lookup (inE : Adjacency) v :
  initInDegree nodes inE !! v
  = if decide (v ∈ ids)
    then Some (Z.of_nat (length (default [] (inE !! v))))
    else None.
Proof.
  unfold initInDegree. rewrite initInDegree_fold. by rewrite lookup_empty.
Qed.
End Adjacency.

(** * The inner loop of the sequencer *)

Lemma relax_fold outs : NoDup outs -> forall d q,
  (forall v, v ∈ outs -> is_Some (d !! v)) ->
  (forall v, (foldl relax (d, q) outs).1 !! v
             = if decide (v ∈ outs) then (fun k => (k - 1)%Z) <$> d !! v
               else d !! v)
  /\ (foldl relax (d, q) outs).2
     = q ++ filter (fun v => d !! v = Some 1%Z) outs.
Proof.
  induction 1 as [|x outs Hx Hnd IH]; intros d q Hd.
  - simpl. split; [done|]. by rewrite app_nil_r.
  - destruct (Hd x) as [k Hk]; [left|].
    assert (relax (d, q) x
            = (<[x:=(k - 1)%Z]> d,
               if bool_decide ((k - 1)%Z = 0%Z) then q ++ [x] else q)) as Hr
      by (unfold relax; simpl; by rewrite Hk).
    cbn [foldl]. rewrite Hr.
    match goal with |- context [foldl relax (?d1, ?q1) outs] =>
      destruct (IH d1 q1) as [IH1 IH2] end.
    { intros v Hv. rewrite lookup_insert_ne by (intros ->; done).
      apply Hd. by right. }
    split.
    + intros v. rewrite IH1. destruct (decide (v = x)) as [->|Hne].
      * rewrite decide_False by done. rewrite decide_True by left.
        by rewrite lookup_insert_eq, Hk.
      * rewrite lookup_insert_ne by done.
        destruct (decide (v ∈ outs)) as [Hv|Hv].
        -- rewrite decide_True by (by right). done.
        -- rewrite decide_False by (rewrite elem_of_cons; tauto). done.
    + rewrite IH2. rewrite filter_cons.
      rewrite (filter_ext_elem (fun v => <[x:=(k - 1)%Z]> d !! v = Some 1%Z)
                 (fun v => d !! v = Some 1%Z)).
      2:{ intros v Hv. rewrite lookup_insert_ne by (intros ->; done). done. }
      rewrite Hk. destruct (decide (Some k = Some 1%Z)) as [[= ->]|Hk1].
      * rewrite bool_decide_eq_true_2 by done. by rewrite <- app_assoc.
      * rewrite bool_decide_eq_false_2; [done|].
        intros Hz. apply Hk1. f_equal. lia.
Qed.

(** * The sequencer loop *)

Section Kahn.
Variable ids : list string.
Variable conns : list Connection.
Variable outE inE : Adjacency.
Hypothesis Hadj : adjacencyOf ids conns (outE, inE).

Let preds (v : string) : list string := default [] (inE !! v).
Let succs (u : string) : list string := default [] (outE !! u).

Lemma succs_spec u :
  NoDup (succs u)
  /\ forall v, v ∈ succs u <-> u ∈ ids /\ v ∈ ids /\ edge conns u v.
Proof.
  destruct Hadj as (Hout & Ho & _). unfold succs. simpl in *.
  destruct (decide (u ∈ ids)) as [Hu|Hu].
  - destruct (Ho u Hu) as (l & -> & Hnd & Hl). simpl.
    split; [done|]. intros v. rewrite Hl. tauto.
  - destruct (Hout u Hu) as [-> _]. simpl. split; [constructor|].
    intros v. split; [by intros ?%elem_of_nil|tauto].
Qed.

Lemma preds_spec v :
  NoDup (preds v)
  /\ forall u, u ∈ preds v <-> u ∈ ids /\ v ∈ ids /\ edge conns u v.
Proof.
  destruct Hadj as (Hout & _ & Hi). unfold preds. simpl in *.
  destruct (decide (v ∈ ids)) as [Hv|Hv].
  - destruct (Hi v Hv) as (l & -> & Hnd & Hl). simpl.
    split; [done|]. intros u. rewrite Hl. tauto.
  - destruct (Hout v Hv) as [_ ->]. simpl. split; [constructor|].
    intros u. split; [by intros ?%elem_of_nil|tauto].
Qed.

Lemma succs_preds u v : v ∈ succs u <-> u ∈ preds v.
Proof.
  rewrite (proj2 (succs_spec u)), (proj2 (preds_spec v)). tauto.
Qed.

Lemma kahnInv_step u q s d :
  kahnInv ids preds (u :: q) s d ->
  kahnInv ids preds (foldl relax (d, q) (succs u)).2 (s ++ [u])
    (foldl relax (d, q) (succs u)).1.
Proof.
  intros (I1 & I2 & I3 & I4 & I5).
  destruct (succs_spec u) as [Hnd Hsu].
  assert (u ∈ ids) as Hu by (apply I2; rewrite elem_of_app; right; left).
  assert (u ∉ s) as Hus.
  { apply NoDup_app in I1 as (_ & I1 & _). intros Hin.
    apply (I1 u Hin). left. }
  assert (forall v, v ∈ s ++ u :: q -> d !! v = Some 0%Z) as Hzero.
  { intros v Hv. rewrite I3 by (by apply I2).
    rewrite filter_none; [done|].
    intros w Hw Hn. apply Hn. by apply (I4 v). }
  destruct (relax_fold (succs u) Hnd d q) as [Hd Hq].
  { intros v Hv. apply Hsu in Hv as (_ & Hv & _). rewrite I3 by done. eauto. }
  rewrite Hq. split; [|split; [|split; [|split]]].
  - (* no duplicates *)
    replace ((s ++ [u]) ++ q ++ filter (fun v => d !! v = Some 1%Z) (succs u))
      with ((s ++ u :: q) ++ filter (fun v => d !! v = Some 1%Z) (succs u))
      by (by rewrite <- !app_assoc).
    apply NoDup_app. split; [done|]. split; [|by apply NoDup_filter].
    intros v Hv Hf. apply list_elem_of_filter in Hf as [Hf _].
    rewrite (Hzero v Hv) in Hf. done.
  - (* members are nodes *)
    intros v Hv. rewrite !elem_of_app in Hv.
    destruct Hv as [[Hv|Hv]|[Hv|Hv]].
    + apply I2. rewrite elem_of_app. by left.
    + apply list_elem_of_singleton in Hv as ->. done.
    + apply I2. rewrite elem_of_app. right. by right.
    + apply list_elem_of_filter in Hv as [_ Hv]. by apply Hsu in Hv as (_ & ? & _).
  - (* the table counts the remaining predecessors *)
    intros v Hv. rewrite Hd. destruct (preds_spec v) as [Hpn _].
    destruct (decide (v ∈ succs u)) as [Hvs|Hvs].
    + rewrite I3 by done. simpl. f_equal.
      pose proof (filter_out_one s (preds v) u Hpn
                    (proj1 (succs_preds u v) Hvs) Hus). lia.
    + rewrite I3 by done.
      rewrite filter_out_absent; [done|].
      intros Hp. apply Hvs. by apply succs_preds.
  - (* output and queued nodes have their predecessors output *)
    intros v Hv w Hw. rewrite !elem_of_app in Hv. rewrite elem_of_app.
    assert (v ∈ s ++ u :: q -> w ∈ s) as Hold by (intros; by apply (I4 v)).
    destruct Hv as [[Hv|Hv]|[Hv|Hv]].
    + left. apply Hold. rewrite elem_of_app. by left.
    + apply list_elem_of_singleton in Hv as ->. left. apply Hold.
      rewrite elem_of_app. right. left.
    + left. apply Hold. rewrite elem_of_app. right. by right.
    + apply list_elem_of_filter in Hv as [Hv1 Hvs].
      assert (v ∈ ids) as Hvi by (by apply Hsu in Hvs as (_ & ? & _)).
      rewrite I3 in Hv1 by done. injection Hv1 as Hv1.
      destruct (decide (w ∈ s)) as [?|Hws]; [by left|right].
      apply list_elem_of_singleton.
      assert (w ∈ filter (fun x => x ∉ s) (preds v)) as Hwf
        by (by apply list_elem_of_filter).
      assert (u ∈ filter (fun x => x ∉ s) (preds v)) as Huf.
      { apply list_elem_of_filter. split; [done|]. by apply succs_preds. }
      destruct (filter (fun x => x ∉ s) (preds v)) as [|a [|b l]];
        simpl in Hv1; try lia.
      apply list_elem_of_singleton in Hwf, Huf. congruence.
  - (* the output respects the dependencies *)
    intros j v Hj w Hw. apply lookup_snoc_Some in Hj as [[Hlt Hj]|[-> <-]].
    + destruct (I5 j v Hj w Hw) as (i & Hi & Hsi). exists i.
      split; [done|]. by apply lookup_app_l_Some.
    + assert (w ∈ s) as Hws.
      { apply (I4 u); [|done]. rewrite elem_of_app. right. left. }
      apply list_elem_of_lookup in Hws as [i Hi]. exists i.
      split; [by eapply lookup_lt_Some|]. by apply lookup_app_l_Some.
Qed.

Lemma kahnLoop_sorted fuel : forall q s d res,
  kahnInv ids preds q s d ->
  kahnLoop fuel outE q s d = Some res ->
  NoDup res /\ (forall v, v ∈ res -> v ∈ ids) /\ dependencyOrdered preds res.
Proof.
  induction fuel as [|fuel IH]; intros q s d res Hinv.
  - destruct q; simpl; [|done]. intros [= <-].
    destruct Hinv as (I1 & I2 & _ & _ & I5). rewrite app_nil_r in *. done.
  - destruct q as [|u q]; simpl.
    + intros [= <-].
      destruct Hinv as (I1 & I2 & _ & _ & I5). rewrite app_nil_r in *. done.
    + apply IH. by apply kahnInv_step.
Qed.
End Kahn.

Lemma filter_all {A} (P : A -> Prop) `{!forall x, Decision (P x)}
    (l : list A) :
  (forall x, x ∈ l -> P x) -> filter P l = l.
Proof.
  induction l as [|a l IH]; intros Hl; [done|].
  rewrite filter_cons_True by (apply Hl; left).
  f_equal. apply IH. intros; apply Hl; by right.
Qed.

Section Sequencer.
Variable nodes : list CircuitNode.
Variable conns : list Connection.
Hypothesis Hids : NoDup (nid <$> nodes).

Let ids := nid <$> nodes.
Let adj := buildAdjacency nodes conns.
Let preds (v : string) : list string := default [] (adj.2 !! v).
Let d0 := initInDegree nodes adj.2.

Lemma kahnInv_init : kahnInv ids preds (initQueue nodes d0) [] d0.
Proof.
  split; [|split; [|split; [|split]]]; simpl.
  - unfold initQueue. by apply NoDup_fmap_filter.
  - intros v Hv. unfold initQueue in Hv.
    apply list_elem_of_fmap in Hv as (n & -> & Hn).
    apply list_elem_of_filter in Hn as [_ Hn]. by apply list_elem_of_fmap_2.
  - intros v Hv. unfold d0. rewrite initInDegree_lookup.
    rewrite decide_True by done. rewrite filter_all; [done|].
    intros x _. apply not_elem_of_nil.
  - intros v Hv u Hu. exfalso. unfold initQueue in Hv.
    apply list_elem_of_fmap in Hv as (n & -> & Hn).
    apply list_elem_of_filter in Hn as [Hz Hn].
    unfold d0 in Hz. rewrite initInDegree_lookup in Hz.
    rewrite decide_True in Hz by (by apply list_elem_of_fmap_2).
    injection Hz as Hz. unfold preds in Hu.
    destruct (default [] (adj.2 !! nid n)); [by apply elem_of_nil in Hu|].
    simpl in Hz. lia.
  - intros j v Hj. done.
Qed.

Lemma kahnSorted_sorted s0 :
  kahnSorted nodes conns = Some s0 ->
  NoDup s0 /\ (forall v, v ∈ s0 -> v ∈ ids) /\ dependencyOrdered preds s0.
Proof.
  unfold kahnSorted. intros Hk.
  eapply (kahnLoop_sorted ids conns adj.1 adj.2); [|apply kahnInv_init|exact Hk].
  pose proof (buildAdjacency_adjacencyOf nodes conns) as Ha.
  by destruct (buildAdjacency nodes conns).
Qed.

Lemma preds_edge c :
  c ∈ conns -> fromNodeId c ∈ ids -> toNodeId c ∈ ids ->
  fromNodeId c ∈ preds (toNodeId c).
Proof.
  intros Hc Hf Ht.
  pose proof (buildAdjacency_adjacencyOf nodes conns) as Ha.
  apply (preds_spec ids conns adj.1 adj.2);
    [by destruct (buildAdjacency nodes conns)|].
  split; [done|]. split; [done|]. by exists c.
Qed.
End Sequencer.

(** C6: when the node identifiers are pairwise distinct, the evaluation
    sequence is a rearrangement of the node identifiers, so it holds each of
    them exactly once, and a node outside the cycle set comes after every
    predecessor of it that is outside the cycle set. *)
Theorem evaluationOrder_contract nodes conns :
  NoDup (nid <$> nodes) ->
  exists cyc sorted,
    evaluationOrder nodes conns = Some (cyc, sorted)
    /\ sorted ≡ₚ nid <$> nodes
    /\ forall c, c ∈ conns ->
         fromNodeId c ∈ nid <$> nodes -> toNodeId c ∈ nid <$> nodes ->
         fromNodeId c ∉ cyc -> toNodeId c ∉ cyc ->
         exists i j, i < j /\ sorted !! i = Some (fromNodeId c)
                     /\ sorted !! j = Some (toNodeId c).
Proof.
  intros Hids. unfold evaluationOrder.
  destruct (kahnSorted_total nodes conns) as [s0 Hs0]. rewrite Hs0. simpl.
  destruct (collectCycle_spec nodes s0) as (cyc & Hc & Hnd & Hcyc).
  destruct (kahnSorted_sorted nodes conns Hids s0 Hs0) as (Hs & Hsub & Hord).
  exists cyc, (s0 ++ cyc). split; [by rewrite Hc|]. split.
  - apply NoDup_Permutation; [|done|].
    + apply NoDup_app. split; [done|]. split; [|done].
      intros x Hx Hxc. by apply Hcyc in Hxc as [_ ?].
    + intros x. rewrite elem_of_app, Hcyc. split.
      * intros [?|[? _]]; [by apply Hsub|done].
      * intros Hx. destruct (decide (x ∈ s0)); [by left|by right].
  - intros c Hcc Hf Ht Hfc Htc.
    assert (toNodeId c ∈ s0) as Hts.
    { destruct (decide (toNodeId c ∈ s0)) as [?|Hn]; [done|].
      exfalso. apply Htc, Hcyc. done. }
    apply list_elem_of_lookup in Hts as [j Hj].
    destruct (Hord j _ Hj (fromNodeId c)) as (i & Hi & Hsi).
    { by apply preds_edge. }
    exists i, j. split; [done|]. split; by apply lookup_app_l_Some.
Qed.

Lemma evaluationOrder_contract_witness :
  let nodes := [mkNode "o" OUTPUT 1 0 None None None None;
                mkNode "g" NOT 1 1 None None None None;
                mkNode "a" INPUT 0 1 (Some true) None None None] in
  let conns := [mkConn "w2" "g" 0 "o" 0; mkConn "w1" "a" 0 "g" 0] in
  NoDup (nid <$> nodes)
  /\ exists cyc sorted,
       evaluationOrder nodes conns = Some (cyc, sorted)
       /\ sorted ≡ₚ nid <$> nodes
       /\ forall c, c ∈ conns ->
            fromNodeId c ∈ nid <$> nodes -> toNodeId c ∈ nid <$> nodes ->
            fromNodeId c ∉ cyc -> toNodeId c ∉ cyc ->
            exists i j, i < j /\ sorted !! i = Some (fromNodeId c)
                        /\ sorted !! j = Some (toNodeId c).
Proof.
  intros nodes conns.
  assert (NoDup (nid <$> nodes)) as Hnd.
  { apply (bool_decide_unpack _). vm_compute. exact I. }
  split; [exact Hnd|].
  apply (evaluationOrder_contract nodes conns Hnd).
Defined.

(** * The recursion budget *)

(** A larger budget does not change a result. *)
Lemma forOf_mono {A B} (body1 body2 : A -> B -> option A) l :
  (forall a x a', body1 a x = Some a' -> body2 a x = Some a') ->
  forall a a', forOf body1 l a = Some a' -> forOf body2 l a = Some a'.
Proof.
  intros Hb. induction l as [|x l IH]; intros a a'; [done|].
  rewrite !forOf_cons. destruct (body1 a x) as [a1|] eqn:E; simpl; [|done].
  rewrite (Hb _ _ _ E). simpl. apply IH.
Qed.

Section Monotone.
Variables rec1 rec2 : list CircuitNode -> list Connection -> option Outputs.
Hypothesis Hrec : forall ns cs r, rec1 ns cs = Some r -> rec2 ns cs = Some r.

Lemma gateOutput_mono modules n iv v :
  gateOutput rec1 modules n iv = Some v ->
  gateOutput rec2 modules n iv = Some v.
Proof.
  unfold gateOutput. destruct (ntype n); try done.
  destruct (find_module modules (moduleId n)) as [m|]; [|done].
  destruct (rec1 _ _) as [r|] eqn:E; simpl; [|done].
  by rewrite (Hrec _ _ _ E).
Qed.

Lemma evaluateNode_mono nodes conns modules cyc frozen o i b o' :
  evaluateNode rec1 nodes conns modules cyc frozen o i b = Some o' ->
  evaluateNode rec2 nodes conns modules cyc frozen o i b = Some o'.
Proof.
  unfold evaluateNode. destruct (find_node nodes i) as [n|]; [|done].
  destruct (gateOutput rec1 _ _ _) as [v|] eqn:E; simpl; [|done].
  by rewrite (gateOutput_mono _ _ _ _ E).
Qed.

Lemma evaluateCircuitBody_mono nodes conns modules prev r :
  evaluateCircuitBody rec1 nodes conns modules prev = Some r ->
  evaluateCircuitBody rec2 nodes conns modules prev = Some r.
Proof.
  unfold evaluateCircuitBody.
  destruct (evaluationOrder nodes conns) as [ord|]; simpl; [|done].
  unfold evaluatePhases.
  destruct (pass1 rec1 _ _ _ _ _ _ _) as [o1|] eqn:E1; simpl; [|done].
  assert (forall a x a',
            pass1Step rec1 nodes conns modules ord.1
              (seedOutputs prev ord.1) a x = Some a' ->
            pass1Step rec2 nodes conns modules ord.1
              (seedOutputs prev ord.1) a x = Some a') as Hstep.
  { unfold pass1Step. intros a x a'.
    destruct (bool_decide (x ∈ ord.1)); [done|apply evaluateNode_mono]. }
  unfold pass1 in *. rewrite (forOf_mono _ _ _ Hstep _ _ E1). simpl.
  apply forOf_mono. intros a x a'. apply evaluateNode_mono.
Qed.
End Monotone.

Lemma evaluateCircuit_S fuel nodes conns modules prev r :
  evaluateCircuit fuel nodes conns modules prev = Some r ->
  evaluateCircuit (S fuel) nodes conns modules prev = Some r.
Proof.
  revert nodes conns prev r. induction fuel as [|fuel IH];
    intros nodes conns prev r; [done|].
  change (evaluateCircuit (S fuel) nodes conns modules prev)
    with (evaluateCircuitBody (fun ns cs => evaluateCircuit fuel ns cs modules None)
            nodes conns modules prev).
  change (evaluateCircuit (S (S fuel)) nodes conns modules prev)
    with (evaluateCircuitBody
            (fun ns cs => evaluateCircuit (S fuel) ns cs modules None)
            nodes conns modules prev).
  apply evaluateCircuitBody_mono. intros ns cs r'. apply IH.
Qed.

Lemma evaluateCircuit_le fuel fuel' nodes conns modules prev r :
  fuel ≤ fuel' ->
  evaluateCircuit fuel nodes conns modules prev = Some r ->
  evaluateCircuit fuel' nodes conns modules prev = Some r.
Proof. induction 1; [done|]. intros. by apply evaluateCircuit_S, IHle. Qed.

(** * Libraries without self-reference *)

Lemma find_module_elem modules mi m :
  find_module modules mi = Some m -> m ∈ modules.
Proof.
  destruct mi as [i|]; simpl; [|done]. intros H.
  apply find_some in H as [H _]. by apply list_elem_of_In.
Qed.

Lemma injectNode_kind m miv n :
  ntype (injectNode m miv n) = ntype n
  /\ moduleId (injectNode m miv n) = moduleId n.
Proof.
  unfold injectNode. destruct (ntype n) eqn:E; try done.
  - by destruct (indexOf _ _).
  - destruct (default ModeInput (pinBarMode n)); [|done].
    by destruct (indexOf _ _).
Qed.

Lemma internalNodes_module m miv n' :
  n' ∈ internalNodes m miv ->
  exists n, n ∈ mnodes m /\ ntype n' = ntype n /\ moduleId n' = moduleId n.
Proof.
  unfold internalNodes. intros (n & -> & Hn)%list_elem_of_fmap.
  exists n. split; [done|]. apply injectNode_kind.
Qed.

Section Budget.
Variable modules : list ModuleDefinition.
Hypothesis Hacyclic : noSelfReference modules.

Lemma module_body_total k : forall anc m,
  m ∈ modules -> NoDup anc ->
  (forall a, a ∈ anc -> a ∈ modules /\ tc (references modules) a m) ->
  length modules ≤ k + length anc ->
  forall miv prev,
    is_Some (evaluateCircuit k (internalNodes m miv) (mconnections m)
               modules prev).
Proof.
  induction k as [|k IH]; intros anc m Hm Hnd Hanc Hlen miv prev.
  - exfalso.
    assert (m ∉ anc) as Hma.
    { intros Hin. destruct (Hanc m Hin) as [_ Htc]. by apply (Hacyclic m). }
    assert (m :: anc ⊆+ modules) as Hsub.
    { apply NoDup_submseteq; [by constructor|].
      intros x [->|Hx]%elem_of_cons; [done|]. by apply Hanc. }
    apply submseteq_length in Hsub. simpl in *. lia.
  - apply evaluateCircuitBody_total.
    intros n' m' iv Hn' Ht Hf.
    destruct (internalNodes_module _ _ _ Hn') as (n & Hn & Etype & Emod).
    assert (references modules m m') as Href.
    { exists n. split; [done|]. split; congruence. }
    assert (m ∉ anc) as Hma.
    { intros Hin. destruct (Hanc m Hin) as [_ Htc]. by apply (Hacyclic m). }
    apply (IH (m :: anc)).
    + by eapply find_module_elem.
    + by constructor.
    + intros a [->|Ha]%elem_of_cons.
      * split; [done|]. by apply tc_once.
      * destruct (Hanc a Ha) as [? Htc]. split; [done|].
        eapply tc_r; eauto.
    + simpl. lia.
Qed.

Lemma evaluateCircuit_total nodes conns prev :
  is_Some (evaluateCircuit (S (length modules)) nodes conns modules prev).
Proof.
  apply evaluateCircuitBody_total. intros n m iv Hn Ht Hf.
  apply (module_body_total (length modules) []).
  - by eapply find_module_elem.
  - constructor.
  - intros a Ha. by apply elem_of_nil in Ha.
  - simpl. lia.
Qed.
End Budget.

(** Every node of the list has an entry in a result. *)
Lemma evaluateCircuit_entries fuel nodes conns modules prev r n :
  evaluateCircuit fuel nodes conns modules prev = Some r ->
  n ∈ nodes -> is_Some (r !! nid n).
Proof.
  intros He Hn.
  destruct (find_node_is_Some nodes (nid n)) as [n' Hn'];
    [by apply list_elem_of_fmap_2|].
  destruct (evaluateCircuit_lookup _ _ _ _ _ _ _ _ He Hn')
    as (rec & cyc & fr & src & v & _ & ->). eauto.
Qed.

(** C9: when no module definition reaches itself through MODULE nodes,
    [evaluateCircuit] returns: there is one result map, reached with every
    recursion budget above the size of the library, and it has an entry for
    every node of the node list. *)
Theorem evaluateCircuit_terminates modules nodes conns prev :
  noSelfReference modules ->
  exists r,
    (forall fuel, length modules < fuel ->
       evaluateCircuit fuel nodes conns modules prev = Some r)
    /\ forall n, n ∈ nodes -> is_Some (r !! nid n).
Proof.
  intros Hacyc.
  destruct (evaluateCircuit_total modules Hacyc nodes conns prev) as [r Hr].
  exists r. split.
  - intros fuel Hf. eapply evaluateCircuit_le; [|exact Hr]. lia.
  - intros n. by apply evaluateCircuit_entries with (1 := Hr).
Qed.

(** * Module expansion *)

Lemma find_node_NoDup nodes n :
  NoDup (nid <$> nodes) -> n ∈ nodes -> find_node nodes (nid n) = Some n.
Proof.
  unfold find_node. induction nodes as [|a nodes IH]; intros Hnd Hn.
  - by apply elem_of_nil in Hn.
  - simpl in *. apply NoDup_cons in Hnd as [Ha Hnd].
    apply elem_of_cons in Hn as [->|Hn].
    + by rewrite bool_decide_eq_true_2.
    + rewrite bool_decide_eq_false_2; [by apply IH|].
      intros E. apply Ha. rewrite E. by apply list_elem_of_fmap_2.
Qed.

Lemma inputSlice_app iv off a b :
  inputSlice iv off (a + b) = inputSlice iv off a ++ inputSlice iv (off + a) b.
Proof. unfold inputSlice. by rewrite seq_app, fmap_app. Qed.

Lemma inputSlice_lookup iv off w j :
  j < w -> inputSlice iv off w !! j = Some (default false (iv !! (off + j))).
Proof.
  intros Hj. unfold inputSlice. rewrite list_lookup_fmap.
  by rewrite lookup_seq_lt.
Qed.

Lemma bind_ext_elem {A B} (f g : A -> list B) (l : list A) :
  (forall x, x ∈ l -> f x = g x) -> l ≫= f = l ≫= g.
Proof.
  induction l as [|a l IH]; intros Hfg; [done|].
  cbn [mbind list_bind]. simpl. rewrite (Hfg a) by left.
  f_equal. apply IH. intros; apply Hfg; by right.
Qed.

Section Expander.
Variable m : ModuleDefinition.
Variable iv : list bool.
Hypothesis Hwf : listsTerminals m.

Let nodes := mnodes m.

(** The slots the terminals [l] take. *)
Let slots (l : list string) : nat := foldl (widthStep nodes) 0 l.

Lemma widthStep_add a k : widthStep nodes a k = a + widthStep nodes 0 k.
Proof.
  unfold widthStep. destruct (find_node nodes k) as [t|]; [|done].
  by destruct (ntype t).
Qed.

Lemma slots_fold l : forall a, foldl (widthStep nodes) a l = a + slots l.
Proof.
  unfold slots. induction l as [|k l IH]; intros a; simpl; [lia|].
  rewrite IH, (IH (widthStep nodes 0 k)), (widthStep_add a). lia.
Qed.

Lemma slots_cons k l : slots (k :: l) = widthStep nodes 0 k + slots l.
Proof. unfold slots at 1. simpl. by rewrite slots_fold. Qed.

Lemma slots_app l1 l2 : slots (l1 ++ l2) = slots l1 + slots l2.
Proof.
  induction l1 as [|k l1 IH]; [done|].
  simpl. rewrite !slots_cons, IH. lia.
Qed.

Let terminals (l : list string) : Prop :=
  forall i, i ∈ l ->
    exists t, find_node nodes i = Some t /\ isInputTerminal t = true.

Lemma flatten_slice l : terminals l -> forall acc off,
  foldl (flattenStep iv nodes) (acc, off) l
  = (acc ++ inputSlice iv off (slots l), off + slots l).
Proof.
  induction l as [|k l IH]; intros Hl acc off.
  - unfold slots, inputSlice. simpl. by rewrite app_nil_r, Nat.add_0_r.
  - destruct (Hl k) as (t & Ht & Hterm); [left|].
    assert (terminals l) as Hl' by (intros i Hi; apply Hl; by right).
    cbn [foldl]. rewrite slots_cons. unfold flattenStep at 2, widthStep.
    rewrite Ht. unfold isInputTerminal in Hterm.
    destruct (ntype t) eqn:E; try done; cbn [fst snd].
    + rewrite IH by done. change (0 + 1) with 1.
      rewrite inputSlice_app, <- app_assoc.
      replace (off + 1) with (S off) by lia.
      f_equal. lia.
    + rewrite IH by done. change (0 + outputCount t) with (outputCount t).
      rewrite inputSlice_app, <- app_assoc.
      f_equal. lia.
Qed.

Lemma moduleInputValues_slice :
  moduleInputValues m iv = inputSlice iv 0 (slots (inputNodeIds m)).
Proof.
  destruct Hwf as [Hin _].
  unfold moduleInputValues. fold nodes. by rewrite flatten_slice.
Qed.

Lemma indexOf_lookup i l idx :
  indexOf i l = Some idx -> l !! idx = Some i.
Proof.
  revert idx. induction l as [|k l IH]; intros idx; simpl; [done|].
  case_bool_decide as E; [by intros [= <-]; subst|].
  destruct (indexOf i l) as [j|]; simpl; [|done].
  intros [= <-]. by apply IH.
Qed.

Lemma slots_take l idx i :
  l !! idx = Some i ->
  slots (take idx l) + widthStep nodes 0 i ≤ slots l.
Proof.
  intros Hi. rewrite <- (take_drop_middle l idx i Hi) at 2.
  rewrite slots_app, slots_cons. lia.
Qed.

Lemma sliceOf_specSlices i l : terminals l -> forall off,
  sliceOf i (specSlices nodes iv off l)
  = (fun idx => inputSlice iv (off + slots (take idx l))
                  (widthStep nodes 0 i)) <$> indexOf i l.
Proof.
  induction l as [|k l IH]; intros Hl off; [done|].
  destruct (Hl k) as (t & Ht & Hterm); [left|].
  assert (terminals l) as Hl' by (intros j Hj; apply Hl; by right).
  cbn [specSlices indexOf]. rewrite Ht, Hterm. cbn [sliceOf].
  case_bool_decide as E.
  - subst k. simpl. unfold widthStep. rewrite Ht.
    unfold slots. simpl. rewrite Nat.add_0_r. by destruct (ntype t).
  - rewrite IH by done. destruct (indexOf i l) as [idx|]; [|done]. simpl.
    rewrite slots_cons. unfold widthStep at 2. rewrite Ht.
    do 2 f_equal. destruct (ntype t); lia.
Qed.

Lemma width_terminal n :
  find_node nodes (nid n) = Some n ->
  widthStep nodes 0 (nid n)
  = match ntype n with PINBAR => outputCount n | _ => 1 end.
Proof.
  intros Hn. unfold widthStep. rewrite Hn. by destruct (ntype n).
Qed.

(** The first node that carries its identifier receives the slice the
    specification gives it. *)
Lemma injectNode_spec n :
  find_node nodes (nid n) = Some n ->
  injectNode m (moduleInputValues m iv) n
  = specInject (specSlices nodes iv 0 (inputNodeIds m)) n.
Proof.
  intros Hn. pose proof Hwf as [Hin _].
  rewrite moduleInputValues_slice. unfold injectNode, specInject.
  rewrite sliceOf_specSlices by done. unfold isInputTerminal.
  destruct (ntype n) eqn:E; try done.
  - (* INPUT *)
    destruct (indexOf (nid n) (inputNodeIds m)) as [idx|] eqn:Ei; [|done].
    simpl. do 2 f_equal.
    pose proof (slots_take _ _ _ (indexOf_lookup _ _ _ Ei)) as Hle.
    rewrite width_terminal, E in * by done.
    unfold actualIdx. fold nodes. fold (slots (take idx (inputNodeIds m))).
    rewrite inputSlice_lookup by lia. rewrite inputSlice_lookup by lia.
    simpl. do 2 f_equal. lia.
  - (* PINBAR *)
    destruct (default ModeInput (pinBarMode n)); [|done].
    destruct (indexOf (nid n) (inputNodeIds m)) as [idx|] eqn:Ei; [|done].
    simpl. do 2 f_equal.
    pose proof (slots_take _ _ _ (indexOf_lookup _ _ _ Ei)) as Hle.
    rewrite width_terminal, E in * by done.
    unfold actualIdx. fold nodes. fold (slots (take idx (inputNodeIds m))).
    apply list_eq. intros j. unfold inputSlice at 2.
    rewrite !list_lookup_fmap.
    destruct (decide (j < outputCount n)) as [Hj|Hj].
    + rewrite !lookup_seq_lt by done. simpl.
      rewrite inputSlice_lookup by lia. done.
    + rewrite !lookup_seq_ge by lia. done.
Qed.

Lemma internalNodes_spec :
  NoDup (nid <$> nodes) ->
  internalNodes m (moduleInputValues m iv) = specInternalNodes m iv.
Proof.
  intros Hnd. unfold internalNodes, specInternalNodes. apply list_fmap_ext.
  intros i n Hn. apply injectNode_spec, find_node_NoDup; [done|].
  by eapply list_elem_of_lookup_2.
Qed.

Lemma moduleResult_spec r :
  moduleResult m r = outputNodeIds m ≫= specOutputBits m r.
Proof.
  destruct Hwf as [_ Hout].
  unfold moduleResult. apply bind_ext_elem. intros o Ho.
  destruct (Hout o Ho) as (t & Ht & Hterm).
  unfold outputBits, specOutputBits. rewrite Ht, Hterm.
  unfold isOutputTerminal in Hterm.
  destruct (ntype t); try done. by destruct (pinBarMode t) as [[]|].
Qed.

End Expander.

Lemma wellFormed_listsTerminals m : wellFormedModule m -> listsTerminals m.
Proof. by intros (_ & _ & Hin & Hout). Qed.

Lemma evaluateCircuit_terminates_witness :
  let m := mkModule "M"
             [mkNode "x" INPUT 0 1 None None None None;
              mkNode "y" OUTPUT 1 0 None None None None]
             [mkConn "k" "x" 0 "y" 0]
             ["x"] ["y"] in
  let nodes := [mkNode "a" INPUT 0 1 (Some true) None None None;
                mkNode "u" MODULE 1 1 None (Some "M") None None] in
  let conns := [mkConn "w" "a" 0 "u" 0] in
  noSelfReference [m]
  /\ exists r,
       (forall fuel, length [m] < fuel ->
          evaluateCircuit fuel nodes conns [m] None = Some r)
       /\ forall n, n ∈ nodes -> is_Some (r !! nid n).
Proof.
  intros m nodes conns.
  assert (noSelfReference [m]) as Hno.
  { intros m' _ Htc.
    assert (forall a b, references [m] a b -> a <> m) as Hnone.
    { intros a b (n & Hn & Ht & _) ->.
      repeat (apply elem_of_cons in Hn as [->|Hn]); try discriminate Ht.
      by apply elem_of_nil in Hn. }
    assert (forall a b, tc (references [m]) a b -> b ∈ [m]) as Hin.
    { induction 1 as [a b (n & _ & _ & Hf)|a b c _ _ IH]; [|done].
      by eapply find_module_elem. }
    pose proof (Hin _ _ Htc) as Hm'. apply list_elem_of_singleton in Hm' as ->.
    inversion Htc as [a b Hr|a b c Hr _]; subst; by eapply Hnone. }
  split; [exact Hno|].
  apply (evaluateCircuit_terminates [m] nodes conns None Hno).
Defined.

(** * Termination of [detectCycleConnections] *)

Lemma insertIndexKey_length k l :
  length (insertIndexKey k l) = S (length l).
Proof.
  induction l as [|k' l IH]; simpl; [done|].
  destruct (k.1 <=? k'.1)%N; simpl; by rewrite ?IH.
Qed.

Lemma forInKeys_length created : length (forInKeys created) = length created.
Proof.
  unfold forInKeys. rewrite length_app, length_fmap.
  induction created as [|s l IH]; [done|].
  rewrite filter_cons. cbn [omap list_omap].
  destruct (arrayIndex s) as [v|] eqn:E; cbn [fmap option_fmap option_map].
  - rewrite decide_False by done. cbn [foldr].
    rewrite insertIndexKey_length. simpl in *. lia.
  - rewrite decide_True by done. simpl in *. lia.
Qed.

Lemma set_add_length x s : length (set_add x s) ≤ S (length s).
Proof.
  unfold set_add. case_bool_decide; [lia|]. rewrite length_app. simpl. lia.
Qed.

Lemma detectInit_size nodes : forall st,
  size (foldl detectInitStep st nodes).1.1 ≤ size st.1.1 + length nodes
  /\ length (foldl detectInitStep st nodes).2 ≤ length st.2 + length nodes.
Proof.
  induction nodes as [|n nodes IH]; intros st; simpl; [lia|].
  destruct (IH (detectInitStep st n)) as [IH1 IH2].
  assert (size (detectInitStep st n).1.1 ≤ S (size st.1.1)) as H1.
  { unfold detectInitStep. simpl.
    pose proof (map_size_insert (nid n) 0%Z st.1.1) as Hs.
    destruct (st.1.1 !! nid n); unfold id in *; simpl in *; lia. }
  assert (length (detectInitStep st n).2 ≤ S (length st.2)) as H2
    by apply set_add_length.
  split; lia.
Qed.

Lemma detectAddEdge_size conns : forall st,
  size (foldl detectAddEdge st conns).1 = size st.1.
Proof.
  induction conns as [|c conns IH]; intros st; simpl; [done|].
  rewrite IH. unfold detectAddEdge.
  destruct (st.2 !! fromNodeId c) as [a|]; [|done].
  destruct (st.1 !! toNodeId c) as [k|] eqn:E; [|done]. simpl.
  apply map_size_insert_Some. by rewrite E.
Qed.

Lemma detectCycleConnections_total nodes conns :
  is_Some (detectCycleConnections nodes conns).
Proof.
  unfold detectCycleConnections.
  assert (is_Some (detectProcessed nodes conns)) as [processed ->];
    [|simpl; eauto].
  unfold detectProcessed. apply kahnLoop_total. unfold kahnMeasure.
  destruct (detectInit_size nodes (∅, ∅, [])) as [H1 H2]. simpl in H1, H2.
  rewrite map_size_empty in H1.
  pose proof (detectAddEdge_size conns
                (foldl detectInitStep (∅, ∅, []) nodes).1) as H3.
  match goal with |- context [length (filter ?P ?l)] =>
    pose proof (length_filter P l) as H4 end.
  rewrite forInKeys_length in H4.
  match goal with |- context [size (positives ?d)] =>
    pose proof (map_subseteq_size _ _
                  (map_filter_subseteq (fun kv : string * Z => (0 < kv.2)%Z) d))
      as H5 end.
  unfold positives. lia.
Qed.

(** * The probe as a guard *)

(** A path through the connections with [c] added either avoids [c] or
    runs to its source and on from its destination. *)
Lemma tc_added_connection conns c x y :
  tc (edge (c :: conns)) x y ->
  tc (edge conns) x y
  \/ (reachable conns x (fromNodeId c) /\ reachable conns (toNodeId c) y).
Proof.
  assert (forall a b, edge (c :: conns) a b ->
            edge conns a b \/ (a = fromNodeId c /\ b = toNodeId c)) as Hstep.
  { intros a b (c' & Hc' & <- & <-).
    apply elem_of_cons in Hc' as [-> | Hc']; [by right|].
    left. by exists c'. }
  induction 1 as [a b Hab|a b z Hab _ IH].
  - destruct (Hstep _ _ Hab) as [?|[-> ->]]; [left; by apply tc_once|].
    right. split; apply rtc_refl.
  - destruct (Hstep _ _ Hab) as [Hold|[-> ->]].
    + destruct IH as [IH|[IH1 IH2]].
      * left. by eapply tc_l.
      * right. split; [by eapply rtc_l|done].
    + right. split; [apply rtc_refl|].
      destruct IH as [IH|[_ IH2]]; [by apply tc_rtc|done].
Qed.

(** X1: on connections without closed path, a wire for which
    [wouldCreateCycle] answers [false] can be added without creating a
    closed path. *)
Theorem wouldCreateCycle_guard conns c :
  acyclic conns ->
  wouldCreateCycle conns (fromNodeId c) (toNodeId c) = Some false ->
  acyclic (c :: conns).
Proof.
  intros Hac Hw x Hx.
  destruct (wouldCreateCycle_spec conns (fromNodeId c) (toNodeId c))
    as (b & Hb & Hiff).
  rewrite Hw in Hb. injection Hb as <-.
  apply tc_added_connection in Hx as [Hx|[H1 H2]]; [by apply (Hac x)|].
  assert (false = true) as Habs; [|done].
  apply Hiff. right. unfold reachable in *. by etrans.
Qed.

Lemma wouldCreateCycle_guard_witness :
  let conns := [mkConn "w1" "a" 0 "g" 0] in
  let c := mkConn "w2" "g" 0 "o" 0 in
  acyclic conns /\ acyclic (c :: conns).
Proof.
  intros conns c.
  assert (acyclic conns) as Hac.
  { apply (ranked_acyclic conns
             (fun s => if bool_decide (s = "a") then 0 else 1)).
    intros u v (c' & Hc' & <- & <-).
    apply list_elem_of_singleton in Hc' as ->. vm_compute. lia. }
  split; [exact Hac|].
  apply (wouldCreateCycle_guard conns c Hac). vm_compute. reflexivity.
Defined.

(** * Previous outputs *)

Lemma seedOutputs_lookup prev cyc i :
  seedOutputs prev cyc !! i
  = if decide (i ∈ cyc) then prev ≫= (.!! i) else None.
Proof.
  unfold seedOutputs. destruct prev as [p|]; simpl.
  - induction cyc as [|x l IH] using rev_ind.
    + cbn [foldl]. rewrite lookup_empty.
      by destruct (decide (i ∈ [])) as [?%elem_of_nil|].
    + rewrite foldl_app. simpl.
      destruct (decide (i = x)) as [->|Hne].
      * rewrite decide_True by (rewrite elem_of_app; right; left).
        destruct (p !! x) as [v|] eqn:E; [by rewrite lookup_insert_eq|].
        rewrite IH. by destruct (decide (x ∈ l)).
      * assert (i ∈ l ++ [x] <-> i ∈ l) as Hin.
        { rewrite elem_of_app, list_elem_of_singleton. tauto. }
        destruct (p !! x) as [v|]; rewrite ?lookup_insert_ne by done;
          rewrite IH; destruct (decide (i ∈ l)), (decide (i ∈ l ++ [x]));
          tauto || done.
  - rewrite lookup_empty. by destruct (decide (i ∈ cyc)).
Qed.

(** X2: the previous outputs matter on the cycle set only: two calls whose
    previous outputs agree on the cycle nodes return the same; so for a
    circuit with an empty cycle set the previous outputs are irrelevant,
    and a call fed its own result returns it again. *)
Theorem previousOutputs_on_cycle_set fuel nodes conns modules cyc sorted
    (prev prev' : option Outputs) :
  evaluationOrder nodes conns = Some (cyc, sorted) ->
  (forall i, i ∈ cyc -> prev ≫= (.!! i) = prev' ≫= (.!! i)) ->
  evaluateCircuit fuel nodes conns modules prev
  = evaluateCircuit fuel nodes conns modules prev'.
Proof.
  intros Hord Hagree. destruct fuel as [|fuel]; [done|]. simpl.
  unfold evaluateCircuitBody. rewrite Hord. simpl.
  unfold evaluatePhases.
  assert (seedOutputs prev cyc = seedOutputs prev' cyc) as ->; [|done].
  apply map_eq. intros i. rewrite !seedOutputs_lookup.
  destruct (decide (i ∈ cyc)); [by apply Hagree|done].
Qed.

Lemma previousOutputs_on_cycle_set_witness :
  let nodes := [mkNode "a" INPUT 0 1 (Some true) None None None;
                mkNode "o" OUTPUT 1 0 None None None None] in
  let conns := [mkConn "w" "a" 0 "o" 0] in
  evaluationOrder nodes conns = Some ([], ["a"; "o"])
  /\ evaluateCircuit 1 nodes conns [] (Some {["o" := [false; true]]})
     = evaluateCircuit 1 nodes conns [] None.
Proof.
  intros nodes conns. split; [reflexivity|].
  apply (previousOutputs_on_cycle_set 1 nodes conns [] [] ["a"; "o"]);
    [reflexivity|].
  intros i Hi. by apply elem_of_nil in Hi.
Defined.

(** * The keys of a result *)

Lemma evaluateNode_keys rec nodes conns modules cyc frozen o i b o' k :
  evaluateNode rec nodes conns modules cyc frozen o i b = Some o' ->
  is_Some (o' !! k) -> is_Some (o !! k) \/ k ∈ nid <$> nodes.
Proof.
  intros He Hk. apply evaluateNode_inv in He as [[_ ->]|(v & Hv & ->)];
    [by left|].
  destruct (decide (k = i)) as [->|Hne].
  - right. destruct Hv as (n & _ & _ & Hn & _).
    apply find_node_Some in Hn as [Hn <-]. by apply list_elem_of_fmap_2.
  - left. by rewrite lookup_insert_ne in Hk.
Qed.

Lemma evaluateCircuit_only_nodes fuel nodes conns modules prev r k :
  evaluateCircuit fuel nodes conns modules prev = Some r ->
  is_Some (r !! k) -> k ∈ nid <$> nodes.
Proof.
  intros He.
  - intros Hk. pose proof He as [rec Hb]%evaluateCircuit_body.
    unfold evaluateCircuitBody, evaluationOrder in Hb.
    destruct (kahnSorted nodes conns) as [s0|]; simpl in Hb; [|done].
    destruct (collectCycle_spec nodes s0) as (cyc & Hc & _ & Hcyc).
    rewrite Hc in Hb. unfold evaluatePhases in Hb. simpl in Hb.
    destruct (pass1 _ _ _ _ _ _ _ _) as [o1|] eqn:E1; simpl in Hb; [|done].
    set (I := fun o : Outputs =>
                forall k, is_Some (o !! k) -> k ∈ nid <$> nodes).
    assert (I (seedOutputs prev cyc)) as H0.
    { intros j Hj. rewrite seedOutputs_lookup in Hj.
      destruct (decide (j ∈ cyc)) as [Hin|]; [|by destruct Hj].
      by apply Hcyc in Hin as [? _]. }
    assert (I o1) as H1.
    { revert E1. unfold pass1. apply forOf_invariant; [|exact H0].
      intros a x a' _ Ha Hstep j Hj. unfold pass1Step in Hstep.
      destruct (bool_decide (x ∈ cyc)); [injection Hstep as <-; by apply Ha|].
      destruct (evaluateNode_keys _ _ _ _ _ _ _ _ _ _ j Hstep Hj); auto. }
    assert (I r) as H2.
    { revert Hb. unfold pass2. apply forOf_invariant; [|exact H1].
      intros a x a' _ Ha Hstep j Hj.
      destruct (evaluateNode_keys _ _ _ _ _ _ _ _ _ _ j Hstep Hj); auto. }
    by apply H2.
Qed.

(** X3: the result map has an entry for the identifier of every node of the
    list and for nothing else, whatever the connections and the previous
    outputs mention. *)
Theorem evaluateCircuit_keys fuel nodes conns modules prev r :
  evaluateCircuit fuel nodes conns modules prev = Some r ->
  dom r = list_to_set (nid <$> nodes).
Proof.
  intros He. apply set_eq. intros k.
  rewrite elem_of_dom, elem_of_list_to_set. split.
  - by eapply evaluateCircuit_only_nodes.
  - intros (n & -> & Hn)%list_elem_of_fmap.
    by eapply evaluateCircuit_entries.
Qed.

(** * Nodes that do not read their pins *)

(** X4: an INPUT or BUTTON node is assigned its held value, a PINBAR in
    input mode its held vector cut or padded with [false] to its output
    pin count, a MODULE node whose definition is missing as many [false]
    as it has output pins, and a node of an unknown kind [false]: whatever
    is wired to them and whatever the previous outputs were. *)
Theorem source_node_output fuel nodes conns modules prev r i n :
  evaluateCircuit fuel nodes conns modules prev = Some r ->
  find_node nodes i = Some n ->
  match ntype n with
  | INPUT | BUTTON => r !! i = Some [default false (inputValue n)]
  | PINBAR =>
      default ModeInput (pinBarMode n) = ModeInput ->
      r !! i = Some ((fun k => default false (default [] (pinBarValues n) !! k))
                       <$> seq 0 (outputCount n))
  | MODULE =>
      find_module modules (moduleId n) = None ->
      r !! i = Some (replicate (outputCount n) false)
  | UNKNOWN => r !! i = Some [false]
  | _ => True
  end.
Proof.
  intros He Hn.
  destruct (evaluateCircuit_lookup _ _ _ _ _ _ _ _ He Hn)
    as (rec & cyc & fr & src & v & Hg & ->).
  unfold gateOutput in Hg. destruct (ntype n); try done.
  - intros Hm. by rewrite Hm in Hg.
  - intros Hm. by rewrite Hm in Hg.
Qed.

Lemma source_node_output_witness :
  let n := mkNode "p" PINBAR 1 3 None None None (Some [true]) in
  let nodes := [mkNode "a" INPUT 0 1 (Some true) None None None; n] in
  let conns := [mkConn "w" "a" 0 "p" 0] in
  exists r, evaluateCircuit 1 nodes conns [] None = Some r
            /\ r !! "p" = Some [true; false; false].
Proof.
  intros n nodes conns. eexists. split; [reflexivity|].
  apply (source_node_output 1 nodes conns [] None _ "p" n);
    reflexivity.
Defined.

Lemma evaluateCircuit_keys_witness :
  let nodes := [mkNode "a" INPUT 0 1 (Some true) None None None;
                mkNode "o" OUTPUT 1 0 None None None None] in
  let conns := [mkConn "w" "a" 0 "o" 0; mkConn "v" "ghost" 0 "o" 0] in
  let prev : Outputs := {["elsewhere" := [true]]} in
  exists r, evaluateCircuit 1 nodes conns [] (Some prev) = Some r
            /\ dom r = list_to_set (nid <$> nodes).
Proof.
  intros nodes conns prev. eexists. split; [reflexivity|].
  apply (evaluateCircuit_keys 1 nodes conns [] (Some prev)). reflexivity.
Defined.

(** * Modules built by the side menu *)

Lemma feedsModule_terminal n : feedsModule n = isInputTerminal n.
Proof.
  unfold feedsModule, isInputTerminal.
  destruct (ntype n); try done. simpl.
  by destruct (default ModeInput (pinBarMode n)).
Qed.

Lemma drainsModule_terminal n : drainsModule n = isOutputTerminal n.
Proof.
  unfold drainsModule, isOutputTerminal.
  destruct (ntype n); try done. simpl.
  by destruct (pinBarMode n) as [[]|].
Qed.

Lemma createModule_Some uuid name nodes conns m :
  createModule uuid name nodes conns = Some m ->
  m = mkModule uuid nodes conns (nid <$> (getIONodes nodes).1)
        (nid <$> (getIONodes nodes).2)
  /\ (getIONodes nodes).1 <> [] /\ (getIONodes nodes).2 <> [].
Proof.
  unfold createModule.
  destruct (getIONodes nodes) as [ins outs]. simpl.
  destruct ins as [|a ins]; [done|]. destruct outs as [|b outs]; [done|].
  simpl. destruct name as [s|]; [|done].
  case_bool_decide; [done|]. by intros [= <-].
Qed.

Lemma createModule_terminals uuid name nodes conns m :
  NoDup (nid <$> nodes) ->
  createModule uuid name nodes conns = Some m ->
  wellFormedModule m.
Proof.
  intros Hnd (-> & Hin & Hout)%createModule_Some.
  unfold getIONodes in *. simpl in *.
  split; [done|]. split; [by apply NoDup_fmap_filter|]. split.
  - intros i (n & -> & Hn)%list_elem_of_fmap.
    apply list_elem_of_filter in Hn as [Hf Hn]. exists n.
    split; [by apply find_node_NoDup|]. by rewrite <- feedsModule_terminal.
  - intros i (n & -> & Hn)%list_elem_of_fmap.
    apply list_elem_of_filter in Hn as [Hf Hn]. exists n.
    split; [by apply find_node_NoDup|]. by rewrite <- drainsModule_terminal.
Qed.

(** X5: over a canvas with pairwise distinct node identifiers, a module
    that [createModule] builds copies the canvas, names at least one input
    and one output terminal, and is well formed: its [inputNodeIds] are
    distinct identifiers of INPUT or input-mode PINBAR nodes of it, its
    [outputNodeIds] identifiers of OUTPUT or output-mode PINBAR nodes of
    it. *)
Theorem createModule_wellFormed uuid name nodes conns m :
  NoDup (nid <$> nodes) ->
  createModule uuid name nodes conns = Some m ->
  wellFormedModule m
  /\ mid m = uuid /\ mnodes m = nodes /\ mconnections m = conns
  /\ inputNodeIds m <> [] /\ outputNodeIds m <> [].
Proof.
  intros Hnd Hc. split; [by eapply createModule_terminals|].
  apply createModule_Some in Hc as (-> & Hin & Hout). simpl.
  repeat split; try done; by intros ?%fmap_nil_inv.
Qed.

Lemma createModule_wellFormed_witness :
  let nodes := [mkNode "x" INPUT 0 1 None None None None;
                mkNode "g" NOT 1 1 None None None None;
                mkNode "y" OUTPUT 1 0 None None None None] in
  let conns := [mkConn "k1" "x" 0 "g" 0; mkConn "k2" "g" 0 "y" 0] in
  let m := mkModule "id" nodes conns ["x"] ["y"] in
  createModule "id" (Some "inverter") nodes conns = Some m
  /\ wellFormedModule m.
Proof.
  intros nodes conns m. split; [reflexivity|].
  assert (NoDup (nid <$> nodes)) as Hnd
    by (apply (bool_decide_unpack _); vm_compute; exact I).
  apply (createModule_wellFormed "id" (Some "inverter") nodes conns m Hnd).
  reflexivity.
Defined.

(** * Pin counts of a built module *)

Section PinCounts.
Variable nodes : list CircuitNode.
Hypothesis Hnd : NoDup (nid <$> nodes).

Lemma inputCount_slots (l : list CircuitNode) : forall a,
  (forall n, n ∈ l -> n ∈ nodes /\ feedsModule n = true) ->
  foldl (widthStep nodes) a (nid <$> l)
  = foldl (fun a n =>
             match ntype n with
             | INPUT => a + 1
             | PINBAR => a + outputCount n
             | _ => a
             end) a l.
Proof.
  induction l as [|n l IH]; intros a Hl; [done|].
  destruct (Hl n) as [Hn Hf]; [left|].
  cbn [fmap list_fmap foldl]. rewrite <- IH by (intros; apply Hl; by right).
  f_equal. unfold widthStep. rewrite find_node_NoDup by done.
  unfold feedsModule in Hf. by destruct (ntype n).
Qed.

Lemma outputCount_bits (m : ModuleDefinition) r (l : list CircuitNode) :
  mnodes m = nodes ->
  (forall n, n ∈ l -> n ∈ nodes /\ drainsModule n = true) ->
  forall a,
    a + length ((nid <$> l) ≫= outputBits m r)
    = foldl (fun a n =>
               match ntype n with
               | OUTPUT => a + 1
               | PINBAR => a + inputCount n
               | _ => a
               end) a l.
Proof.
  intros Hm. induction l as [|n l IH]; intros Hl a; [simpl; lia|].
  destruct (Hl n) as [Hn Hf]; [left|].
  cbn [fmap list_fmap foldl mbind list_bind]. simpl.
  rewrite <- IH by (intros; apply Hl; by right).
  rewrite length_app.
  change (foldr (fun x : string => app (outputBits m r x)) [] (nid <$> l))
    with ((nid <$> l) ≫= outputBits m r).
  assert (length (outputBits m r (nid n))
          = match ntype n with
            | OUTPUT => 1 | PINBAR => inputCount n | _ => 0 end) as ->.
  { unfold outputBits. rewrite Hm, find_node_NoDup by done.
    unfold drainsModule in Hf. destruct (ntype n); try done.
    simpl in Hf. apply bool_decide_eq_true in Hf. rewrite Hf.
    by rewrite length_fmap, length_seq. }
  destruct (ntype n); lia.
Qed.
End PinCounts.

(** X6: for a module that [createModule] builds over a canvas with distinct
    node identifiers, the counts of [calculateIOCounts] are the widths the
    expander works with: it reads that many external inputs and returns
    that many output bits. *)
Theorem createModule_pin_counts uuid name nodes conns m inputVals r :
  NoDup (nid <$> nodes) ->
  createModule uuid name nodes conns = Some m ->
  let io := getIONodes nodes in
  length (moduleInputValues m inputVals) = (calculateIOCounts io.1 io.2).1
  /\ length (moduleResult m r) = (calculateIOCounts io.1 io.2).2.
Proof.
  intros Hnd Hc io.
  pose proof (createModule_terminals _ _ _ _ _ Hnd Hc) as Hwf.
  apply createModule_Some in Hc as (-> & _ & _).
  split.
  - rewrite moduleInputValues_slice by (by apply wellFormed_listsTerminals).
    unfold inputSlice. rewrite length_fmap, length_seq. simpl.
    apply inputCount_slots; [done|].
    intros n Hn. unfold getIONodes in Hn. simpl in Hn.
    by apply list_elem_of_filter in Hn as [? ?].
  - unfold moduleResult, calculateIOCounts. simpl.
    apply (outputCount_bits nodes Hnd
             (mkModule uuid nodes conns (nid <$> (getIONodes nodes).1)
                (nid <$> (getIONodes nodes).2)) r _ eq_refl) with (a := 0).
    intros n Hn. unfold getIONodes in Hn. simpl in Hn.
    by apply list_elem_of_filter in Hn as [? ?].
Qed.

Lemma createModule_pin_counts_witness :
  let nodes := [mkNode "x" INPUT 0 1 None None None None;
                mkNode "p" PINBAR 0 3 None None None None;
                mkNode "q" PINBAR 2 0 None None (Some ModeOutput) None;
                mkNode "y" OUTPUT 1 0 None None None None] in
  let m := mkModule "id" nodes [] ["x"; "p"] ["q"; "y"] in
  createModule "id" (Some "m") nodes [] = Some m
  /\ length (moduleInputValues m [true]) = 4
  /\ length (moduleResult m ∅) = 3.
Proof.
  intros nodes m. split; [reflexivity|].
  assert (NoDup (nid <$> nodes)) as Hnd
    by (apply (bool_decide_unpack _); vm_compute; exact I).
  apply (createModule_pin_counts "id" (Some "m") nodes [] m [true] ∅ Hnd).
  reflexivity.
Defined.

(** * Node geometry *)

(** X7: every node box is at least 30 wide and 30 high, and the long side
    of a bar or of a gate leaves room for its pins. *)
Theorem getNodeDimensions_bounds node rotation :
  30 ≤ getNodeWidth node rotation
  /\ 30 ≤ getNodeHeight node rotation
  /\ (ntype node <> INPUT -> ntype node <> OUTPUT ->
      let pins := Nat.max (inputCount node) (outputCount node) in
      pins * 28 + 12
      ≤ Nat.max (getNodeWidth node rotation) (getNodeHeight node rotation)).
Proof.
  unfold getNodeWidth, getNodeHeight, getNodeDimensions,
    NODE_WIDTH, PINBAR_THICKNESS.
  destruct (ntype node) eqn:E; simpl;
    repeat case_bool_decide; simpl; repeat split; try done; try lia.
Qed.

(** X8: a quarter turn (90 or 270) exchanges width and height of a PINBAR
    and of a MODULE node; every other rotation, and every rotation of a
    node of another kind, leaves the box as it is without rotation. *)
Theorem getNodeDimensions_rotation node rotation :
  getNodeDimensions node rotation
  = if (bool_decide (ntype node = PINBAR) || bool_decide (ntype node = MODULE))
       && (bool_decide (rotation = Some 90%Z)
           || bool_decide (rotation = Some 270%Z))
    then ((getNodeDimensions node None).2, (getNodeDimensions node None).1)
    else getNodeDimensions node None.
Proof.
  unfold getNodeDimensions.
  destruct (ntype node) eqn:E; simpl; try done;
    by repeat case_bool_decide.
Qed.

(** * What a node reads *)

Lemma find_conn_Some conns nodeId i c :
  find_conn conns nodeId i = Some c ->
  c ∈ conns /\ toNodeId c = nodeId /\ toPinIndex c = i.
Proof.
  unfold find_conn. intros H. apply find_some in H as [H1 H2].
  apply andb_true_iff in H2 as [H2 H3].
  apply bool_decide_eq_true in H2, H3. by rewrite list_elem_of_In.
Qed.

(** The input vector depends on the frozen snapshot at the cycle sources of
    the node and on the live outputs at its other sources only. *)
Lemma inputValues_ext conns cyc (fr fr' src src' : Outputs) n :
  (forall c, c ∈ conns -> toNodeId c = nid n ->
     if bool_decide (fromNodeId c ∈ cyc)
     then fr !! fromNodeId c = fr' !! fromNodeId c
     else src !! fromNodeId c = src' !! fromNodeId c) ->
  inputValues conns cyc fr src n = inputValues conns cyc fr' src' n.
Proof.
  intros Hext. unfold inputValues. apply list_fmap_ext. intros _ i _.
  unfold pinValue. destruct (find_conn conns (nid n) i) as [c|] eqn:E; [|done].
  apply find_conn_Some in E as (Hc & Ht & _).
  specialize (Hext c Hc Ht). unfold readPin.
  destruct (bool_decide (fromNodeId c ∈ cyc)); by rewrite Hext.
Qed.

(** * The two passes, value by value *)

Section Equations.
Variable rec : list CircuitNode -> list Connection -> option Outputs.
Variable nodes : list CircuitNode.
Variable conns : list Connection.
Variable modules : list ModuleDefinition.
Variable cyc s0 : list string.
Variable seed : Outputs.

Hypothesis Hids : NoDup (nid <$> nodes).
Hypothesis Hs0 : NoDup s0.
Hypothesis Hs0_nodes : forall v, v ∈ s0 -> v ∈ nid <$> nodes.
Hypothesis Hs0_order : forall j v, s0 !! j = Some v ->
  forall c, c ∈ conns -> toNodeId c = v -> fromNodeId c ∈ nid <$> nodes ->
    exists i, i < j /\ s0 !! i = Some (fromNodeId c).
Hypothesis Hcyc : forall x, x ∈ cyc <-> x ∈ nid <$> nodes /\ x ∉ s0.
Hypothesis Hseed : forall k, k ∉ cyc -> seed !! k = None.

(** Node [v] holds what its [switch] yields on the inputs read from
    [o], cycle sources being read from the seed. *)
Let settled (o : Outputs) (v : string) : Prop :=
  exists n val,
    find_node nodes v = Some n
    /\ gateOutput rec modules n (inputValues conns cyc seed o n) = Some val
    /\ o !! v = Some val.

(** A source outside the cycle set that is written while [x] is pending
    is not [x]. *)
Lemma source_before l x rest v c :
  s0 = l ++ x :: rest -> v ∈ l ++ [x] ->
  c ∈ conns -> toNodeId c = v -> fromNodeId c ∉ cyc ->
  fromNodeId c <> x.
Proof.
  intros Hsplit Hv Hc Ht Hfc Hfx.
  assert (x ∈ nid <$> nodes) as Hx.
  { apply Hs0_nodes. rewrite Hsplit. set_solver. }
  assert (exists j, j ≤ length l /\ s0 !! j = Some v) as (j & Hj & Hjv).
  { apply elem_of_app in Hv as [Hv|Hv].
    - apply list_elem_of_lookup in Hv as [j Hj]. exists j.
      split; [apply lookup_lt_Some in Hj; lia|].
      rewrite Hsplit. by apply lookup_app_l_Some.
    - apply list_elem_of_singleton in Hv as ->. exists (length l).
      split; [done|]. rewrite Hsplit. by rewrite list_lookup_middle. }
  destruct (Hs0_order j v Hjv c Hc Ht) as (i & Hi & Hix);
    [by rewrite Hfx|].
  rewrite Hfx in Hix.
  assert (s0 !! length l = Some x) as Hlx
    by (rewrite Hsplit; by rewrite list_lookup_middle).
  pose proof (NoDup_lookup _ _ _ _ Hs0 Hix Hlx). lia.
Qed.

Lemma pass1_prefix l : forall rest o,
  s0 = l ++ rest ->
  pass1 rec nodes conns modules cyc seed l seed = Some o ->
  (forall v, v ∈ l -> settled o v)
  /\ (forall k, k ∉ l -> o !! k = seed !! k).
Proof.
  unfold pass1. induction l as [|x l IH] using rev_ind; intros rest o Hsplit.
  - rewrite forOf_nil. intros [= <-]. split; [|done].
    intros v Hv. by apply elem_of_nil in Hv.
  - rewrite <- app_assoc in Hsplit. simpl in Hsplit.
    rewrite forOf_app.
    destruct (forOf _ l seed) as [o1|] eqn:E1; simpl; [|done].
    rewrite forOf_singleton. intros Hstep.
    destruct (IH _ o1 Hsplit eq_refl) as [IHa IHb].
    assert (x ∈ s0) as Hx by (rewrite Hsplit; set_solver).
    assert (x ∉ cyc) as Hxc by (intros Hin; by apply Hcyc in Hin as [_ ?]).
    assert (x ∉ l) as Hxl.
    { rewrite Hsplit in Hs0. apply NoDup_app in Hs0 as (_ & Hd & _).
      intros Hin. apply (Hd x Hin). left. }
    unfold pass1Step in Hstep.
    rewrite bool_decide_eq_false_2 in Hstep by done.
    unfold evaluateNode in Hstep.
    destruct (find_node_is_Some nodes x (Hs0_nodes x Hx)) as [n Hn].
    rewrite Hn in Hstep.
    destruct (gateOutput rec modules n (inputValues conns cyc seed o1 n))
      as [val|] eqn:Hg; simpl in Hstep; [|done].
    injection Hstep as <-.
    assert (forall v n', v ∈ l ++ [x] -> find_node nodes v = Some n' ->
              inputValues conns cyc seed (<[x:=val]> o1) n'
              = inputValues conns cyc seed o1 n') as Hsame.
    { intros v n' Hv Hn'. apply inputValues_ext. intros c Hc Ht.
      case_bool_decide as Hfc; [done|].
      apply find_node_Some in Hn' as [_ Hid]. rewrite Hid in Ht.
      pose proof (source_before l x rest v c Hsplit Hv Hc Ht Hfc) as Hne.
      by rewrite lookup_insert_ne. }
    split.
    + intros v Hv. destruct (decide (v = x)) as [->|Hne].
      * exists n, val. split; [done|].
        rewrite (Hsame x n) by (done || set_solver).
        split; [done|]. by rewrite lookup_insert_eq.
      * assert (v ∈ l) as Hvl by set_solver.
        destruct (IHa v Hvl) as (n' & val' & Hn' & Hg' & Hlk).
        exists n', val'. split; [done|].
        rewrite (Hsame v n') by done.
        split; [done|]. by rewrite lookup_insert_ne.
    + intros k Hk. rewrite lookup_insert_ne by set_solver.
      apply IHb. set_solver.
Qed.

Lemma pass1_skip frozen l o :
  (forall x, x ∈ l -> x ∈ cyc) ->
  pass1 rec nodes conns modules cyc frozen l o = Some o.
Proof.
  unfold pass1. induction l as [|x l IH]; intros Hl; [done|].
  rewrite forOf_cons.
  assert (pass1Step rec nodes conns modules cyc frozen o x = Some o) as ->.
  { unfold pass1Step. by rewrite bool_decide_eq_true_2 by (apply Hl; left). }
  simpl. apply IH. intros; apply Hl; by right.
Qed.

Lemma refresh_untouched sorted (o fr : Outputs) k :
  k ∈ cyc \/ k ∉ sorted -> refresh cyc sorted o fr !! k = fr !! k.
Proof.
  unfold refresh. induction sorted as [|x l IH] using rev_ind; [done|].
  intros Hk. rewrite foldl_app. simpl.
  assert (k ∈ cyc \/ k ∉ l) as Hk'.
  { destruct Hk as [?|Hk]; [by left|right]. set_solver. }
  case_bool_decide as Hxc; [by apply IH|].
  destruct (o !! x); [|by apply IH].
  rewrite lookup_insert_ne; [by apply IH|].
  intros ->. destruct Hk as [?|Hk]; [done|]. set_solver.
Qed.

Lemma refresh_copied sorted (o fr : Outputs) k v :
  k ∈ sorted -> k ∉ cyc -> o !! k = Some v ->
  refresh cyc sorted o fr !! k = Some v.
Proof.
  unfold refresh. induction sorted as [|x l IH] using rev_ind;
    intros Hk Hkc Hv; [by apply elem_of_nil in Hk|].
  rewrite foldl_app. simpl.
  destruct (decide (k = x)) as [->|Hne].
  - rewrite bool_decide_eq_false_2 by done. rewrite Hv.
    by rewrite lookup_insert_eq.
  - assert (k ∈ l) as Hkl by set_solver.
    case_bool_decide; [by apply IH|].
    destruct (o !! x); [|by apply IH].
    rewrite lookup_insert_ne by done. by apply IH.
Qed.

Lemma pass2_values frozen order : forall o o' i n,
  pass2 rec nodes conns modules cyc frozen order o = Some o' ->
  i ∈ order -> find_node nodes i = Some n ->
  exists val, frozenValue rec modules conns cyc frozen n = Some val
              /\ o' !! i = Some val.
Proof.
  unfold pass2. induction order as [|x l IH] using rev_ind;
    intros o o' i n Hp Hi Hn.
  - by apply elem_of_nil in Hi.
  - rewrite forOf_app in Hp.
    destruct (forOf _ l o) as [o1|] eqn:E1; simpl in Hp; [|done].
    rewrite forOf_singleton, evaluateNode_cycle in Hp.
    destruct (decide (x = i)) as [->|Hne].
    + rewrite Hn in Hp.
      destruct (frozenValue rec modules conns cyc frozen n) as [val|];
        simpl in Hp; [|done].
      injection Hp as <-. exists val. by rewrite lookup_insert_eq.
    + assert (i ∈ l) as Hil by set_solver.
      destruct (IH _ _ i n E1 Hil Hn) as (val & Hv & Hlk).
      exists val. split; [done|].
      destruct (find_node nodes x) as [nx|]; [|by injection Hp as <-].
      destruct (frozenValue rec modules conns cyc frozen nx) as [vx|];
        simpl in Hp; [|done].
      injection Hp as <-. by rewrite lookup_insert_ne.
Qed.

Lemma phases_settled r n :
  (o1 ← pass1 rec nodes conns modules cyc seed (s0 ++ cyc) seed;
   pass2 rec nodes conns modules cyc (refresh cyc (s0 ++ cyc) o1 seed)
     cyc o1) = Some r ->
  n ∈ nodes -> settled r (nid n).
Proof.
  intros Hr Hn.
  destruct (pass1 _ _ _ _ _ _ _ _) as [o1|] eqn:E1; simpl in Hr; [|done].
  unfold pass1 in E1. rewrite forOf_app in E1.
  destruct (forOf _ s0 seed) as [oa|] eqn:Ea; simpl in E1; [|done].
  pose proof (pass1_skip seed cyc oa (fun x Hx => Hx)) as Hskip.
  unfold pass1 in Hskip. rewrite Hskip in E1. injection E1 as <-.
  destruct (pass1_prefix s0 [] oa (eq_sym (app_nil_r s0)) Ea) as [HA HB].
  set (F := refresh cyc (s0 ++ cyc) oa seed) in *.
  assert (forall k, k ∈ cyc -> F !! k = seed !! k) as HF1.
  { intros k Hk. apply refresh_untouched. by left. }
  assert (forall k, k ∉ cyc -> F !! k = oa !! k) as HF2.
  { intros k Hk. destruct (decide (k ∈ s0)) as [Hks|Hks].
    - destruct (HA k Hks) as (_ & val & _ & _ & Hlk). rewrite Hlk.
      apply refresh_copied; [set_solver|done|done].
    - rewrite (HB k Hks). apply refresh_untouched. right. set_solver. }
  assert (forall k, k ∉ cyc -> r !! k = oa !! k) as HR1.
  { intros k Hk. by apply (pass2_lookup _ _ _ _ _ _ _ _ _ k Hr). }
  assert (find_node nodes (nid n) = Some n) as Hfn
    by (by apply find_node_NoDup).
  destruct (decide (nid n ∈ cyc)) as [Hc|Hc].
  - destruct (pass2_values _ _ _ _ _ _ Hr Hc Hfn) as (val & Hv & Hlk).
    exists n, val. split; [done|]. split; [|done].
    rewrite <- Hv. unfold frozenValue. f_equal.
    apply inputValues_ext. intros c _ _.
    case_bool_decide as Hfc; [symmetry; by apply HF1|].
    by rewrite HR1, HF2.
  - assert (nid n ∈ s0) as Hs.
    { destruct (decide (nid n ∈ s0)); [done|]. exfalso. apply Hc, Hcyc.
      split; [by apply list_elem_of_fmap_2|done]. }
    destruct (HA _ Hs) as (n' & val & Hn' & Hg & Hlk).
    rewrite Hfn in Hn'. injection Hn' as <-.
    exists n, val. split; [done|]. split; [|by rewrite HR1].
    rewrite <- Hg. f_equal. apply inputValues_ext. intros c _ _.
    case_bool_decide as Hfc; [done|]. by apply HR1.
Qed.
End Equations.

Lemma evaluateCircuit_settled fuel nodes conns modules prev cyc sorted r n :
  NoDup (nid <$> nodes) ->
  evaluationOrder nodes conns = Some (cyc, sorted) ->
  evaluateCircuit (S fuel) nodes conns modules prev = Some r ->
  n ∈ nodes ->
  exists v,
    gateOutput (fun ns cs => evaluateCircuit fuel ns cs modules None) modules
      n (inputValues conns cyc (seedOutputs prev cyc) r n) = Some v
    /\ r !! nid n = Some v.
Proof.
  intros Hids Hord He Hn. simpl in He. unfold evaluateCircuitBody in He.
  rewrite Hord in He. simpl in He. unfold evaluatePhases in He.
  unfold evaluationOrder in Hord.
  destruct (kahnSorted nodes conns) as [s0|] eqn:Hk; simpl in Hord; [|done].
  destruct (collectCycle_spec nodes s0) as (cyc' & Hc & _ & Hcyc).
  rewrite Hc in Hord. injection Hord as Hord1 Hord2. subst cyc' sorted.
  destruct (kahnSorted_sorted nodes conns Hids s0 Hk) as (Hs & Hsub & Hdep).
  destruct (phases_settled
              (fun ns cs => evaluateCircuit fuel ns cs modules None)
              nodes conns modules cyc s0 (seedOutputs prev cyc)
              Hids Hs Hsub) with (r := r) (n := n)
    as (n' & v & Hn' & Hg & Hlk); try done.
  - intros j v Hj c Hcc Ht Hf. apply (Hdep j v Hj).
    rewrite <- Ht. apply preds_edge; [done|done|].
    rewrite Ht. apply Hsub. by eapply list_elem_of_lookup_2.
  - intros k Hkc. rewrite seedOutputs_lookup. by rewrite decide_False.
  - rewrite find_node_NoDup in Hn' by done. injection Hn' as <-. eauto.
Qed.

(** X9: with pairwise distinct node identifiers, a result satisfies the
    equations of one tick: every node holds what its kind yields on the
    values its pins read, a pin reading the output recorded in the same
    result when its source is outside the cycle set, and the output the
    previous result recorded when its source is in the cycle set. *)
Theorem evaluation_equations fuel nodes conns modules prev cyc sorted r n :
  NoDup (nid <$> nodes) ->
  evaluationOrder nodes conns = Some (cyc, sorted) ->
  evaluateCircuit (S fuel) nodes conns modules prev = Some r ->
  n ∈ nodes ->
  exists v,
    gateOutput (fun ns cs => evaluateCircuit fuel ns cs modules None) modules
      n (inputValues conns cyc (seedOutputs prev cyc) r n) = Some v
    /\ r !! nid n = Some v.
Proof. apply evaluateCircuit_settled. Qed.

Lemma evaluation_equations_witness :
  let n := mkNode "q" OR 2 1 None None None None in
  let nodes := [mkNode "s" INPUT 0 1 (Some false) None None None; n] in
  let conns := [mkConn "w1" "s" 0 "q" 0; mkConn "w2" "q" 0 "q" 1] in
  let prev : Outputs := {["q" := [true]]} in
  exists r v,
    evaluationOrder nodes conns = Some (["q"], ["s"; "q"])
    /\ evaluateCircuit 1 nodes conns [] (Some prev) = Some r
    /\ gateOutput (fun ns cs => evaluateCircuit 0 ns cs [] None) []
         n (inputValues conns ["q"] (seedOutputs (Some prev) ["q"]) r n)
       = Some v
    /\ r !! "q" = Some v.
Proof.
  intros n nodes conns prev.
  assert (NoDup (nid <$> nodes)) as Hnd
    by (apply (bool_decide_unpack _); vm_compute; exact I).
  destruct (evaluateCircuit 1 nodes conns [] (Some prev)) as [r|] eqn:He;
    [|vm_compute in He; discriminate He].
  destruct (evaluation_equations 0 nodes conns [] (Some prev)
              ["q"] ["s"; "q"] r n Hnd eq_refl He) as (v & Hg & Hlk).
  { right. left. }
  exists r, v. repeat split; assumption.
Defined.

(** * Truth tables *)

(** X10: with pairwise distinct node identifiers, the gates compute their
    truth tables on the values their pins read (see the equations of one
    tick): an AND or OR node with two declared pins holds the conjunction
    or disjunction of pins 0 and 1, a NOT node the negation of pin 0, an
    OUTPUT or LED node the value of pin 0, a PINBAR in output mode the
    values of all its pins. *)
Theorem gate_truth_tables fuel nodes conns modules prev cyc sorted r n :
  NoDup (nid <$> nodes) ->
  evaluationOrder nodes conns = Some (cyc, sorted) ->
  evaluateCircuit (S fuel) nodes conns modules prev = Some r ->
  n ∈ nodes ->
  let pin := pinValue conns cyc (seedOutputs prev cyc) r (nid n) in
  match ntype n with
  | AND => 2 ≤ inputCount n -> r !! nid n = Some [pin 0 && pin 1]
  | OR => 2 ≤ inputCount n -> r !! nid n = Some [pin 0 || pin 1]
  | NOT => 1 ≤ inputCount n -> r !! nid n = Some [negb (pin 0)]
  | OUTPUT | LED => 1 ≤ inputCount n -> r !! nid n = Some [pin 0]
  | PINBAR =>
      pinBarMode n = Some ModeOutput ->
      r !! nid n = Some (pin <$> seq 0 (inputCount n))
  | _ => True
  end.
Proof.
  intros Hids Hord He Hn pin.
  destruct (evaluateCircuit_settled _ _ _ _ _ _ _ _ _ Hids Hord He Hn)
    as (v & Hg & ->).
  unfold gateOutput in Hg.
  destruct (ntype n) eqn:E; try done; intros Hc.
  - rewrite inputValues_length, bool_decide_eq_true_2 in Hg by done.
    rewrite !inputValues_lookup in Hg by lia. by rewrite <- Hg.
  - rewrite inputValues_length, bool_decide_eq_true_2 in Hg by done.
    rewrite !inputValues_lookup in Hg by lia. by rewrite <- Hg.
  - rewrite !inputValues_lookup in Hg by lia. by rewrite <- Hg.
  - rewrite !inputValues_lookup in Hg by lia. by rewrite <- Hg.
  - rewrite !inputValues_lookup in Hg by lia. by rewrite <- Hg.
  - rewrite Hc in Hg. simpl in Hg. rewrite <- Hg. f_equal.
    rewrite take_ge; [done|]. by rewrite inputValues_length.
Qed.

Lemma gate_truth_tables_witness :
  let n := mkNode "g" AND 2 1 None None None None in
  let nodes := [mkNode "a" INPUT 0 1 (Some true) None None None;
                mkNode "b" INPUT 0 1 (Some true) None None None; n] in
  let conns := [mkConn "w1" "a" 0 "g" 0; mkConn "w2" "b" 0 "g" 1] in
  exists r,
    evaluateCircuit 1 nodes conns [] None = Some r
    /\ r !! "g"
       = Some [pinValue conns [] (seedOutputs None []) r "g" 0
               && pinValue conns [] (seedOutputs None []) r "g" 1]
    /\ r !! "g" = Some [true].
Proof.
  intros n nodes conns.
  assert (NoDup (nid <$> nodes)) as Hnd
    by (apply (bool_decide_unpack _); vm_compute; exact I).
  destruct (evaluateCircuit 1 nodes conns [] None) as [r|] eqn:He;
    [|vm_compute in He; discriminate He].
  exists r. split; [reflexivity|]. split.
  - apply (gate_truth_tables 0 nodes conns [] None [] ["a"; "b"; "g"] r n
             Hnd eq_refl He); [right; right; left|simpl; lia].
  - vm_compute in He. injection He as <-. reflexivity.
Defined.

(** * The cycle set *)

Section Blocked.
Variable ids : list string.
Variable conns : list Connection.
Variable outE inE : Adjacency.
Hypothesis Hadj : adjacencyOf ids conns (outE, inE).

Let preds (v : string) : list string := default [] (inE !! v).
Let succs (u : string) : list string := default [] (outE !! u).

(** Whatever has in-degree zero is output or queued. *)
Let complete (q s : list string) (d : gmap string Z) : Prop :=
  forall v, v ∈ ids -> d !! v = Some 0%Z -> v ∈ s ++ q.

Lemma complete_step u q s d :
  kahnInv ids preds (u :: q) s d ->
  complete (u :: q) s d ->
  complete (foldl relax (d, q) (succs u)).2 (s ++ [u])
    (foldl relax (d, q) (succs u)).1.
Proof.
  intros (I1 & I2 & I3 & I4 & I5) Hcomp v Hv.
  destruct (succs_spec ids conns outE inE Hadj u) as [Hnd Hsu].
  destruct (relax_fold (succs u) Hnd d q) as [Hd Hq].
  { intros w Hw. apply Hsu in Hw as (_ & Hw & _). rewrite I3 by done. eauto. }
  fold succs in Hd, Hq. rewrite Hd, Hq.
  destruct (decide (v ∈ succs u)) as [Hvs|Hvs].
  - rewrite I3 by done. simpl. intros [= Hz].
    rewrite !elem_of_app. right. right. apply list_elem_of_filter.
    split; [|done]. rewrite I3 by done. f_equal. lia.
  - intros Hz. specialize (Hcomp v Hv Hz).
    rewrite !elem_of_app in *. rewrite elem_of_cons in Hcomp.
    rewrite list_elem_of_singleton. tauto.
Qed.

Lemma kahnLoop_blocked fuel : forall q s d res,
  kahnInv ids preds q s d -> complete q s d ->
  kahnLoop fuel outE q s d = Some res ->
  forall v, v ∈ ids -> v ∉ res -> exists u, u ∈ preds v /\ u ∉ res.
Proof.
  assert (forall s d, kahnInv ids preds [] s d -> complete [] s d ->
            forall v, v ∈ ids -> v ∉ s -> exists u, u ∈ preds v /\ u ∉ s)
    as Hend.
  { intros s d (_ & _ & I3 & _) Hcomp v Hv Hvs.
    destruct (filter (fun u => u ∉ s) (preds v)) as [|u l] eqn:Ef.
    - exfalso. apply Hvs. specialize (Hcomp v Hv).
      rewrite app_nil_r in Hcomp. apply Hcomp. rewrite I3 by done.
      by rewrite Ef.
    - exists u.
      assert (u ∈ filter (fun u => u ∉ s) (preds v)) as Hu
        by (rewrite Ef; left).
      apply list_elem_of_filter in Hu. tauto. }
  induction fuel as [|fuel IH]; intros q s d res Hinv Hcomp.
  - destruct q; simpl; [|done]. intros [= <-]. by eapply Hend.
  - destruct q as [|u q]; simpl.
    + intros [= <-]. by eapply Hend.
    + apply IH; [by apply (kahnInv_step ids conns)|by apply complete_step].
Qed.
End Blocked.

Section CycleSet.
Variable nodes : list CircuitNode.
Variable conns : list Connection.
Hypothesis Hids : NoDup (nid <$> nodes).

Let ids := nid <$> nodes.
Let adj := buildAdjacency nodes conns.
Let preds (v : string) : list string := default [] (adj.2 !! v).

Lemma preds_nodeEdge u v : (u ∈ preds v) <-> nodeEdge nodes conns u v.
Proof.
  pose proof (buildAdjacency_adjacencyOf nodes conns) as Ha.
  unfold preds, nodeEdge.
  apply (preds_spec ids conns adj.1 adj.2).
  unfold adj. by destruct (buildAdjacency nodes conns).
Qed.

Lemma kahnSorted_blocked s0 v :
  kahnSorted nodes conns = Some s0 -> v ∈ ids -> v ∉ s0 ->
  exists u, (u ∉ s0) /\ nodeEdge nodes conns u v.
Proof.
  unfold kahnSorted. intros Hk Hv Hvs.
  destruct (kahnLoop_blocked ids conns adj.1 adj.2) with
    (fuel := S (length nodes + length nodes))
    (q := initQueue nodes (initInDegree nodes adj.2))
    (s := @nil string) (d := initInDegree nodes adj.2) (res := s0) (v := v)
    as (u & Hu & Hus); try done.
  - pose proof (buildAdjacency_adjacencyOf nodes conns) as Ha.
    unfold adj. by destruct (buildAdjacency nodes conns).
  - by apply kahnInv_init.
  - intros w Hw Hz. simpl. unfold initQueue.
    apply list_elem_of_fmap in Hw as (n & -> & Hn).
    apply list_elem_of_fmap_2, list_elem_of_filter. done.
  - exists u. split; [done|]. by apply preds_nodeEdge.
Qed.

Lemma kahnSorted_before s0 :
  kahnSorted nodes conns = Some s0 ->
  forall u v, tc (nodeEdge nodes conns) u v ->
    forall j, s0 !! j = Some v -> exists i, i < j /\ s0 !! i = Some u.
Proof.
  intros Hk.
  destruct (kahnSorted_sorted nodes conns Hids s0 Hk) as (_ & _ & Hdep).
  induction 1 as [u v Huv|u y v Huy _ IH]; intros j Hj.
  - apply (Hdep j v Hj). by apply preds_nodeEdge.
  - destruct (IH j Hj) as (i' & Hi' & Hy).
    destruct (Hdep i' y Hy u) as (i & Hi & Hu); [by apply preds_nodeEdge|].
    exists i. split; [lia|done].
Qed.
End CycleSet.

(** A set in which every member has a predecessor holds a closed path
    that leads to each member. *)
Lemma backward_chain_closes (R : relation string) (ids : list string)
    (U : string -> Prop) :
  (forall v, U v -> v ∈ ids) ->
  (forall v, U v -> exists u, U u /\ R u v) ->
  forall k anc v v0,
    U v -> rtc R v v0 -> NoDup anc ->
    (forall a, a ∈ anc -> a ∈ ids /\ tc R v a) ->
    length ids ≤ k + length anc ->
    exists x, tc R x x /\ rtc R x v0.
Proof.
  intros Hin Hpred. induction k as [|k IH]; intros anc v v0 Hv Hr Hnd Hanc Hlen.
  - destruct (decide (v ∈ anc)) as [Hva|Hva].
    + exists v. split; [by apply Hanc|done].
    + exfalso. assert (v :: anc ⊆+ ids) as Hsub.
      { apply NoDup_submseteq; [by constructor|].
        intros x [->|Hx]%elem_of_cons; [by apply Hin|]. by apply Hanc. }
      apply submseteq_length in Hsub. simpl in *. lia.
  - destruct (decide (v ∈ anc)) as [Hva|Hva].
    + exists v. split; [by apply Hanc|done].
    + destruct (Hpred v Hv) as (u & Hu & Huv).
      apply (IH (v :: anc) u v0); [done| |by constructor| |simpl; lia].
      * by eapply rtc_l.
      * intros a [->|Ha]%elem_of_cons.
        -- split; [by apply Hin|by apply tc_once].
        -- destruct (Hanc a Ha) as [? ?]. split; [done|by eapply tc_l].
Qed.

Lemma cycle_set_feedback nodes conns cyc sorted :
  NoDup (nid <$> nodes) ->
  evaluationOrder nodes conns = Some (cyc, sorted) ->
  (forall v, v ∈ cyc
             <-> exists x, tc (nodeEdge nodes conns) x x
                           /\ rtc (nodeEdge nodes conns) x v)
  /\ (acyclic conns -> cyc = []).
Proof.
  intros Hids Hord. unfold evaluationOrder in Hord.
  destruct (kahnSorted nodes conns) as [s0|] eqn:Hk; simpl in Hord; [|done].
  destruct (collectCycle_spec nodes s0) as (cyc' & Hc & _ & Hcyc).
  rewrite Hc in Hord. injection Hord as Hord1 Hord2. subst cyc' sorted.
  destruct (kahnSorted_sorted nodes conns Hids s0 Hk) as (Hs & Hsub & _).
  assert (forall v, v ∈ cyc ->
            exists x, tc (nodeEdge nodes conns) x x
                      /\ rtc (nodeEdge nodes conns) x v) as Hfwd.
  { intros v Hv.
    apply (backward_chain_closes (nodeEdge nodes conns) (nid <$> nodes)
             (fun w => w ∈ cyc)) with
      (k := length (nid <$> nodes)) (anc := []) (v := v); try done.
    - intros w Hw. by apply Hcyc in Hw as [? _].
    - intros w Hw. apply Hcyc in Hw as [Hw Hws].
      destruct (kahnSorted_blocked nodes conns Hids s0 w Hk Hw Hws)
        as (u & Hus & Hedge).
      exists u. split; [|done]. apply Hcyc. split; [|done]. by destruct Hedge.
    - constructor.
    - intros a Ha. by apply elem_of_nil in Ha.
    - simpl. lia. }
  split.
  - intros v. split; [apply Hfwd|].
    intros (x & Hloop & Hreach).
    assert (x ∈ cyc) as Hx.
    { apply Hcyc. split.
      - inversion Hloop as [a b (? & _)|a b c (? & _)]; by subst.
      - intros Hxs. apply list_elem_of_lookup in Hxs as [j Hj].
        destruct (kahnSorted_before nodes conns Hids s0 Hk x x Hloop j Hj)
          as (i & Hi & Hix).
        pose proof (NoDup_lookup _ _ _ _ Hs Hix Hj). lia. }
    clear Hloop. revert Hx.
    induction Hreach as [|a b c Hab _ IH]; intros Hx; [done|].
    apply IH. apply Hcyc. destruct Hab as (Ha & Hb & He).
    split; [done|]. intros Hbs. apply list_elem_of_lookup in Hbs as [j Hj].
    destruct (kahnSorted_before nodes conns Hids s0 Hk a b
                (tc_once _ _ _ (conj Ha (conj Hb He))) j Hj) as (i & _ & Hia).
    apply Hcyc in Hx as [_ Hx]. apply Hx. by eapply list_elem_of_lookup_2.
  - intros Hac. destruct cyc as [|v cyc]; [done|]. exfalso.
    destruct (Hfwd v) as (x & Hloop & _); [left|].
    apply (Hac x).
    apply (tc_congruence (fun a : string => a) (edge conns)) in Hloop; [done|].
    by intros a b (_ & _ & ?).
Qed.

(** X11: with pairwise distinct node identifiers, the cycle set consists of
    the nodes that lie on a closed path of connections between nodes or
    downstream of one; it is empty when the connections have no closed
    path. *)
Theorem cycle_set_characterization nodes conns cyc sorted :
  NoDup (nid <$> nodes) ->
  evaluationOrder nodes conns = Some (cyc, sorted) ->
  (forall v, v ∈ cyc
             <-> exists x, tc (nodeEdge nodes conns) x x
                           /\ rtc (nodeEdge nodes conns) x v)
  /\ (acyclic conns -> cyc = []).
Proof. apply cycle_set_feedback. Qed.

Lemma cycle_set_characterization_witness :
  let nodes := [mkNode "s" INPUT 0 1 (Some true) None None None;
                mkNode "p" NOT 1 1 None None None None;
                mkNode "q" NOT 1 1 None None None None;
                mkNode "o" OUTPUT 1 0 None None None None] in
  let conns := [mkConn "w1" "p" 0 "q" 0; mkConn "w2" "q" 0 "p" 0;
                mkConn "w3" "q" 0 "o" 0] in
  evaluationOrder nodes conns = Some (["p"; "q"; "o"], ["s"; "p"; "q"; "o"])
  /\ exists x, tc (nodeEdge nodes conns) x x
               /\ rtc (nodeEdge nodes conns) x "o".
Proof.
  intros nodes conns. split; [reflexivity|].
  assert (NoDup (nid <$> nodes)) as Hnd
    by (apply (bool_decide_unpack _); vm_compute; exact I).
  apply (cycle_set_characterization nodes conns ["p"; "q"; "o"]
           ["s"; "p"; "q"; "o"] Hnd eq_refl).
  right. right. left.
Defined.

(** * The tables of [detectCycleConnections] *)

Lemma detectInit_spec nodes :
  (forall k, (foldl detectInitStep (∅, ∅, []) nodes).1.1 !! k
             = if decide (k ∈ nid <$> nodes) then Some 0%Z else None)
  /\ (foldl detectInitStep (∅, ∅, []) nodes).1.2 = initEdges nodes
  /\ NoDup (foldl detectInitStep (∅, ∅, []) nodes).2
  /\ (forall k, k ∈ (foldl detectInitStep (∅, ∅, []) nodes).2
                <-> k ∈ nid <$> nodes).
Proof.
  induction nodes as [|n nodes IH] using rev_ind.
  - simpl. split; [|split; [done|split; [constructor|done]]].
    intros k. rewrite lookup_empty.
    by destruct (decide (k ∈ [])) as [?%elem_of_nil|].
  - destruct IH as (IH1 & IH2 & IH3 & IH4).
    assert (foldl detectInitStep (∅, ∅, []) (nodes ++ [n])
            = detectInitStep (foldl detectInitStep (∅, ∅, []) nodes) n) as ->
      by (by rewrite foldl_app).
    assert (initEdges (nodes ++ [n]) = <[nid n := []]> (initEdges nodes)) as ->
      by (unfold initEdges; by rewrite foldl_app).
    set (st := foldl detectInitStep (∅, ∅, []) nodes) in *.
    unfold detectInitStep. cbn [fst snd]. rewrite IH2.
    split; [|split; [done|split; [by apply set_add_NoDup|]]].
    + intros k. rewrite fmap_app. simpl.
      assert (k ∈ (nid <$> nodes) ++ [nid n]
              <-> k ∈ nid <$> nodes \/ k = nid n) as Hin
        by (rewrite elem_of_app, list_elem_of_singleton; tauto).
      destruct (decide (k = nid n)) as [->|Hne].
      * rewrite lookup_insert_eq. rewrite decide_True; [done|].
        apply Hin. by right.
      * rewrite lookup_insert_ne, IH1 by done.
        destruct (decide (k ∈ nid <$> nodes)) as [Hk|Hk].
        -- rewrite decide_True; [done|]. apply Hin. by left.
        -- rewrite decide_False; [done|]. rewrite Hin. tauto.
    + intros k. rewrite set_add_elem, IH4, fmap_app, elem_of_app. simpl.
      rewrite list_elem_of_singleton. tauto.
Qed.

Section DetectTables.
Variable ids : list string.

(** Both builds keep the same successor sets. *)
Lemma detectAddEdge_adj conns : forall (d : gmap string Z) (e i : Adjacency),
  (forall k, is_Some (d !! k) <-> is_Some (i !! k)) ->
  (foldl detectAddEdge (d, e) conns).2 = (foldl addEdge (e, i) conns).1.
Proof.
  induction conns as [|c conns IH]; intros d e i Hdi; [done|].
  cbn [foldl]. unfold detectAddEdge at 2, addEdge at 2. cbn [fst snd].
  destruct (e !! fromNodeId c) as [a|]; [|by apply IH].
  pose proof (Hdi (toNodeId c)) as Hto.
  destruct (d !! toNodeId c) as [k|], (i !! toNodeId c) as [l|];
    try (by apply IH);
    try (exfalso; destruct Hto as [H1 H2];
         (by destruct H1; eauto) || (by destruct H2; eauto)).
  apply IH. intros x. destruct (decide (x = toNodeId c)) as [->|Hne].
  - rewrite !lookup_insert_eq. split; eauto.
  - by rewrite !lookup_insert_ne.
Qed.

Lemma detectAddEdge_inDegree conns :
  forall (d : gmap string Z) (e : Adjacency),
    (forall k, is_Some (d !! k) <-> k ∈ ids) ->
    (forall k, is_Some (e !! k) <-> k ∈ ids) ->
    forall v,
      (foldl detectAddEdge (d, e) conns).1 !! v
      = (fun z => (z + Z.of_nat (wiresInto ids conns v))%Z) <$> d !! v.
Proof.
  unfold wiresInto.
  induction conns as [|c conns IH]; intros d e Hd He v.
  - simpl. destruct (d !! v); simpl; [f_equal; lia|done].
  - cbn [foldl]. rewrite filter_cons.
    unfold detectAddEdge at 2. cbn [fst snd].
    destruct (e !! fromNodeId c) as [a|] eqn:Ea.
    + assert (fromNodeId c ∈ ids) as Hf by (apply He; eauto).
      destruct (d !! toNodeId c) as [k|] eqn:Ek.
      * rewrite IH.
        -- destruct (decide (v = toNodeId c)) as [->|Hne].
           ++ rewrite lookup_insert_eq, Ek, decide_True by done. simpl.
              f_equal. lia.
           ++ rewrite lookup_insert_ne by done.
              rewrite decide_False by (intros [_ ?]; done). done.
        -- intros x. destruct (decide (x = toNodeId c)) as [->|Hne].
           ++ rewrite lookup_insert_eq. rewrite <- Hd, Ek. split; eauto.
           ++ by rewrite lookup_insert_ne.
        -- intros x. destruct (decide (x = fromNodeId c)) as [->|Hne].
           ++ rewrite lookup_insert_eq. split; eauto.
           ++ by rewrite lookup_insert_ne.
      * rewrite IH by done.
        destruct (decide (v = toNodeId c)) as [->|Hne].
        -- by rewrite Ek.
        -- rewrite decide_False by (intros [_ ?]; done). done.
    + rewrite IH by done.
      rewrite decide_False; [done|].
      intros [Hf _]. apply He in Hf. rewrite Ea in Hf. by destruct Hf.
Qed.
End DetectTables.

(** * The enumeration of keys *)

Lemma insertIndexKey_Permutation k l : insertIndexKey k l ≡ₚ k :: l.
Proof.
  induction l as [|k' l IH]; simpl; [done|].
  destruct (k.1 <=? k'.1)%N; [done|]. rewrite IH. apply perm_swap.
Qed.

Lemma forInKeys_Permutation created : forInKeys created ≡ₚ created.
Proof.
  unfold forInKeys. induction created as [|s l IH]; [done|].
  rewrite filter_cons. cbn [omap list_omap].
  destruct (arrayIndex s) as [v|] eqn:E; cbn [fmap option_fmap option_map].
  - rewrite decide_False by done. cbn [foldr].
    rewrite insertIndexKey_Permutation. simpl. by rewrite IH.
  - rewrite decide_True by done.
    rewrite <- Permutation_middle. by rewrite IH.
Qed.

(** * Counting with a growing set *)

Lemma filter_in_one (s l : list string) u :
  NoDup l -> u ∈ l -> u ∉ s ->
  length (filter (fun w => w ∈ s ++ [u]) l)
  = S (length (filter (fun w => w ∈ s) l)).
Proof.
  intros Hl Hu Hs. induction l as [|a l IH]; [by apply elem_of_nil in Hu|].
  apply NoDup_cons in Hl as [Ha Hl]. rewrite !filter_cons.
  apply elem_of_cons in Hu as [<- | Hu].
  - rewrite decide_True by (rewrite elem_of_app; right; left).
    rewrite decide_False by done. simpl. f_equal. f_equal.
    apply filter_ext_elem. intros x Hx. rewrite elem_of_app.
    rewrite list_elem_of_singleton. split; [|tauto].
    intros [? | ->]; done.
  - assert (a <> u) as Hne by (intros ->; done).
    destruct (decide (a ∈ s)) as [Has|Has].
    + rewrite decide_True by (rewrite elem_of_app; tauto).
      simpl. f_equal. by apply IH.
    + rewrite decide_False
        by (rewrite elem_of_app, list_elem_of_singleton; tauto).
      by apply IH.
Qed.

Lemma filter_in_absent (s l : list string) u :
  u ∉ l ->
  filter (fun w => w ∈ s ++ [u]) l = filter (fun w => w ∈ s) l.
Proof.
  intros Hu. apply filter_ext_elem. intros x Hx.
  rewrite elem_of_app, list_elem_of_singleton. split; [|tauto].
  intros [? | ->]; done.
Qed.

Lemma filter_full {A} (P : A -> Prop) `{!forall x, Decision (P x)}
    (l : list A) :
  length l ≤ length (filter P l) -> forall x, x ∈ l -> P x.
Proof.
  induction l as [|a l IH]; intros Hlen x Hx; [by apply elem_of_nil in Hx|].
  rewrite filter_cons in Hlen. pose proof (length_filter P l).
  destruct (decide (P a)) as [Ha|Ha]; simpl in Hlen; [|lia].
  apply elem_of_cons in Hx as [-> | Hx]; [done|]. apply IH; [lia|done].
Qed.

(** * The loop of [detectCycleConnections] *)

Section DetectLoop.
Variable ids : list string.
Variable conns : list Connection.
Variable outE inE : Adjacency.
Hypothesis Hadj : adjacencyOf ids conns (outE, inE).

Let preds (v : string) : list string := default [] (inE !! v).
Let succs (u : string) : list string := default [] (outE !! u).

Lemma preds_wires v : length (preds v) ≤ wiresInto ids conns v.
Proof.
  destruct (preds_spec ids conns outE inE Hadj v) as [Hnd Hp].
  fold preds in Hnd, Hp. unfold wiresInto.
  rewrite <- (length_fmap fromNodeId
                (filter (fun c => fromNodeId c ∈ ids /\ toNodeId c = v) conns)).
  apply submseteq_length, NoDup_submseteq; [done|].
  intros u Hu. apply Hp in Hu as (Hu & _ & c & Hc & <- & <-).
  apply list_elem_of_fmap_2, list_elem_of_filter. done.
Qed.

Lemma detectInv_step u q s d :
  detectInv ids conns preds (u :: q) s d ->
  detectInv ids conns preds (foldl relax (d, q) (succs u)).2 (s ++ [u])
    (foldl relax (d, q) (succs u)).1.
Proof.
  intros (I1 & I2 & I3 & I4 & I5).
  destruct (succs_spec ids conns outE inE Hadj u) as [Hnd Hsu].
  fold succs in Hnd, Hsu.
  assert (u ∈ ids) as Hu by (apply I2; rewrite elem_of_app; right; left).
  assert (u ∉ s) as Hus.
  { apply NoDup_app in I1 as (_ & I1 & _). intros Hin.
    apply (I1 u Hin). left. }
  assert (forall v, v ∈ succs u <-> u ∈ preds v) as Hsp
    by (intros v; apply (succs_preds ids conns outE inE Hadj)).
  destruct (relax_fold (succs u) Hnd d q) as [Hd Hq].
  { intros v Hv. apply Hsu in Hv as (_ & Hv & _). rewrite I3 by done. eauto. }
  rewrite Hq. split; [|split; [|split; [|split]]].
  - replace ((s ++ [u]) ++ q ++ filter (fun v => d !! v = Some 1%Z) (succs u))
      with ((s ++ u :: q) ++ filter (fun v => d !! v = Some 1%Z) (succs u))
      by (by rewrite <- !app_assoc).
    apply NoDup_app. split; [done|]. split; [|by apply NoDup_filter].
    intros v Hv Hf. apply list_elem_of_filter in Hf as [_ Hf].
    apply Hus. apply (I4 v Hv). by apply Hsp.
  - intros v Hv. rewrite !elem_of_app in Hv.
    destruct Hv as [[Hv|Hv]|[Hv|Hv]].
    + apply I2. rewrite elem_of_app. by left.
    + apply list_elem_of_singleton in Hv as ->. done.
    + apply I2. rewrite elem_of_app. right. by right.
    + apply list_elem_of_filter in Hv as [_ Hv].
      by apply Hsu in Hv as (_ & ? & _).
  - intros v Hv. rewrite Hd.
    destruct (preds_spec ids conns outE inE Hadj v) as [Hpn _].
    fold preds in Hpn.
    destruct (decide (v ∈ succs u)) as [Hvs|Hvs].
    + rewrite I3 by done. simpl. f_equal.
      rewrite (filter_in_one s (preds v) u Hpn (proj1 (Hsp v) Hvs) Hus). lia.
    + rewrite I3 by done. rewrite filter_in_absent; [done|].
      intros Hp. apply Hvs. by apply Hsp.
  - intros v Hv w Hw. rewrite !elem_of_app in Hv. rewrite elem_of_app.
    assert (v ∈ s ++ u :: q -> w ∈ s) as Hold by (intros; by apply (I4 v)).
    destruct Hv as [[Hv|Hv]|[Hv|Hv]].
    + left. apply Hold. rewrite elem_of_app. by left.
    + apply list_elem_of_singleton in Hv as ->. left. apply Hold.
      rewrite elem_of_app. right. left.
    + left. apply Hold. rewrite elem_of_app. right. by right.
    + apply list_elem_of_filter in Hv as [Hv1 Hvs].
      assert (v ∈ ids) as Hvi by (by apply Hsu in Hvs as (_ & ? & _)).
      rewrite I3 in Hv1 by done. injection Hv1 as Hv1.
      destruct (preds_spec ids conns outE inE Hadj v) as [Hpn _].
      fold preds in Hpn.
      pose proof (filter_in_one s (preds v) u Hpn (proj1 (Hsp v) Hvs) Hus)
        as Hone.
      pose proof (preds_wires v) as Hpw.
      apply elem_of_app.
      apply (filter_full (fun x => x ∈ s ++ [u]) (preds v)); [lia|done].
  - intros j v Hj w Hw. apply lookup_snoc_Some in Hj as [[Hlt Hj]|[-> <-]].
    + destruct (I5 j v Hj w Hw) as (i & Hi & Hsi). exists i.
      split; [done|]. by apply lookup_app_l_Some.
    + assert (w ∈ s) as Hws.
      { apply (I4 u); [|done]. rewrite elem_of_app. right. left. }
      apply list_elem_of_lookup in Hws as [i Hi]. exists i.
      split; [by eapply lookup_lt_Some|]. by apply lookup_app_l_Some.
Qed.

Let complete (q s : list string) (d : gmap string Z) : Prop :=
  forall v, v ∈ ids -> d !! v = Some 0%Z -> v ∈ s ++ q.

Lemma detect_complete_step u q s d :
  detectInv ids conns preds (u :: q) s d ->
  complete (u :: q) s d ->
  complete (foldl relax (d, q) (succs u)).2 (s ++ [u])
    (foldl relax (d, q) (succs u)).1.
Proof.
  intros (I1 & I2 & I3 & I4 & I5) Hcomp v Hv.
  destruct (succs_spec ids conns outE inE Hadj u) as [Hnd Hsu].
  fold succs in Hnd, Hsu.
  destruct (relax_fold (succs u) Hnd d q) as [Hd Hq].
  { intros w Hw. apply Hsu in Hw as (_ & Hw & _). rewrite I3 by done. eauto. }
  rewrite Hd, Hq.
  destruct (decide (v ∈ succs u)) as [Hvs|Hvs].
  - destruct (d !! v) as [k|] eqn:Ek; simpl; [|done]. intros [= Hz].
    rewrite !elem_of_app. right. right. apply list_elem_of_filter.
    split; [|done]. rewrite Ek. f_equal. lia.
  - intros Hz. specialize (Hcomp v Hv Hz).
    rewrite !elem_of_app in *. rewrite elem_of_cons in Hcomp.
    rewrite list_elem_of_singleton. tauto.
Qed.

Lemma detectLoop_result fuel : forall q s d res,
  detectInv ids conns preds q s d -> complete q s d ->
  kahnLoop fuel outE q s d = Some res ->
  NoDup res /\ (forall v, v ∈ res -> v ∈ ids)
  /\ dependencyOrdered preds res
  /\ (forall v, v ∈ ids -> v ∉ res ->
        wiresInto ids conns v = length (preds v) ->
        exists u, u ∈ preds v /\ u ∉ res).
Proof.
  assert (forall s d, detectInv ids conns preds [] s d -> complete [] s d ->
            NoDup s /\ (forall v, v ∈ s -> v ∈ ids)
            /\ dependencyOrdered preds s
            /\ (forall v, v ∈ ids -> v ∉ s ->
                  wiresInto ids conns v = length (preds v) ->
                  exists u, u ∈ preds v /\ u ∉ s)) as Hend.
  { intros s d (I1 & I2 & I3 & _ & I5) Hcomp. rewrite app_nil_r in *.
    split; [done|]. split; [done|]. split; [done|].
    intros v Hv Hvs Hw.
    destruct (decide (Forall (fun u => u ∈ s) (preds v))) as [Hall|Hex].
    - exfalso. apply Hvs. specialize (Hcomp v Hv).
      rewrite app_nil_r in Hcomp. apply Hcomp. rewrite I3 by done.
      rewrite filter_all by (by apply Forall_forall). f_equal. lia.
    - apply not_Forall_Exists in Hex; [|apply _].
      apply Exists_exists in Hex as (u & Hu & Hus). eauto. }
  induction fuel as [|fuel IH]; intros q s d res Hinv Hcomp.
  - destruct q; simpl; [|done]. intros [= <-]. by eapply Hend.
  - destruct q as [|u q]; simpl.
    + intros [= <-]. by eapply Hend.
    + apply IH; [by apply detectInv_step|by apply detect_complete_step].
Qed.
End DetectLoop.

Lemma detectProcessed_result nodes conns res :
  detectProcessed nodes conns = Some res ->
  NoDup res /\ (forall v, v ∈ res -> v ∈ nid <$> nodes)
  /\ dependencyOrdered
       (fun v => default [] ((buildAdjacency nodes conns).2 !! v)) res
  /\ (forall v, v ∈ nid <$> nodes -> v ∉ res ->
        wiresInto (nid <$> nodes) conns v
        = length (default [] ((buildAdjacency nodes conns).2 !! v)) ->
        exists u, u ∈ default [] ((buildAdjacency nodes conns).2 !! v)
                  /\ u ∉ res).
Proof.
  unfold detectProcessed.
  destruct (detectInit_spec nodes) as (H1 & H2 & H3 & H4).
  destruct (foldl detectInitStep (∅, ∅, []) nodes) as [[d0 e0] created].
  cbn [fst snd] in H1, H2, H3, H4. cbn [fst snd]. subst e0.
  assert (forall k, is_Some (d0 !! k) <-> k ∈ nid <$> nodes) as Hd0.
  { intros k. rewrite H1. destruct (decide (k ∈ nid <$> nodes)) as [Hk|Hk].
    - split; eauto.
    - split; [by intros [? ?]|done]. }
  assert (forall k, is_Some (initEdges nodes !! k) <-> k ∈ nid <$> nodes)
    as He0.
  { intros k. rewrite initEdges_lookup.
    destruct (decide (k ∈ nid <$> nodes)) as [Hk|Hk].
    - split; eauto.
    - split; [by intros [? ?]|done]. }
  rewrite (detectAddEdge_adj conns d0 (initEdges nodes) (initEdges nodes))
    by (intros k; by rewrite Hd0, He0).
  fold (buildAdjacency nodes conns).
  assert (forall v, (foldl detectAddEdge (d0, initEdges nodes) conns).1 !! v
                    = if decide (v ∈ nid <$> nodes)
                      then Some (Z.of_nat (wiresInto (nid <$> nodes) conns v))
                      else None) as Hdeg.
  { intros v.
    rewrite (detectAddEdge_inDegree (nid <$> nodes) conns d0 _ Hd0 He0).
    rewrite H1. by destruct (decide (v ∈ nid <$> nodes)). }
  set (d := (foldl detectAddEdge (d0, initEdges nodes) conns).1) in *.
  pose proof (buildAdjacency_adjacencyOf nodes conns) as Hadj.
  destruct (buildAdjacency nodes conns) as [outE inE] eqn:Eadj.
  cbn [fst snd]. intros Hloop.
  assert (NoDup (forInKeys created)) as Hkeys
    by (by rewrite forInKeys_Permutation).
  assert (forall k, k ∈ forInKeys created <-> k ∈ nid <$> nodes) as Hkin
    by (intros k; by rewrite forInKeys_Permutation).
  eapply (detectLoop_result (nid <$> nodes) conns outE inE Hadj);
    [| |exact Hloop].
  - split; [|split; [|split; [|split]]]; simpl.
    + by apply NoDup_filter.
    + intros v Hv. apply list_elem_of_filter in Hv as [_ Hv]. by apply Hkin.
    + intros v Hv. rewrite Hdeg, decide_True by done.
      rewrite filter_none by (intros x _ Hx; by apply elem_of_nil in Hx).
      simpl. f_equal. lia.
    + intros v Hv u Hu. exfalso. apply list_elem_of_filter in Hv as [Hz Hv].
      apply Hkin in Hv. rewrite Hdeg, decide_True in Hz by done.
      injection Hz as Hz.
      pose proof (preds_wires (nid <$> nodes) conns outE inE Hadj v) as Hpw.
      cbn beta in Hpw.
      destruct (default [] (inE !! v)); [by apply elem_of_nil in Hu|].
      simpl in Hpw. apply (Nat2Z.inj _ 0) in Hz. rewrite Hz in Hpw. inversion Hpw.
    + intros j v Hj. done.
  - intros v Hv Hz. simpl. apply list_elem_of_filter. split; [done|].
    by apply Hkin.
Qed.

(** An order that respects the connections holds no node in feedback. *)
Lemma ordered_excludes_feedback nodes conns preds res :
  NoDup res -> dependencyOrdered preds res ->
  (forall u v, nodeEdge nodes conns u v -> u ∈ preds v) ->
  forall v, inFeedback nodes conns v -> v ∉ res.
Proof.
  intros Hnd Hdep Hpreds.
  assert (forall u v, tc (nodeEdge nodes conns) u v ->
            forall j, res !! j = Some v ->
              exists i, i < j /\ res !! i = Some u) as Hbefore.
  { induction 1 as [u v Huv|u y v Huy _ IH]; intros j Hj.
    - apply (Hdep j v Hj). by apply Hpreds.
    - destruct (IH j Hj) as (i' & Hi' & Hy).
      destruct (Hdep i' y Hy u) as (i & Hi & Hu); [by apply Hpreds|].
      exists i. split; [lia|done]. }
  intros v (x & Hloop & Hreach).
  assert (x ∉ res) as Hx.
  { intros Hxs. apply list_elem_of_lookup in Hxs as [j Hj].
    destruct (Hbefore x x Hloop j Hj) as (i & Hi & Hix).
    pose proof (NoDup_lookup _ _ _ _ Hnd Hix Hj). lia. }
  clear Hloop. revert Hx.
  induction Hreach as [|a b c Hab _ IH]; intros Hx; [done|].
  apply IH. intros Hbs. apply list_elem_of_lookup in Hbs as [j Hj].
  destruct (Hbefore a b (tc_once _ _ _ Hab) j Hj) as (i & _ & Hia).
  apply Hx. by eapply list_elem_of_lookup_2.
Qed.

Lemma inFeedback_node nodes conns v :
  inFeedback nodes conns v -> v ∈ nid <$> nodes.
Proof.
  intros (x & Hloop & Hreach).
  assert (x ∈ nid <$> nodes) as Hx
    by (inversion Hloop as [a b (? & _)|a b c (? & _)]; by subst).
  clear Hloop. induction Hreach as [|a b c Hab _ IH]; [done|].
  apply IH. by destruct Hab as (_ & ? & _).
Qed.

Lemma detect_unprocessed_feedback nodes conns res :
  detectProcessed nodes conns = Some res ->
  forall v, inFeedback nodes conns v ->
    v ∈ nid <$> filter (fun n => nid n ∉ res) nodes.
Proof.
  intros Hp v Hv.
  destruct (detectProcessed_result nodes conns res Hp) as (Hnd & _ & Hdep & _).
  pose proof (inFeedback_node _ _ _ Hv) as Hin.
  apply list_elem_of_fmap in Hin as (n & -> & Hn).
  apply list_elem_of_fmap_2, list_elem_of_filter. split; [|done].
  apply (ordered_excludes_feedback nodes conns _ res Hnd Hdep); [|done].
  intros u w Huw.
  pose proof (buildAdjacency_adjacencyOf nodes conns) as Ha.
  apply (preds_spec (nid <$> nodes) conns (buildAdjacency nodes conns).1
           (buildAdjacency nodes conns).2);
    [by destruct (buildAdjacency nodes conns)|exact Huw].
Qed.

(** X12: [detectCycleConnections] returns, it reports only connections
    between nodes, and it misses no feedback wire: a connection between two
    nodes that each lie on a closed path or downstream of one, and so every
    connection on a closed path, is in the list. *)
Theorem detectCycleConnections_complete nodes conns :
  exists reported,
    detectCycleConnections nodes conns = Some reported
    /\ (forall i, i ∈ reported ->
          exists c, c ∈ conns /\ cid c = i
                    /\ fromNodeId c ∈ nid <$> nodes
                    /\ toNodeId c ∈ nid <$> nodes)
    /\ (forall c, c ∈ conns ->
          inFeedback nodes conns (fromNodeId c) ->
          inFeedback nodes conns (toNodeId c) ->
          cid c ∈ reported)
    /\ (forall c, c ∈ conns ->
          tc (nodeEdge nodes conns) (toNodeId c) (fromNodeId c) ->
          cid c ∈ reported).
Proof.
  destruct (detectCycleConnections_total nodes conns) as [reported Hr].
  exists reported. split; [done|].
  unfold detectCycleConnections in Hr.
  destruct (detectProcessed nodes conns) as [res|] eqn:Hp; simpl in Hr; [|done].
  injection Hr as <-.
  assert (forall c, c ∈ conns ->
            inFeedback nodes conns (fromNodeId c) ->
            inFeedback nodes conns (toNodeId c) ->
            cid c ∈ cid <$> filter
              (fun c => fromNodeId c ∈ nid <$> filter (fun n => nid n ∉ res) nodes
                        /\ toNodeId c ∈ nid <$> filter (fun n => nid n ∉ res) nodes)
              conns) as Hcomplete.
  { intros c Hc Hf Ht. apply list_elem_of_fmap_2, list_elem_of_filter.
    split; [|done]. split; by apply (detect_unprocessed_feedback nodes conns). }
  split; [|split; [exact Hcomplete|]].
  - intros i (c & -> & Hc)%list_elem_of_fmap.
    apply list_elem_of_filter in Hc as [[Hf Ht] Hc]. exists c.
    split; [done|]. split; [done|].
    apply list_elem_of_fmap in Hf as (n1 & -> & Hn1).
    apply list_elem_of_fmap in Ht as (n2 & -> & Hn2).
    apply list_elem_of_filter in Hn1 as [_ Hn1].
    apply list_elem_of_filter in Hn2 as [_ Hn2].
    split; by apply list_elem_of_fmap_2.
  - intros c Hc Hback.
    assert (nodeEdge nodes conns (fromNodeId c) (toNodeId c)) as Hedge.
    { assert (forall a b, tc (nodeEdge nodes conns) a b ->
                a ∈ nid <$> nodes /\ b ∈ nid <$> nodes) as Hends.
      { induction 1 as [a b (? & ? & _)|a b z (? & _) _ [_ ?]]; done. }
      destruct (Hends _ _ Hback) as [Ht Hf].
      split; [done|]. split; [done|]. by exists c. }
    assert (tc (nodeEdge nodes conns) (fromNodeId c) (fromNodeId c)) as Hloop
      by (by eapply tc_l).
    apply Hcomplete; [done| |].
    + exists (fromNodeId c). split; [done|apply rtc_refl].
    + exists (fromNodeId c). split; [done|by apply rtc_once].
Qed.

(** * [detectCycleConnections] without parallel wires *)

Lemma NoDup_sources (ids : list string) (v : string) : forall conns,
  v ∈ ids ->
  NoDup ((fun c => (fromNodeId c, toNodeId c))
           <$> filter (fun c => fromNodeId c ∈ ids /\ toNodeId c ∈ ids) conns) ->
  NoDup (fromNodeId
           <$> filter (fun c => fromNodeId c ∈ ids /\ toNodeId c = v) conns).
Proof.
  intros conns Hv. induction conns as [|c cs IH]; [constructor|].
  rewrite !filter_cons.
  destruct (decide (fromNodeId c ∈ ids /\ toNodeId c = v)) as [[Hf Ht]|Hn].
  - rewrite decide_True by (by rewrite Ht).
    rewrite !fmap_cons. intros [Hnotin Hnd]%NoDup_cons.
    apply NoDup_cons. split; [|by apply IH].
    intros (c' & Heq & Hc')%list_elem_of_fmap. apply Hnotin.
    apply list_elem_of_filter in Hc' as [[Hf' Ht'] Hc'].
    apply list_elem_of_fmap. exists c'. split.
    + by rewrite Heq, Ht, Ht'.
    + apply list_elem_of_filter. split; [|done]. split; [done|by rewrite Ht'].
  - destruct (decide (fromNodeId c ∈ ids /\ toNodeId c ∈ ids)).
    + rewrite fmap_cons. intros [_ Hnd]%NoDup_cons. by apply IH.
    + apply IH.
Qed.

Lemma noParallelWires_wires nodes conns v :
  noParallelWires nodes conns -> v ∈ nid <$> nodes ->
  wiresInto (nid <$> nodes) conns v
  = length (default [] ((buildAdjacency nodes conns).2 !! v)).
Proof.
  intros Hpar Hv.
  pose proof (buildAdjacency_adjacencyOf nodes conns) as Hadj.
  destruct (buildAdjacency nodes conns) as [outE inE]. cbn [snd].
  destruct (preds_spec (nid <$> nodes) conns outE inE Hadj v) as [Hnd Hp].
  cbn beta in Hnd, Hp. unfold wiresInto.
  rewrite <- (length_fmap fromNodeId).
  apply Permutation_length, NoDup_Permutation;
    [by apply NoDup_sources|done|].
  intros u. rewrite Hp. split.
  - intros (c & -> & Hc)%list_elem_of_fmap.
    apply list_elem_of_filter in Hc as [[Hf Ht] Hc].
    split; [done|]. split; [done|]. by exists c.
  - intros (Hu & _ & c & Hc & <- & <-).
    by apply list_elem_of_fmap_2, list_elem_of_filter.
Qed.

Lemma detect_unprocessed_iff nodes conns res :
  noParallelWires nodes conns ->
  detectProcessed nodes conns = Some res ->
  forall v, v ∈ nid <$> filter (fun n => nid n ∉ res) nodes
            <-> inFeedback nodes conns v.
Proof.
  intros Hpar Hp v. split; [|by apply detect_unprocessed_feedback].
  intros (n & -> & Hn)%list_elem_of_fmap.
  apply list_elem_of_filter in Hn as [Hres Hn].
  destruct (detectProcessed_result nodes conns res Hp) as (_ & _ & _ & Hblocked).
  pose proof (buildAdjacency_adjacencyOf nodes conns) as Hadj.
  apply (backward_chain_closes (nodeEdge nodes conns) (nid <$> nodes)
           (fun v => v ∈ nid <$> nodes /\ v ∉ res))
    with (k := length (nid <$> nodes)) (anc := []) (v := nid n).
  - by intros v [Hv _].
  - intros v [Hv Hvres].
    destruct (Hblocked v Hv Hvres) as (u & Hu & Hures);
      [by apply noParallelWires_wires|].
    destruct (buildAdjacency nodes conns) as [outE inE].
    apply (preds_spec (nid <$> nodes) conns outE inE Hadj v)
      in Hu as (Hu & _ & He).
    exists u. done.
  - split; [by apply list_elem_of_fmap_2|done].
  - apply rtc_refl.
  - constructor.
  - by intros a Ha%elem_of_nil.
  - simpl. lia.
Qed.

(** X13: when no two connections between nodes share source and
    destination, [detectCycleConnections] reports exactly the connections
    whose two ends lie on a closed path or downstream of one: nothing for a
    circuit without closed path, and the connections inside the cycle set
    that [evaluateCircuit] computes for the same circuit. *)
Theorem detectCycleConnections_exact nodes conns reported :
  noParallelWires nodes conns ->
  detectCycleConnections nodes conns = Some reported ->
  (forall i, i ∈ reported
             <-> exists c, c ∈ conns /\ cid c = i
                           /\ inFeedback nodes conns (fromNodeId c)
                           /\ inFeedback nodes conns (toNodeId c))
  /\ (acyclic conns -> reported = [])
  /\ (forall cyc sorted,
        NoDup (nid <$> nodes) ->
        evaluationOrder nodes conns = Some (cyc, sorted) ->
        reported = cid <$> filter (fun c => fromNodeId c ∈ cyc
                                            /\ toNodeId c ∈ cyc) conns).
Proof.
  intros Hpar Hr. unfold detectCycleConnections in Hr.
  destruct (detectProcessed nodes conns) as [res|] eqn:Hp; simpl in Hr; [|done].
  injection Hr as <-.
  pose proof (detect_unprocessed_iff nodes conns res Hpar Hp) as Hiff.
  split; [|split].
  - intros i. split.
    + intros (c & -> & Hc)%list_elem_of_fmap.
      apply list_elem_of_filter in Hc as [[Hf Ht] Hc].
      exists c. rewrite <- !Hiff. done.
    + intros (c & Hc & <- & Hf & Ht).
      apply list_elem_of_fmap_2, list_elem_of_filter. by rewrite !Hiff.
  - intros Hacyc. rewrite filter_none; [done|].
    intros c _ [Hf _]. apply Hiff in Hf as (x & Hloop & _).
    apply (Hacyc x). eapply tc_congruence with (f := fun a => a); [|exact Hloop].
    by intros a b (_ & _ & He).
  - intros cyc sorted Hids Hord.
    destruct (cycle_set_feedback nodes conns cyc sorted Hids Hord) as [Hcyc _].
    f_equal. apply filter_ext_elem. intros c _. rewrite !Hiff, !Hcyc. done.
Qed.

Lemma detectCycleConnections_exact_witness :
  let nodes := [mkNode "s" INPUT 0 1 (Some true) None None None;
                mkNode "p" NOT 1 1 None None None None;
                mkNode "q" NOT 1 1 None None None None;
                mkNode "o" OUTPUT 1 0 None None None None] in
  let conns := [mkConn "w1" "p" 0 "q" 0; mkConn "w2" "q" 0 "p" 0;
                mkConn "w3" "q" 0 "o" 0; mkConn "w4" "s" 0 "zz" 0] in
  let reported := ["w1"; "w2"; "w3"] in
  (forall i, i ∈ reported
             <-> exists c, c ∈ conns /\ cid c = i
                           /\ inFeedback nodes conns (fromNodeId c)
                           /\ inFeedback nodes conns (toNodeId c))
  /\ (acyclic conns -> reported = [])
  /\ (forall cyc sorted,
        NoDup (nid <$> nodes) ->
        evaluationOrder nodes conns = Some (cyc, sorted) ->
        reported = cid <$> filter (fun c => fromNodeId c ∈ cyc
                                            /\ toNodeId c ∈ cyc) conns).
Proof.
  intros nodes conns reported.
  apply (detectCycleConnections_exact nodes conns reported).
  - apply (bool_decide_unpack _). vm_compute. exact I.
  - vm_compute. reflexivity.
Defined.

(** * Circuits without feedback: the order of the node list *)

Section OrderFree.
Variable rec : list CircuitNode -> list Connection -> option Outputs.
Variable nodes : list CircuitNode.
Variable conns : list Connection.
Variable modules : list ModuleDefinition.
Variable s0 : list string.
Variable r : Outputs.

Hypothesis Hs0_nodes : forall v, v ∈ s0 -> v ∈ nid <$> nodes.
Hypothesis Hs0_order : forall j v, s0 !! j = Some v ->
  forall c, c ∈ conns -> toNodeId c = v -> fromNodeId c ∈ nid <$> nodes ->
    exists i, i < j /\ s0 !! i = Some (fromNodeId c).
Hypothesis Hr_nodes : forall k, k ∉ nid <$> nodes -> r !! k = None.
Hypothesis Hr_settled : forall n, n ∈ nodes ->
  exists v, gateOutput rec modules n (inputValues conns [] ∅ r n) = Some v
            /\ r !! nid n = Some v.
Hypothesis Hfirst : forall n, n ∈ nodes -> find_node nodes (nid n) = Some n.

(** Pass 1 over a prefix of a dependency order rebuilds the solution [r]
    of the equations on that prefix. *)
Lemma pass1_reaches l : forall rest,
  s0 = l ++ rest ->
  exists o, pass1 rec nodes conns modules [] ∅ l ∅ = Some o
            /\ forall k, o !! k = if decide (k ∈ l) then r !! k else None.
Proof.
  induction l as [|x l IH] using rev_ind; intros rest Hsplit.
  - exists ∅. split; [done|]. intros k. rewrite lookup_empty.
    by destruct (decide (k ∈ [])) as [?%elem_of_nil|].
  - rewrite <- app_assoc in Hsplit. simpl in Hsplit.
    destruct (IH _ Hsplit) as (o & Ho & Hlk).
    unfold pass1 in *. rewrite forOf_app, Ho. cbn [mbind option_bind].
    rewrite forOf_singleton. unfold pass1Step.
    rewrite bool_decide_eq_false_2 by (by intros ?%elem_of_nil).
    assert (x ∈ s0) as Hx by (rewrite Hsplit; set_solver).
    destruct (find_node_is_Some nodes x (Hs0_nodes x Hx)) as [n Hn].
    pose proof Hn as [Hnin <-]%find_node_Some.
    unfold evaluateNode. rewrite Hn.
    assert (inputValues conns [] ∅ o n = inputValues conns [] ∅ r n) as ->.
    { apply inputValues_ext. intros c Hc Ht.
      rewrite bool_decide_eq_false_2 by (by intros ?%elem_of_nil).
      rewrite Hlk.
      destruct (decide (fromNodeId c ∈ nid <$> nodes)) as [Hf|Hf].
      - assert (s0 !! length l = Some (nid n)) as Hj.
        { rewrite Hsplit. by rewrite list_lookup_middle. }
        destruct (Hs0_order _ _ Hj c Hc Ht Hf) as (i & Hi & Hfi).
        rewrite decide_True; [done|].
        rewrite Hsplit, lookup_app_l in Hfi by done.
        by eapply list_elem_of_lookup_2.
      - rewrite (Hr_nodes _ Hf). by destruct (decide (fromNodeId c ∈ l)). }
    destruct (Hr_settled n Hnin) as (v & -> & Hv). cbn [mbind option_bind].
    eexists. split; [done|]. intros k.
    destruct (decide (k = nid n)) as [->|Hne].
    + rewrite lookup_insert_eq, decide_True by set_solver. done.
    + rewrite lookup_insert_ne by done. rewrite Hlk.
      destruct (decide (k ∈ l)); [rewrite decide_True by set_solver; done|].
      rewrite decide_False; [done|]. set_solver.
Qed.

Lemma pass1_rebuilds :
  (forall v, v ∈ nid <$> nodes -> v ∈ s0) ->
  pass1 rec nodes conns modules [] ∅ s0 ∅ = Some r.
Proof.
  intros Hall. destruct (pass1_reaches s0 []) as (o & -> & Hlk);
    [by rewrite app_nil_r|].
  f_equal. apply map_eq. intros k. rewrite Hlk.
  destruct (decide (k ∈ s0)) as [|Hk]; [done|].
  symmetry. apply Hr_nodes. intros Hin. by apply Hk, Hall.
Qed.
End OrderFree.

Lemma seedOutputs_nil prev : seedOutputs prev [] = ∅.
Proof. by destruct prev. Qed.

(** X14: a circuit without closed path and with pairwise distinct node
    identifiers yields the same result however its node list is ordered and
    whatever previous outputs are passed. *)
Theorem acyclic_node_order fuel nodes nodes' conns modules prev prev' r :
  NoDup (nid <$> nodes) -> acyclic conns -> nodes ≡ₚ nodes' ->
  evaluateCircuit fuel nodes conns modules prev = Some r ->
  evaluateCircuit fuel nodes' conns modules prev' = Some r.
Proof.
  intros Hids Hacyc Hperm He.
  destruct fuel as [|fuel]; [done|].
  assert (NoDup (nid <$> nodes')) as Hids' by (by rewrite <- Hperm).
  assert (forall k, k ∈ nid <$> nodes' <-> k ∈ nid <$> nodes) as Hsame
    by (intros k; by rewrite Hperm).
  destruct (evaluationOrder_total nodes conns) as [[cyc sorted] Hord].
  destruct (cycle_set_feedback nodes conns cyc sorted Hids Hord) as [_ Hc].
  rewrite (Hc Hacyc) in Hord. clear Hc cyc.
  destruct (evaluationOrder_total nodes' conns) as [[cyc' sorted'] Hord'].
  destruct (cycle_set_feedback nodes' conns cyc' sorted' Hids' Hord') as [_ Hc].
  rewrite (Hc Hacyc) in Hord'. clear Hc cyc'.
  cbn [evaluateCircuit]. unfold evaluateCircuitBody. rewrite Hord'.
  cbn [mbind option_bind fst snd]. unfold evaluatePhases.
  rewrite seedOutputs_nil.
  unfold evaluationOrder in Hord'.
  destruct (kahnSorted nodes' conns) as [s0|] eqn:Hk; simpl in Hord'; [|done].
  destruct (collectCycle_spec nodes' s0) as (cyc' & Hcc & _ & Hcyc).
  rewrite Hcc in Hord'. injection Hord' as Hord1 Hord2. subst cyc' sorted'.
  rewrite app_nil_r.
  destruct (kahnSorted_sorted nodes' conns Hids' s0 Hk) as (Hs & Hsub & Hdep).
  rewrite (pass1_rebuilds
             (fun ns cs => evaluateCircuit fuel ns cs modules None)
             nodes' conns modules s0 r); [done|done| | | | |].
  - intros j v Hj c Hcin Ht Hf. apply (Hdep j v Hj).
    rewrite <- Ht. apply preds_edge; [done|done|].
    rewrite Ht. apply Hsub. by eapply list_elem_of_lookup_2.
  - intros k Hk'. apply eq_None_not_Some. intros Hsome. apply Hk', Hsame.
    by eapply evaluateCircuit_only_nodes.
  - intros n Hn. rewrite <- Hperm in Hn.
    destruct (evaluateCircuit_settled fuel nodes conns modules prev []
                sorted r n Hids Hord He Hn) as (v & Hv & Hlk).
    rewrite seedOutputs_nil in Hv. eauto.
  - intros n Hn. by apply find_node_NoDup.
  - intros v Hv. destruct (decide (v ∈ s0)) as [|Hn]; [done|].
    assert (v ∈ @nil string) as Hnil%elem_of_nil by (by apply Hcyc). done.
Qed.

Lemma acyclic_node_order_witness :
  let a := mkNode "a" INPUT 0 1 (Some true) None None None in
  let g := mkNode "g" NOT 1 1 None None None None in
  let o := mkNode "o" OUTPUT 1 0 None None None None in
  let conns := [mkConn "w1" "a" 0 "g" 0; mkConn "w2" "g" 0 "o" 0] in
  let prev' : Outputs := {["g" := [true]]} in
  let r : Outputs := {["a" := [true]; "g" := [false]; "o" := [false]]} in
  evaluateCircuit 1 [o; g; a] conns [] (Some prev') = Some r.
Proof.
  intros a g o conns prev' r.
  apply (acyclic_node_order 1 [a; g; o] [o; g; a] conns [] None (Some prev') r).
  - apply (bool_decide_unpack _). vm_compute. exact I.
  - apply (ranked_acyclic conns
             (fun v => if bool_decide (v = "a") then 0
                       else if bool_decide (v = "g") then 1 else 2)).
    intros u v (c & Hc & <- & <-).
    apply elem_of_cons in Hc as [-> | Hc]; [vm_compute; lia|].
    apply list_elem_of_singleton in Hc as ->. vm_compute. lia.
  - exact (reverse_Permutation [o; g; a]).
  - vm_compute. reflexivity.
Defined.

(** * What the evaluator reads of a node *)

Lemma filter_fmap_nid (P : string -> Prop) `{!forall i, Decision (P i)}
    (nodes : list CircuitNode) :
  nid <$> filter (fun n => P (nid n)) nodes = filter P (nid <$> nodes).
Proof.
  induction nodes as [|n nodes IH]; [done|].
  rewrite fmap_cons, !filter_cons.
  destruct (decide (P (nid n))); by rewrite ?fmap_cons, IH.
Qed.

(** The sequencer reads the identifiers only. *)
Lemma evaluationOrder_ids nodes nodes' conns :
  nid <$> nodes = nid <$> nodes' ->
  evaluationOrder nodes conns = evaluationOrder nodes' conns.
Proof.
  intros Hids.
  assert (initEdges nodes = initEdges nodes') as Hedges.
  { unfold initEdges.
    rewrite <- !(foldl_fmap (fun m i => <[i := []]> m) ∅ _ nid).
    by rewrite Hids. }
  assert (forall inE, initInDegree nodes inE = initInDegree nodes' inE) as Hdeg.
  { intros inE. unfold initInDegree.
    rewrite <- !(foldl_fmap
                   (fun d i => <[i := match inE !! i with
                                      | Some s => Z.of_nat (length s)
                                      | None => 0%Z
                                      end]> d) ∅ _ nid).
    by rewrite Hids. }
  assert (forall d, initQueue nodes d = initQueue nodes' d) as Hq.
  { intros d. unfold initQueue.
    etrans; [exact (@filter_fmap_nid (fun i => d !! i = Some 0%Z) _ nodes)|].
    rewrite Hids. symmetry.
    exact (@filter_fmap_nid (fun i => d !! i = Some 0%Z) _ nodes'). }
  assert (forall s, collectCycle nodes s = collectCycle nodes' s) as Hcol.
  { intros s. unfold collectCycle.
    assert (forall l st,
              foldl collectStep st l
              = foldl (fun st i => if bool_decide (i ∈ st.2) then st
                                   else (st.1 ++ [i], st.2 ++ [i]))
                  st (nid <$> l)) as Hfold
      by (intros l st; by rewrite foldl_fmap).
    by rewrite !Hfold, Hids. }
  assert (length nodes = length nodes') as Hlen
    by (by rewrite <- (length_fmap nid nodes), Hids, length_fmap).
  unfold evaluationOrder, kahnSorted, buildAdjacency.
  rewrite Hedges, Hdeg, Hq, Hlen.
  destruct (kahnLoop _ _ _ _ _); simpl; [|done]. by rewrite Hcol.
Qed.

Lemma sameBehaviour_ids nodes nodes' :
  Forall2 sameBehaviour nodes nodes' -> nid <$> nodes = nid <$> nodes'.
Proof.
  induction 1 as [|n n' l l' (Hn & _) _ IH]; [done|].
  rewrite !fmap_cons. by rewrite Hn, IH.
Qed.

Lemma find_node_same nodes nodes' i :
  Forall2 sameBehaviour nodes nodes' ->
  option_Forall2 sameBehaviour (find_node nodes i) (find_node nodes' i).
Proof.
  unfold find_node. induction 1 as [|n n' l l' Hs _ IH]; [constructor|].
  simpl. destruct Hs as (Hn & Hrest). rewrite <- Hn.
  case_bool_decide; [|done]. constructor. by split.
Qed.

Lemma gateOutput_same rec modules n n' iv :
  sameBehaviour n n' ->
  gateOutput rec modules n iv = gateOutput rec modules n' iv.
Proof.
  intros (_ & Ht & Hic & Hoc & Hm & Hmode & Hval & Hvals).
  unfold gateOutput. rewrite <- Ht, <- Hic, <- Hoc, <- Hm, <- Hmode, <- Hval.
  destruct (ntype n); try done.
  destruct (default ModeInput (pinBarMode n)); [|done].
  f_equal. apply list_fmap_ext. intros j k Hk. apply Hvals.
  apply list_elem_of_lookup_2, elem_of_seq in Hk. lia.
Qed.

Lemma forOf_ext {A B} (body body' : A -> B -> option A) l a :
  (forall a x, body a x = body' a x) -> forOf body l a = forOf body' l a.
Proof.
  intros Hext. revert a. induction l as [|x l IH]; intros a; [done|].
  rewrite !forOf_cons, Hext. destruct (body' a x); simpl; auto.
Qed.

Lemma evaluateNode_same rec nodes nodes' conns modules cyc fr o i b :
  option_Forall2 sameBehaviour (find_node nodes i) (find_node nodes' i) ->
  evaluateNode rec nodes conns modules cyc fr o i b
  = evaluateNode rec nodes' conns modules cyc fr o i b.
Proof.
  intros Hs. unfold evaluateNode.
  destruct Hs as [n n' Hn|]; [|done].
  rewrite (gateOutput_same rec modules n n' _ Hn).
  unfold inputValues. destruct Hn as (-> & _ & -> & _). done.
Qed.

(** The evaluator reads the identifiers of the node list and, for each
    identifier, the first node that carries it. *)
Lemma evaluateCircuit_same_first fuel nodes nodes' conns modules prev :
  nid <$> nodes = nid <$> nodes' ->
  (forall i, option_Forall2 sameBehaviour
               (find_node nodes i) (find_node nodes' i)) ->
  evaluateCircuit fuel nodes conns modules prev
  = evaluateCircuit fuel nodes' conns modules prev.
Proof.
  intros Hids Hs. destruct fuel as [|fuel]; [done|].
  cbn [evaluateCircuit]. unfold evaluateCircuitBody.
  rewrite (evaluationOrder_ids nodes nodes' conns Hids).
  destruct (evaluationOrder nodes' conns) as [[cyc sorted]|]; [|done].
  cbn [mbind option_bind fst snd]. unfold evaluatePhases.
  set (rec := fun ns cs => evaluateCircuit fuel ns cs modules None).
  assert (forall fr l o, pass1 rec nodes conns modules cyc fr l o
                         = pass1 rec nodes' conns modules cyc fr l o) as H1.
  { intros fr l o. apply forOf_ext. intros a x. unfold pass1Step.
    case_bool_decide; [done|]. apply evaluateNode_same, Hs. }
  assert (forall fr l o, pass2 rec nodes conns modules cyc fr l o
                         = pass2 rec nodes' conns modules cyc fr l o) as H2.
  { intros fr l o. apply forOf_ext. intros a x. apply evaluateNode_same, Hs. }
  rewrite H1. destruct (pass1 rec nodes' _ _ _ _ _ _) as [o1|]; [|done].
  cbn [mbind option_bind]. apply H2.
Qed.

Lemma evaluateCircuit_same fuel nodes nodes' conns modules prev :
  Forall2 sameBehaviour nodes nodes' ->
  evaluateCircuit fuel nodes conns modules prev
  = evaluateCircuit fuel nodes' conns modules prev.
Proof.
  intros Hs. apply evaluateCircuit_same_first.
  - by apply sameBehaviour_ids.
  - intros i. by apply find_node_same.
Qed.

(** X15: the evaluator does not tell a node without held value from one
    holding [false], nor a bar without held vector, or with a short one,
    from a bar holding the vector padded with [false]: node lists that
    agree up to these defaults yield the same result. *)
Theorem evaluateCircuit_defaults fuel nodes nodes' conns modules prev :
  Forall2 sameBehaviour nodes nodes' ->
  evaluateCircuit fuel nodes conns modules prev
  = evaluateCircuit fuel nodes' conns modules prev.
Proof. apply evaluateCircuit_same. Qed.

Lemma evaluateCircuit_defaults_witness :
  let conns := [mkConn "w1" "a" 0 "g" 0; mkConn "w2" "b" 1 "g" 1] in
  let g := mkNode "g" OR 2 1 None None None None in
  evaluateCircuit 1 [mkNode "a" INPUT 0 1 None None None None;
                     mkNode "b" PINBAR 0 2 None None None (Some [true]); g]
    conns [] None
  = evaluateCircuit 1 [mkNode "a" INPUT 0 1 (Some false) None None None;
                       mkNode "b" PINBAR 0 2 None None None
                         (Some [true; false; true]); g]
      conns [] None.
Proof.
  intros conns g. apply evaluateCircuit_defaults.
  repeat constructor; simpl; try done.
  all: intros [|[|k]] Hk; simpl; try done; lia.
Defined.

(** * A module instance against the canvas it was built from *)

Lemma inputSlice_middle (a b c : list bool) :
  inputSlice (a ++ b ++ c) (length a) (length b) = b.
Proof.
  apply list_eq. intros j. destruct (decide (j < length b)) as [Hj|Hj].
  - rewrite inputSlice_lookup by done.
    rewrite lookup_app_r by lia.
    replace (length a + j - length a) with j by lia.
    rewrite lookup_app_l by done.
    destruct (lookup_lt_is_Some_2 b j Hj) as [x Hx]. by rewrite Hx.
  - rewrite (lookup_ge_None_2 b) by lia.
    apply lookup_ge_None_2. unfold inputSlice.
    rewrite length_fmap, length_seq. lia.
Qed.

Lemma same_identifier nodes (n t : CircuitNode) :
  NoDup (nid <$> nodes) -> n ∈ nodes -> t ∈ nodes -> nid t = nid n -> t = n.
Proof.
  intros Hids Hn Ht Heq.
  pose proof (find_node_NoDup nodes n Hids Hn) as H1.
  pose proof (find_node_NoDup nodes t Hids Ht) as H2.
  rewrite Heq, H1 in H2. by injection H2.
Qed.

Section RoundTrip.
Variable fuel : nat.
Variable nodes : list CircuitNode.
Variable conns : list Connection.
Variable modules : list ModuleDefinition.
Variable r0 : Outputs.

Hypothesis Hids : NoDup (nid <$> nodes).
Hypothesis He : evaluateCircuit fuel nodes conns modules None = Some r0.

Let bits (t : CircuitNode) : list bool := default [] (r0 !! nid t).

(** The output of an input terminal is its held vector. *)
Lemma terminal_bits t :
  t ∈ nodes -> isInputTerminal t = true ->
  bits t
  = match ntype t with
    | PINBAR => (fun k => default false (default [] (pinBarValues t) !! k))
                  <$> seq 0 (outputCount t)
    | _ => [default false (inputValue t)]
    end.
Proof.
  intros Ht Hterm. unfold bits.
  destruct (evaluateCircuit_lookup fuel nodes conns modules None r0
              (nid t) t He (find_node_NoDup nodes t Hids Ht))
    as (rec & cyc & fr & src & v & Hv & ->).
  simpl. unfold gateOutput, isInputTerminal in *.
  destruct (ntype t); try done.
  - by injection Hv as <-.
  - destruct (default ModeInput (pinBarMode t)); [|done].
    by injection Hv as <-.
Qed.

Lemma terminal_bits_length m t :
  wellFormedModule m -> mnodes m = nodes ->
  t ∈ nodes -> isInputTerminal t = true ->
  length (bits t) = widthStep (mnodes m) 0 (nid t).
Proof.
  intros Hwf Hmn Ht Hterm.
  rewrite (width_terminal m t) by (rewrite Hmn; by apply find_node_NoDup).
  rewrite terminal_bits by done.
  destruct (ntype t); try done. by rewrite length_fmap, length_seq.
Qed.

Lemma terminal_bits_slots m ts :
  wellFormedModule m -> mnodes m = nodes ->
  (forall t, t ∈ ts -> t ∈ nodes /\ isInputTerminal t = true) ->
  length (ts ≫= bits) = foldl (widthStep (mnodes m)) 0 (nid <$> ts).
Proof.
  intros Hwf Hmn. induction ts as [|t ts IH]; intros Hts; [done|].
  rewrite fmap_cons, slots_cons, bind_cons, length_app.
  rewrite IH by (intros; apply Hts; by right).
  f_equal. apply terminal_bits_length; [done|done|apply Hts; left..].
Qed.

Lemma terminal_slice m ts idx t :
  wellFormedModule m -> mnodes m = nodes ->
  (forall t, t ∈ ts -> t ∈ nodes /\ isInputTerminal t = true) ->
  ts !! idx = Some t ->
  inputSlice (ts ≫= bits)
    (foldl (widthStep (mnodes m)) 0 (take idx (nid <$> ts)))
    (widthStep (mnodes m) 0 (nid t))
  = bits t.
Proof.
  intros Hwf Hmn Hts Hidx.
  pose proof (take_drop_middle ts idx t Hidx) as Hsplit.
  rewrite <- fmap_take.
  rewrite <- (terminal_bits_slots m (take idx ts) Hwf Hmn).
  2:{ intros x Hx. apply Hts. rewrite <- Hsplit. set_solver. }
  rewrite <- (terminal_bits_length m t Hwf Hmn);
    [|apply Hts; by eapply list_elem_of_lookup_2..].
  rewrite <- Hsplit at 1. rewrite bind_app, bind_cons.
  apply inputSlice_middle.
Qed.

Variable uuid : string.
Variable name : option string.
Variable m : ModuleDefinition.
Hypothesis Hm : createModule uuid name nodes conns = Some m.

Let iv : list bool := (getIONodes nodes).1 ≫= bits.

(** The working copy of the expander is the canvas up to defaults. *)
Lemma working_copy_canvas :
  Forall2 sameBehaviour (internalNodes m (moduleInputValues m iv)) nodes.
Proof.
  pose proof (createModule_terminals uuid name nodes conns m Hids Hm) as Hwf.
  pose proof Hm as (Hmk & _ & _)%createModule_Some.
  assert (mnodes m = nodes) as Hmn by (by rewrite Hmk).
  assert (inputNodeIds m = nid <$> (getIONodes nodes).1) as Hmi
    by (by rewrite Hmk).
  assert (forall t, t ∈ (getIONodes nodes).1 ->
            t ∈ nodes /\ isInputTerminal t = true) as Hts.
  { intros t Ht. unfold getIONodes in Ht. simpl in Ht.
    apply list_elem_of_filter in Ht as [Hf Ht].
    by rewrite <- feedsModule_terminal. }
  rewrite (internalNodes_spec m iv (wellFormed_listsTerminals m Hwf))
    by (by rewrite Hmn).
  unfold specInternalNodes.
  rewrite Hmn at 2. apply Forall2_fmap_l, Forall_Forall2_diag, Forall_forall.
  intros n Hn. simpl. unfold specInject.
  assert (sameBehaviour n n) as Hrefl by (by repeat split).
  destruct (isInputTerminal n) eqn:Hterm; [|done].
  rewrite (sliceOf_specSlices m iv (nid n) (inputNodeIds m)).
  2:{ by destruct Hwf as (_ & _ & Hin & _). }
  destruct (indexOf (nid n) (inputNodeIds m)) as [idx|] eqn:Hidx; [|done].
  simpl. apply indexOf_lookup in Hidx. rewrite Hmi in Hidx |- *.
  rewrite list_lookup_fmap in Hidx.
  destruct ((getIONodes nodes).1 !! idx) as [t|] eqn:Ht; [|done].
  injection Hidx as Hidx.
  assert (t = n) as ->.
  { apply (same_identifier nodes); [done|done| |done].
    apply Hts. by eapply list_elem_of_lookup_2. }
  unfold iv. rewrite (terminal_slice m _ idx n Hwf Hmn Hts Ht).
  rewrite terminal_bits by done.
  unfold isInputTerminal in Hterm.
  destruct (ntype n) eqn:Hty; try done.
  repeat split; try done. simpl. intros k Hk.
  rewrite list_lookup_fmap, lookup_seq_lt by done. done.
Qed.

Lemma instance_reproduces :
  evaluateCircuit fuel (internalNodes m (moduleInputValues m iv))
    (mconnections m) modules None = Some r0.
Proof.
  rewrite (evaluateCircuit_same fuel _ nodes _ _ _ working_copy_canvas).
  pose proof Hm as (-> & _ & _)%createModule_Some. done.
Qed.

Lemma readback_canvas :
  acyclic conns ->
  moduleResult m r0 = (getIONodes nodes).2 ≫= bits.
Proof.
  intros Hacyc. pose proof Hm as (-> & _ & _)%createModule_Some.
  unfold moduleResult. cbn [outputNodeIds].
  rewrite list_fmap_bind. apply bind_ext_elem. intros t Ht.
  unfold getIONodes in Ht. simpl in Ht.
  apply list_elem_of_filter in Ht as [Hdrain Ht].
  unfold outputBits. cbn [mnodes mconnections compose].
  rewrite (find_node_NoDup nodes t Hids Ht).
  destruct fuel as [|fuel']; [done|].
  destruct (evaluationOrder_total nodes conns) as [[cyc sorted] Hord].
  destruct (cycle_set_feedback nodes conns cyc sorted Hids Hord) as [_ Hc].
  rewrite (Hc Hacyc) in Hord. clear Hc cyc.
  destruct (evaluateCircuit_settled fuel' nodes conns modules None []
              sorted r0 t Hids Hord He Ht) as (v & Hv & Hlk).
  unfold bits. rewrite Hlk. simpl.
  unfold drainsModule in Hdrain. unfold gateOutput in Hv.
  destruct (ntype t) eqn:Hty; try done.
  - destruct (pinBarMode t); injection Hv as <-;
      unfold readPin; by rewrite Hlk.
  - simpl in Hdrain. case_bool_decide as Hmode; [|done].
    rewrite Hmode in Hv |- *. simpl in Hv. injection Hv as <-.
    unfold inputValues. rewrite take_ge
      by (by rewrite length_fmap, length_seq).
    apply list_fmap_ext. intros j pi _. unfold pinValue.
    destruct (find_conn conns (nid t) pi); [|done].
    by rewrite bool_decide_eq_false_2 by (by intros ?%elem_of_nil).
Qed.
End RoundTrip.

(** X16: a module that [createModule] builds from a canvas with pairwise
    distinct node identifiers reproduces the canvas: a MODULE node of it,
    fed the bits the input terminals show on the canvas, is assigned the
    read-back of the canvas result; for a canvas without closed path these
    are the bits its output terminals show, in canvas order. *)
Theorem createModule_round_trip fuel uuid name nodes conns modules m r0 inst :
  NoDup (nid <$> nodes) ->
  createModule uuid name nodes conns = Some m ->
  evaluateCircuit fuel nodes conns modules None = Some r0 ->
  ntype inst = MODULE ->
  find_module modules (moduleId inst) = Some m ->
  let io := getIONodes nodes in
  let shown := fun t => default [] (r0 !! nid t) in
  gateOutput (fun ns cs => evaluateCircuit fuel ns cs modules None) modules
    inst (io.1 ≫= shown)
  = Some (moduleResult m r0)
  /\ (acyclic conns -> moduleResult m r0 = io.2 ≫= shown).
Proof.
  intros Hids Hm He Hty Hfind io shown. split.
  - unfold gateOutput. rewrite Hty, Hfind. subst io shown. cbn zeta.
    rewrite (instance_reproduces fuel nodes conns modules r0 Hids He
               uuid name m Hm). done.
  - by apply (readback_canvas fuel nodes conns modules r0 Hids He uuid name).
Qed.

Lemma createModule_round_trip_witness :
  let nodes := [mkNode "a" INPUT 0 1 (Some true) None None None;
                mkNode "b" PINBAR 0 2 None None None (Some [false; true]);
                mkNode "g" AND 2 1 None None None None;
                mkNode "o" OUTPUT 1 0 None None None None;
                mkNode "p" PINBAR 2 0 None None (Some ModeOutput) None] in
  let conns := [mkConn "w1" "a" 0 "g" 0; mkConn "w2" "b" 1 "g" 1;
                mkConn "w3" "g" 0 "o" 0; mkConn "w4" "g" 0 "p" 0;
                mkConn "w5" "b" 0 "p" 1] in
  let m := mkModule "M" nodes conns ["a"; "b"] ["o"; "p"] in
  let r0 : Outputs := {["a" := [true]; "b" := [false; true]; "g" := [true];
                        "o" := [true]; "p" := [true; false]]} in
  let inst := mkNode "u" MODULE 3 3 None (Some "M") None None in
  let io := getIONodes nodes in
  let shown := fun t => default [] (r0 !! nid t) in
  gateOutput (fun ns cs => evaluateCircuit 1 ns cs [m] None) [m]
    inst (io.1 ≫= shown)
  = Some (moduleResult m r0)
  /\ (acyclic conns -> moduleResult m r0 = io.2 ≫= shown).
Proof.
  intros nodes conns m r0 inst.
  apply (createModule_round_trip 1 "M" (Some "and") nodes conns [m] m r0 inst).
  - apply (bool_decide_unpack _). vm_compute. exact I.
  - vm_compute. reflexivity.
  - vm_compute. reflexivity.
  - reflexivity.
  - vm_compute. reflexivity.
Defined.

(** * Pin names *)

Lemma orElse_nonempty a b : b <> "" -> orElse a b <> "".
Proof.
  intros Hb. unfold orElse. destruct a as [s|]; [|done].
  by case_bool_decide.
Qed.

Section Names.
Variable pinNames : CircuitNode -> option (gmap string string).
Variable label : CircuitNode -> string.

Lemma getInputPinNames_spec inputNodes :
  length (getInputPinNames pinNames label inputNodes)
  = foldl (fun a n => match ntype n with
                      | INPUT => a + 1
                      | PINBAR => a + outputCount n
                      | _ => a
                      end) 0 inputNodes
  /\ Forall (fun s => s <> "") (getInputPinNames pinNames label inputNodes).
Proof.
  unfold getInputPinNames.
  induction inputNodes as [|n l IH] using rev_ind; [by split|].
  rewrite !foldl_app. cbn [foldl]. destruct IH as [IHlen IHne].
  destruct (ntype n); try done.
  - rewrite length_app, IHlen. split; [done|].
    apply Forall_app. split; [done|]. apply Forall_singleton.
    by apply orElse_nonempty, orElse_nonempty.
  - rewrite length_app, length_fmap, length_seq, IHlen. split; [done|].
    apply Forall_app. split; [done|]. apply Forall_fmap, Forall_forall.
    intros i _. by apply orElse_nonempty.
Qed.

Lemma getOutputPinNames_spec outputNodes :
  length (getOutputPinNames pinNames label outputNodes)
  = foldl (fun a n => match ntype n with
                      | OUTPUT => a + 1
                      | PINBAR => a + inputCount n
                      | _ => a
                      end) 0 outputNodes
  /\ Forall (fun s => s <> "") (getOutputPinNames pinNames label outputNodes).
Proof.
  unfold getOutputPinNames.
  induction outputNodes as [|n l IH] using rev_ind; [by split|].
  rewrite !foldl_app. cbn [foldl]. destruct IH as [IHlen IHne].
  destruct (ntype n); try done.
  - rewrite length_app, IHlen. split; [done|].
    apply Forall_app. split; [done|]. apply Forall_singleton.
    by apply orElse_nonempty, orElse_nonempty.
  - rewrite length_app, length_fmap, length_seq, IHlen. split; [done|].
    apply Forall_app. split; [done|]. apply Forall_fmap, Forall_forall.
    intros i _. by apply orElse_nonempty.
Qed.
End Names.

(** X17: the name lists that [createModule] stores line up with the pin
    counts: [getInputPinNames] and [getOutputPinNames] return as many names
    as [calculateIOCounts] counts input and output pins, and no name is
    empty, whatever the nodes' [pinNames] and [label] hold. *)
Theorem pin_names_cover_pins pinNames label inputNodes outputNodes :
  let counts := calculateIOCounts inputNodes outputNodes in
  let inputPinNames := getInputPinNames pinNames label inputNodes in
  let outputPinNames := getOutputPinNames pinNames label outputNodes in
  length inputPinNames = counts.1
  /\ length outputPinNames = counts.2
  /\ Forall (fun s => s <> "") (inputPinNames ++ outputPinNames).
Proof.
  intros counts ins outs.
  destruct (getInputPinNames_spec pinNames label inputNodes) as [H1 H2].
  destruct (getOutputPinNames_spec pinNames label outputNodes) as [H3 H4].
  split; [exact H1|]. split; [exact H3|]. apply Forall_app. by split.
Qed.

(** * The module expander against its description *)

Lemma find_node_fmap (f : CircuitNode -> CircuitNode) nodes i :
  (forall n, nid (f n) = nid n) ->
  find_node (f <$> nodes) i = f <$> find_node nodes i.
Proof.
  intros Hf. unfold find_node. induction nodes as [|n nodes IH]; [done|].
  rewrite fmap_cons. simpl. rewrite Hf. by case_bool_decide.
Qed.

Lemma find_node_first nodes i n :
  find_node nodes i = Some n -> find_node nodes (nid n) = Some n.
Proof. intros Hn. by pose proof Hn as [_ ->]%find_node_Some. Qed.

Lemma injectNode_nid m miv n : nid (injectNode m miv n) = nid n.
Proof.
  unfold injectNode. destruct (ntype n); try done.
  - by destruct (indexOf _ _).
  - destruct (default ModeInput (pinBarMode n)); [|done].
    by destruct (indexOf _ _).
Qed.

Lemma specInject_nid slices n : nid (specInject slices n) = nid n.
Proof.
  unfold specInject. destruct (isInputTerminal n); [|done].
  destruct (sliceOf _ _); [|done]. by destruct (ntype n).
Qed.

Lemma sameBehaviour_refl n : sameBehaviour n n.
Proof. by repeat split. Qed.

(** The working copy and the copy of the description agree on the
    identifiers and on the first node of every identifier, which is all the
    standalone evaluation reads. *)
Lemma gateOutput_module fuel modules m node iv :
  listsTerminals m ->
  ntype node = MODULE ->
  find_module modules (moduleId node) = Some m ->
  gateOutput (fun ns cs => evaluateCircuit fuel ns cs modules None) modules
    node iv
  = specModule (fun ns cs => evaluateCircuit fuel ns cs modules None) m iv.
Proof.
  intros Hlt Ht Hm. unfold gateOutput, specModule. rewrite Ht, Hm.
  rewrite (evaluateCircuit_same_first fuel
             (internalNodes m (moduleInputValues m iv))
             (specInternalNodes m iv)).
  - destruct (evaluateCircuit _ _ _ _ _) as [r|]; simpl; [|done].
    by rewrite moduleResult_spec.
  - unfold internalNodes, specInternalNodes.
    rewrite <- !list_fmap_compose. apply list_fmap_ext. intros j n _. simpl.
    by rewrite injectNode_nid, specInject_nid.
  - intros i. unfold internalNodes, specInternalNodes.
    rewrite !find_node_fmap
      by (intros; apply injectNode_nid || apply specInject_nid).
    destruct (find_node (mnodes m) i) as [n|] eqn:Hn; [|constructor].
    simpl. constructor.
    rewrite (injectNode_spec m iv Hlt n (find_node_first _ _ _ Hn)).
    apply sameBehaviour_refl.
Qed.

(** C3: for a module definition whose terminal lists name terminals of it
    (every entry of [inputNodeIds] an INPUT or input-mode PINBAR node of the
    definition, every entry of [outputNodeIds] an OUTPUT or output-mode
    PINBAR node of it), and for every external input vector, the vector a
    MODULE node is assigned is the one the specification describes: the
    internal circuit evaluated standalone with the input terminals holding
    their slices of the external inputs, read back in [outputNodeIds]
    order.  In a result of the enclosing circuit, with distinct node
    identifiers there, the entry of the MODULE node is that vector for the
    values its pins read. *)
Theorem module_expansion_refines fuel nodes conns modules prev r i node m :
  listsTerminals m ->
  ntype node = MODULE ->
  find_module modules (moduleId node) = Some m ->
  evaluateCircuit (S fuel) nodes conns modules prev = Some r ->
  find_node nodes i = Some node ->
  let standalone := fun ns cs => evaluateCircuit fuel ns cs modules None in
  (forall inputVals,
      gateOutput standalone modules node inputVals
      = specModule standalone m inputVals)
  /\ (forall cyc sorted,
        NoDup (nid <$> nodes) ->
        evaluationOrder nodes conns = Some (cyc, sorted) ->
        r !! i
        = specModule standalone m
            (inputValues conns cyc (seedOutputs prev cyc) r node)).
Proof.
  intros Hlt Ht Hm He Hn standalone.
  split; [intros iv; by apply gateOutput_module|].
  intros cyc sorted Hids Hord.
  pose proof Hn as [Hin <-]%find_node_Some.
  destruct (evaluateCircuit_settled fuel nodes conns modules prev cyc sorted
              r node Hids Hord He Hin) as (v & Hv & ->).
  rewrite <- Hv. by apply gateOutput_module.
Qed.

Lemma module_expansion_refines_witness :
  let m := mkModule "M"
             [mkNode "x" INPUT 0 1 None None None None;
              mkNode "b" PINBAR 0 2 None None None None;
              mkNode "g" AND 2 1 None None None None;
              mkNode "y" OUTPUT 1 0 None None None None;
              mkNode "p" PINBAR 2 0 None None (Some ModeOutput) None]
             [mkConn "k1" "x" 0 "g" 0; mkConn "k2" "b" 1 "g" 1;
              mkConn "k3" "g" 0 "y" 0; mkConn "k4" "b" 0 "p" 0;
              mkConn "k5" "g" 0 "p" 1]
             ["x"; "b"; "x"] ["y"; "p"] in
  let node := mkNode "u" MODULE 4 3 None (Some "M") None None in
  let nodes := [mkNode "a" INPUT 0 1 (Some true) None None None;
                mkNode "c" PINBAR 0 2 None None None (Some [false; true]);
                node] in
  let conns := [mkConn "w1" "a" 0 "u" 0; mkConn "w2" "c" 0 "u" 1;
                mkConn "w3" "c" 1 "u" 2] in
  let standalone := fun ns cs => evaluateCircuit 1 ns cs [m] None in
  exists r,
    evaluateCircuit 2 nodes conns [m] None = Some r
    /\ r !! "u" = Some [true; false; true]
    /\ (forall inputVals,
          gateOutput standalone [m] node inputVals
          = specModule standalone m inputVals)
    /\ (forall cyc sorted,
          NoDup (nid <$> nodes) ->
          evaluationOrder nodes conns = Some (cyc, sorted) ->
          r !! "u"
          = specModule standalone m
              (inputValues conns cyc (seedOutputs None cyc) r node)).
Proof.
  intros m node nodes conns standalone.
  assert (listsTerminals m) as Hlt.
  { split.
    - intros i Hi.
      repeat (apply elem_of_cons in Hi as [-> | Hi]);
        [eexists; split; reflexivity..|by apply elem_of_nil in Hi].
    - intros o Ho.
      repeat (apply elem_of_cons in Ho as [-> | Ho]);
        [eexists; split; reflexivity..|by apply elem_of_nil in Ho]. }
  destruct (evaluateCircuit 2 nodes conns [m] None) as [r|] eqn:He;
    [|vm_compute in He; discriminate He].
  exists r. split; [reflexivity|].
  split; [vm_compute in He; injection He as <-; reflexivity|].
  apply (module_expansion_refines 1 nodes conns [m] None r "u" node m Hlt);
    [reflexivity|reflexivity|exact He|reflexivity].
Defined.

(** The hypothesis on [inputNodeIds] cannot be dropped.  For a definition,
    such as [createModule] never builds, whose [inputNodeIds] names an
    identifier that is no node of it before an INPUT terminal, the
    flattening loop skips the entry and gives the terminal slot 0, while
    the [actualIdx] loop counts one slot for the entry and the working copy
    reads slot 1. *)
Lemma module_dangling_terminal :
  let m := mkModule "M"
             [mkNode "x" INPUT 0 1 None None None None;
              mkNode "y" OUTPUT 1 0 None None None None]
             [mkConn "k" "x" 0 "y" 0]
             ["ghost"; "x"] ["y"] in
  let node := mkNode "u" MODULE 1 1 None (Some "M") None None in
  let nodes := [mkNode "a" INPUT 0 1 (Some true) None None None; node] in
  let conns := [mkConn "w" "a" 0 "u" 0] in
  let standalone := fun ns cs => evaluateCircuit 1 ns cs [m] None in
  find_module [m] (moduleId node) = Some m
  /\ (evaluateCircuit 2 nodes conns [m] None ≫= (.!! "u")) = Some [false]
  /\ moduleInputValues m [true] = [true]
  /\ gateOutput standalone [m] node [true] = Some [false]
  /\ specModule standalone m [true] = Some [true].
Proof. vm_compute. repeat split; reflexivity. Qed.
